(** * pyrf96: model conversions, noise kernels, data covariance and misfit

    A shallow embedding of [src/pyrf96/_pyrf96.py] (and of the misfit lines
    of [examples/RFcalcdemo.py]).

    Conventions of the embedding:
    - numpy [float32]/[float64] values are real numbers ([R]); rounding,
      overflow and NaN are outside the model;
    - a one-dimensional array is a [list R], a two-dimensional array a
      [matrix] (column count and list of rows);
    - a Python exception is a value [Raise e] of the result type [res];
    - arrays that the code updates in place live in a store, addressed by
      location, so that aliasing is visible;
    - routines of the compiled library [rf96] (the Fortran solver and
      [voro2mod]) and of numpy's [linalg] and [random] modules are
      parameters of the sections that use them. *)

From Stdlib Require Import Reals Lra Lia ZArith String.
From stdpp Require Import gmap strings list.

Open Scope R_scope.

(** ** Python exceptions and results *)

Inductive exn : Type :=
  | IndexError
  | KeyError
  | TypeError
  | ValueError
  | UnboundLocalError
  | ZeroDivisionError
  | LinAlgError.

Inductive res (A : Type) : Type :=
  | Ok (a : A)
  | Raise (e : exn).

Arguments Ok {A} a.
Arguments Raise {A} e.

#[global] Instance res_ret : MRet res := fun A a => Ok a.
#[global] Instance res_bind : MBind res := fun A B f m =>
  match m with
  | Ok a => f a
  | Raise e => Raise e
  end.

(** [for x in l: ...] where the body may raise: the first failure wins. *)
Fixpoint for_each {A B : Type} (f : A -> res B) (l : list A) : res (list B) :=
  match l with
  | [] => Ok []
  | x :: l' =>
      y ← f x;
      ys ← for_each f l';
      Ok (y :: ys)
  end.

(** Python's [seq[i]] for an integer [i]: negative indices count from the
    end, anything outside [-len, len) raises [IndexError]. *)
Definition py_index (len : nat) (i : Z) : res nat :=
  if (0 <=? i)%Z then
    if (i <? Z.of_nat len)%Z then Ok (Z.to_nat i) else Raise IndexError
  else
    if (- Z.of_nat len <=? i)%Z then Ok (Z.to_nat (Z.of_nat len + i))
    else Raise IndexError.

Definition getitem {A : Type} (l : list A) (i : Z) : res A :=
  n ← py_index (length l) i;
  match l !! n with
  | Some x => Ok x
  | None => Raise IndexError
  end.

(** Division of two Python floats. *)
Definition py_truediv (a b : R) : res R :=
  if Req_dec_T b 0 then Raise ZeroDivisionError else Ok (a / b).

(** ** numpy arrays *)

Definition zeros (n : nat) : list R := replicate n 0.
Definition ones (n : nat) : list R := replicate n 1.

Fixpoint cumsum_from (acc : R) (l : list R) : list R :=
  match l with
  | [] => []
  | x :: l' => (acc + x) :: cumsum_from (acc + x) l'
  end.

(** [np.cumsum] *)
Definition cumsum (l : list R) : list R := cumsum_from 0 l.

(** [l[:-1]] *)
Definition drop_last {A : Type} (l : list A) : list A := take (length l - 1) l.

(** Number of positions selected by the slice [start::step] in an array of
    length [len], and the positions themselves. *)
Definition slice_len (start step len : nat) : nat :=
  if (start <? len)%nat then ((len - start + step - 1) / step)%nat else 0%nat.

Definition slice_positions (start step len : nat) : list nat :=
  map (fun k => (start + k * step)%nat) (seq 0 (slice_len start step len)).

Fixpoint store_at (pos : list nat) (vals : list R) (arr : list R) : list R :=
  match pos, vals with
  | p :: pos', v :: vals' => store_at pos' vals' (<[p := v]> arr)
  | _, _ => arr
  end.

(** [arr[start::step] = vals]: the value must have as many entries as the
    slice selects, or a single entry that is broadcast. *)
Definition set_slice (start step : nat) (vals arr : list R) : res (list R) :=
  let pos := slice_positions start step (length arr) in
  if (length vals =? length pos)%nat then Ok (store_at pos vals arr)
  else
    match vals with
    | [v] => Ok (store_at pos (replicate (length pos) v) arr)
    | _ => Raise ValueError
    end.

(** [arr[i] = v] *)
Definition setitem (i : Z) (v : R) (arr : list R) : res (list R) :=
  n ← py_index (length arr) i;
  Ok (<[n := v]> arr).

(** [np.linspace(start, stop, num)] *)
Definition linspace (start stop : R) (num : nat) : list R :=
  match num with
  | O => []
  | S O => [start]
  | S div =>
      map (fun i => INR i * ((stop - start) / INR div) + start) (seq 0 num)
  end.

(** Element-wise [a - b] with numpy's broadcasting of a one-element operand. *)
Definition np_sub (a b : list R) : res (list R) :=
  if (length a =? length b)%nat then Ok (zip_with Rminus a b)
  else
    match a, b with
    | _, [y] => Ok (map (fun x => x - y) a)
    | [x], _ => Ok (map (fun y => x - y) b)
    | _, _ => Raise ValueError
    end.

(** In-place [a += b]: [b] must have the shape of [a] or a single entry. *)
Definition np_iadd (a b : list R) : res (list R) :=
  if (length b =? length a)%nat then Ok (zip_with Rplus a b)
  else
    match b with
    | [y] => Ok (map (fun x => x + y) a)
    | _ => Raise ValueError
    end.

Definition rsum (l : list R) : R := foldr Rplus 0 l.

(** Two-dimensional arrays. *)
Record matrix : Type := Matrix { ncols : nat; rows : list (list R) }.

Definition nrows (m : matrix) : nat := length (rows m).

Definition entry (m : matrix) (i j : nat) : R :=
  nth j (nth i (rows m) []) 0.

Definition tabulate (nr nc : nat) (f : nat -> nat -> R) : matrix :=
  Matrix nc (map (fun i => map (fun j => f i j) (seq 0 nc)) (seq 0 nr)).

(** [m.T] *)
Definition transpose (m : matrix) : matrix :=
  tabulate (ncols m) (nrows m) (fun i j => entry m j i).

(** [m[:, :p]] and [m[:p, :]] *)
Definition cols_upto (p : nat) (m : matrix) : matrix :=
  Matrix (Nat.min p (ncols m)) (map (take p) (rows m)).

Definition rows_upto (p : nat) (m : matrix) : matrix :=
  Matrix (ncols m) (take p (rows m)).

(** [np.diag(v)] for a one-dimensional [v] *)
Definition diag (v : list R) : matrix :=
  tabulate (length v) (length v)
    (fun i j => if (i =? j)%nat then nth i v 0 else 0).

(** [1.0 / v] element-wise (numpy array division) *)
Definition reciprocals (v : list R) : list R := map (fun a => 1 / a) v.

(** [m / c] element-wise *)
Definition scale_div (m : matrix) (c : R) : matrix :=
  Matrix (ncols m) (map (map (fun a => a / c)) (rows m)).

Definition dot_entry (a b : matrix) (i j : nat) : R :=
  rsum (map (fun k => entry a i k * entry b k j) (seq 0 (ncols a))).

(** [np.dot] of two two-dimensional arrays *)
Definition dot_mm (a b : matrix) : res matrix :=
  if (ncols a =? nrows b)%nat
  then Ok (tabulate (nrows a) (ncols b) (dot_entry a b))
  else Raise ValueError.

(** [np.dot] of a two-dimensional and a one-dimensional array *)
Definition dot_mv (a : matrix) (v : list R) : res (list R) :=
  if (ncols a =? length v)%nat
  then Ok (map (fun i => rsum (map (fun k => entry a i k * nth k v 0)
                                  (seq 0 (ncols a))))
              (seq 0 (nrows a)))
  else Raise ValueError.

(** [np.dot] of two one-dimensional arrays *)
Definition dot_vv (u v : list R) : res R :=
  if (length u =? length v)%nat
  then Ok (rsum (zip_with Rmult u v))
  else Raise ValueError.

(** ** Noise kernels *)

Definition sqExp (x xp s1 rho : R) : R :=
  (s1 ^ 2) * exp ((- ((x - xp) ^ 2)) / (2 * rho ^ 2)).

Definition matern0 (x xp s1 rho : R) : R :=
  (s1 ^ 2) * exp ((- Rabs (x - xp)) / rho).

Definition matern1 (x xp s1 rho : R) : R :=
  (s1 ^ 2) * (1 + sqrt 3 * Rabs (x - xp) / rho)
  * exp ((- sqrt 3) * Rabs (x - xp) / rho).

Definition matern2 (x xp s1 rho : R) : R :=
  (s1 ^ 2)
  * (1 + sqrt 5 * Rabs (x - xp) / rho + 5 * (x - xp) ^ 2 / (3 * rho ^ 2))
  * exp ((- sqrt 5) * Rabs (x - xp) / rho).

Definition periodic (x xp s1 rho period : R) : R :=
  (s1 ^ 2)
  * exp ((- (2 * sin (Rabs (x - xp) * PI / period) ^ 2)) / rho ^ 2).

(** ** Layered models and their plot format *)

(** A model is an array of shape [(L, 3)]: one row [(a, Vs, VpVs)] per layer. *)
Definition layered_model : Type := list (R * R * R).

(** [model.T[0]] and [model.T[1]] *)
Definition column0 (model : layered_model) : list R := map (fun r => r.1.1) model.
Definition column1 (model : layered_model) : list R := map (fun r => r.1.2) model.

(** Default values of the keyword arguments of the three converters. *)
Definition default_vmin : R := 2.4.
Definition default_vmax : R := 4.7.
Definition default_dmin : R := 0.
Definition default_dmax : R := 60.

(** Layer-thickness representation to (velocity, depth) plot format. *)
Definition l2mod (model : layered_model) (vmin vmax dmin dmax : R)
  : res (list R * list R) :=
  let px := zeros (2 * length model) in
  let py := zeros (2 * length model) in
  let r1 := cumsum (column0 model) in
  let r2 := drop_last (cumsum (column0 model)) in
  let r3 := column1 model in
  let r4 := column1 model in
  py ← set_slice 1 2 r1 py;
  py ← set_slice 2 2 r2 py;
  px ← set_slice 0 2 r3 px;
  px ← set_slice 1 2 r4 px;
  py ← setitem (-1) dmax py;
  Ok (px, py).

(** Interface-depth representation to (velocity, depth) plot format. *)
Definition d2mod (model : layered_model) (vmin vmax dmin dmax : R)
  : res (list R * list R) :=
  let px := zeros (2 * length model) in
  let py := zeros (2 * length model) in
  let r1 := column0 model in
  let r2 := drop_last (column0 model) in
  let r3 := column1 model in
  let r4 := column1 model in
  py ← set_slice 1 2 r1 py;
  py ← set_slice 2 2 r2 py;
  px ← set_slice 0 2 r3 px;
  px ← set_slice 1 2 r4 px;
  py ← setitem (-1) dmax py;
  Ok (px, py).

Section Voronoi.

(** [librf96.voro2mod(model, npt, h, beta, vpvs)]: the compiled routine
    gets the model and three buffers of [npt] entries; [voro2mod model npt i]
    is what it writes at index [i] of [h], [beta] and [vpvs]. *)
Variable voro2mod : layered_model -> nat -> nat -> R * R * R.

(** Voronoi-nucleus representation to (depth, velocity) plot format. *)
Definition v2mod (model : layered_model) (vmin vmax dmin dmax : R)
  : res (list R * list R * list R * list R * list R) :=
  let npt := length model in
  let h_f := map (fun i => (voro2mod model npt i).1.1) (seq 0 npt) in
  let beta_f := map (fun i => (voro2mod model npt i).1.2) (seq 0 npt) in
  let vpvs_f := map (fun i => (voro2mod model npt i).2) (seq 0 npt) in
  let px := zeros (2 * length model) in
  let py := zeros (2 * length model) in
  let r1 := cumsum h_f in
  let r2 := drop_last (cumsum h_f) in
  py ← set_slice 1 2 r1 py;
  py ← set_slice 2 2 r2 py;
  px ← set_slice 0 2 beta_f px;
  px ← set_slice 1 2 beta_f px;
  py ← setitem (-1) dmax py;
  Ok (cumsum h_f, beta_f, vpvs_f, px, py).

End Voronoi.

(** ** Data covariance and its truncated inverse *)

#[global] Instance Rlt_decision : RelDecision Rlt := Rlt_dec.
#[global] Instance Rgt_decision : RelDecision Rgt := fun a b => Rlt_dec b a.

(** The cutoff [0.000001] on singular values. *)
Definition sv_threshold : R := 0.000001.

(** [enumerate(s)] *)
Definition enumerate {A : Type} (l : list A) : list (nat * A) :=
  zip (seq 0 (length l)) l.

(** [[n for n, a in enumerate(s) if a < 0.000001]] *)
Definition indices_below (s : list R) : list nat :=
  map fst (filter (fun na => na.2 < sv_threshold) (enumerate s)).

(** [[n for n, a in enumerate(s) if a > 0.000001]] *)
Definition indices_above (s : list R) : list nat :=
  map fst (filter (fun na => na.2 > sv_threshold) (enumerate s)).

(** The loops that fill [Cd[k1][k2] = exp(-0.5 * (k1 - k2)**2 / sigsq)];
    [k1] and [k2] are Python integers, [sigsq] a Python float. *)
Definition data_cov (sigsq : R) (ndata : nat) : res matrix :=
  rws ← for_each (fun k1 : nat =>
           for_each (fun k2 : nat =>
             q ← py_truediv
                   (-0.5 * IZR ((Z.of_nat k1 - Z.of_nat k2) ^ 2)) sigsq;
             Ok (exp q))
           (seq 0 ndata))
         (seq 0 ndata);
  Ok (Matrix ndata rws).

(** [m[ind, :]] and [m[:, ind]] for a list of integer indices. *)
Definition take_rows (ind : list Z) (m : matrix) : res matrix :=
  rws ← for_each (getitem (rows m)) ind;
  Ok (Matrix (ncols m) rws).

Definition take_cols (ind : list Z) (m : matrix) : res matrix :=
  js ← for_each (py_index (ncols m)) ind;
  Ok (Matrix (length ind) (map (fun r => map (fun j => nth j r 0) js) (rows m))).

(** [m[ind, :][:, ind]] *)
Definition sub_matrix (ind : list Z) (m : matrix) : res matrix :=
  picked ← take_rows ind m;
  take_cols ind picked.

Section Covariance.

(** [np.linalg.svd]: returns [(U, s, Vh)], or raises. *)
Variable svd : matrix -> res (matrix * list R * matrix).

(** [np.dot(V.T[:, :pmax], np.dot(Sinv, U.T[:pmax, :]))] *)
Definition truncated_pinv (U : matrix) (s : list R) (V : matrix) (pmax : nat)
  : res matrix :=
  let Sinv := diag (reciprocals (take pmax s)) in
  inner ← dot_mm Sinv (rows_upto pmax (transpose U));
  dot_mm (cols_upto pmax (transpose V)) inner.

Definition InvDataCov (width Ar : R) (ndata : nat) : res matrix :=
  let sigsq := width ^ 2 in
  let Arsq := Ar * Ar in
  Cd ← data_cov sigsq ndata;
  '(U, s, V) ← svd Cd;
  pmax ← getitem (indices_below s) 0;
  Cdinv ← truncated_pinv U s V pmax;
  Ok (scale_div Cdinv Arsq).

Definition InvDataCovSub (width Ar : R) (ndata : nat) (ind : list Z)
  : res matrix :=
  let sigsq := width ^ 2 in
  let Arsq := Ar * Ar in
  Cd ← data_cov sigsq ndata;
  Cdused ← sub_matrix ind Cd;
  '(U, s, V) ← svd Cdused;
  last ← getitem (indices_above s) (-1);
  let pmax := (last + 1)%nat in
  Cdinv ← truncated_pinv U s V pmax;
  Ok (scale_div Cdinv Arsq).

End Covariance.

(** ** Waveform misfit (the demo script's evaluation)

    [res = RFo - RFp]
    [mref = np.dot(res, np.transpose(np.dot(Cdinv, res))) / 2.0];
    the transpose of a one-dimensional array is the array itself. *)
Definition misfit (RFo RFp : list R) (Cdinv : matrix) : res R :=
  r ← np_sub RFo RFp;
  Cr ← dot_mv Cdinv r;
  q ← dot_vv r Cr;
  Ok (q / 2).

(** ** The forward-solver adapter and time-domain noise *)

(** Values of the noise dictionary. *)
Inductive pyval : Type :=
  | PStr (s : string)
  | PNum (r : R).

(** [d[key]] *)
Definition dict_get (d : gmap string pyval) (key : string) : res pyval :=
  match d !! key with
  | Some v => Ok v
  | None => Raise KeyError
  end.

(** [v == name] for a string literal [name] *)
Definition str_eq (v : pyval) (name : string) : bool :=
  match v with
  | PStr s => String.eqb s name
  | PNum _ => false
  end.

(** A dictionary value used as a number in arithmetic. *)
Definition as_float (v : pyval) : res R :=
  match v with
  | PNum r => Ok r
  | PStr _ => Raise TypeError
  end.

(** The local variable [k] after the [if]/[elif] chain: a closure over
    [amp_sigma] and [corr_time], or unbound ([None]) when no branch was
    taken.  The [periodic] branch calls [periodic] with four arguments
    where the function has five parameters. *)
Definition kernel : Type := R -> R -> res R.

Definition kernel_closure (f : R -> R -> R -> R -> R) (amp_sigma corr_time : pyval)
  : kernel :=
  fun x xp =>
    s1 ← as_float amp_sigma;
    rho ← as_float corr_time;
    Ok (f x xp s1 rho).

Definition bind_kernel (name amp_sigma corr_time : pyval) : option kernel :=
  if str_eq name "sqExp" then Some (kernel_closure sqExp amp_sigma corr_time)
  else if str_eq name "matern0" then Some (kernel_closure matern0 amp_sigma corr_time)
  else if str_eq name "matern1" then Some (kernel_closure matern1 amp_sigma corr_time)
  else if str_eq name "matern2" then Some (kernel_closure matern2 amp_sigma corr_time)
  else if str_eq name "periodic" then Some (fun _ _ => Raise TypeError)
  else None.

(** The call [k(x, xp)]. *)
Definition call_kernel (k : option kernel) (x xp : R) : res R :=
  match k with
  | Some f => f x xp
  | None => Raise UnboundLocalError
  end.

(** The two loops that fill [K[i,j] = k(xx[i], xx[j])]. *)
Definition kernel_matrix (k : option kernel) (xx : list R) : res matrix :=
  rws ← for_each (fun xi => for_each (fun xj => call_kernel k xi xj) xx) xx;
  Ok (Matrix (length xx) rws).

(** Attenuation entry of [qmodels]: a scalar or a per-layer array. *)
Inductive qspec : Type :=
  | QScalar (q : R)
  | QArray (q : list R).

(** [q * np.ones(npt)] if [np.isscalar(q)], else [q] itself. *)
Definition per_layer (q : qspec) (npt : nat) : list R :=
  match q with
  | QScalar r => map (fun o => r * o) (ones npt)
  | QArray l => l
  end.

(** Keyword arguments of [rfcalc]. *)
Record rfcalc_kwargs : Type := Kwargs {
  sn : R;
  mtype : Z;
  fs : R;
  gauss_a : R;
  water_c : R;
  angle : R;
  time_shift : R;
  ndatar : nat;
  v60 : R;
  seed : Z;
  noise : option (gmap string pyval);
  qmodels : list qspec
}.

Definition default_kwargs : rfcalc_kwargs :=
  {| sn := 0; mtype := 0; fs := 25; gauss_a := 2.5; water_c := 0.0001;
     angle := 35; time_shift := 5; ndatar := 626; v60 := 8.043; seed := 1;
     noise := None; qmodels := [QScalar 1450; QScalar 600] |}.

(** What both entry points of the compiled solver receive. *)
Record solver_args : Type := SolverArgs {
  a_model : layered_model;
  a_mtype : Z;
  a_fs : R;
  a_gauss_a : R;
  a_water_c : R;
  a_angle : R;
  a_time_shift : R;
  a_ndatar : nat;
  a_v60 : R;
  a_npt : nat;
  a_qa : list R;
  a_qb : list R
}.

(** The marshalling part of [rfcalc]. *)
Definition solver_arguments (model : layered_model) (kw : rfcalc_kwargs)
  : res solver_args :=
  let npt := length model in
  q0 ← getitem (qmodels kw) 0;
  let qa := per_layer q0 npt in
  q1 ← getitem (qmodels kw) 1;
  let qb := per_layer q1 npt in
  Ok {| a_model := model; a_mtype := mtype kw; a_fs := fs kw;
        a_gauss_a := gauss_a kw; a_water_c := water_c kw;
        a_angle := angle kw; a_time_shift := time_shift kw;
        a_ndatar := ndatar kw; a_v60 := v60 kw; a_npt := npt;
        a_qa := qa; a_qb := qb |}.

(** Locations of one-dimensional arrays in the store. *)
Abbreviation loc := nat (only parsing).

(** What [rfcalc] returns: a pair, or a triple with the noise covariance. *)
Inductive rf_result : Type :=
  | RF_pair (time wdata : loc)
  | RF_triple (time wdata : loc) (Cd : matrix).

Section Adapter.

(** State of numpy's global random generator. *)
Variable RNG : Type.

(** [np.random.multivariate_normal(mean, cov)]: a draw and the next
    generator state, or an exception. *)
Variable multivariate_normal : RNG -> list R -> matrix -> res (list R * RNG).

(** [librf96.rfcalc_nonoise] and [librf96.rfcalc_noise]: the value the
    routine writes at index [i] of the [time] and [wdata] buffers; the
    noisy entry point also gets [sn] and [seed]. *)
Variable rfcalc_nonoise : solver_args -> nat -> R * R.
Variable rfcalc_noise : solver_args -> R -> Z -> nat -> R * R.

Record world : Type := World { heap : list (list R); rng : RNG }.

Definition M (A : Type) : Type := world -> res (A * world).

#[global] Instance M_ret : MRet M := fun A a w => Ok (a, w).
#[global] Instance M_bind : MBind M := fun A B f m w =>
  match m w with
  | Ok (a, w') => f a w'
  | Raise e => Raise e
  end.

Definition lift {A : Type} (r : res A) : M A := fun w =>
  match r with
  | Ok a => Ok (a, w)
  | Raise e => Raise e
  end.

(** A fresh array. *)
Definition alloc (v : list R) : M loc := fun w =>
  Ok (length (heap w), World (heap w ++ [v]) (rng w)).

(** The contents of an array; a location that holds no array is not a
    sized object. *)
Definition load (l : loc) : M (list R) := fun w =>
  match heap w !! l with
  | Some v => Ok (v, w)
  | None => Raise TypeError
  end.

(** Overwrite the contents of an array in place. *)
Definition store (l : loc) (v : list R) : M unit := fun w =>
  Ok (tt, World (<[l := v]> (heap w)) (rng w)).

Definition draw (mean : list R) (cov : matrix) : M (list R) := fun w =>
  match multivariate_normal (rng w) mean cov with
  | Ok (z, g) => Ok (z, World (heap w) g)
  | Raise e => Raise e
  end.

Definition add_time_domain_noise (w t : loc) (noise : gmap string pyval)
  : M (loc * matrix) :=
  amp_sigma ← lift (dict_get noise "amp_sigma");
  corr_time ← lift (dict_get noise "corr_time");
  name ← lift (dict_get noise "kernel");
  let k := bind_kernel name amp_sigma corr_time in
  wv ← load w;
  let nt := length wv in
  tv ← load t;
  t0 ← lift (getitem tv 0);
  tlast ← lift (getitem tv (-1));
  let xx := linspace t0 tlast nt in
  K ← lift (kernel_matrix k xx);
  z ← draw (zeros nt) K;
  wv ← load w;
  wv' ← lift (np_iadd wv z);
  _ ← store w wv';
  mret (w, K).

(** [if sn == 0.0:] the noiseless entry point, [else:] the noisy one. *)
Definition solver_output (kw : rfcalc_kwargs) (args : solver_args)
  : nat -> R * R :=
  if Req_dec_T (sn kw) 0 then rfcalc_nonoise args
  else rfcalc_noise args (sn kw) (seed kw).

(** The solver call: the routine fills the two buffers it was handed. *)
Definition call_solver (kw : rfcalc_kwargs) (args : solver_args)
    (time_f wdata_f : loc) : M unit :=
  let out := solver_output kw args in
  _ ← store time_f (map (fun i => (out i).1) (seq 0 (ndatar kw)));
  store wdata_f (map (fun i => (out i).2) (seq 0 (ndatar kw))).

Definition rfcalc (model : layered_model) (kw : rfcalc_kwargs) : M rf_result :=
  time_f ← alloc (zeros (ndatar kw));
  wdata_f ← alloc (zeros (ndatar kw));
  args ← lift (solver_arguments model kw);
  _ ← call_solver kw args time_f wdata_f;
  match noise kw with
  | Some nz =>
      '(wdata_f, Cd) ← add_time_domain_noise wdata_f time_f nz;
      mret (RF_triple time_f wdata_f Cd)
  | None =>
      mret (RF_pair time_f wdata_f)
  end.

End Adapter.

Arguments World {RNG} heap rng.
Arguments heap {RNG} w.
Arguments rng {RNG} w.

(** ** Reference data and specification-side definitions *)

(** The 13-layer reference model of the demo and test scripts, in
    interface-depth form ([vtype = 2]) and in layer-thickness form
    ([vtype = 1]). *)
Definition velmod_depth : layered_model :=
  [ (20, 3.46, 1.73); (35, 3.85, 1.73); (77.5, 4.485, 1.73);
    (120, 4.495, 1.73); (165, 4.5045, 1.73); (210, 4.5145, 1.73);
    (260, 4.566, 1.73); (310, 4.6525, 1.73); (360, 4.7395, 1.73);
    (410, 4.8265, 1.73); (460, 5.133, 1.73); (510, 5.239, 1.73);
    (510, 5.345, 1.73) ].

Definition velmod_thickness : layered_model :=
  [ (20, 3.46, 1.73); (15, 3.85, 1.73); (42.5, 4.485, 1.73);
    (42.5, 4.495, 1.73); (45, 4.5045, 1.73); (45, 4.5145, 1.73);
    (50, 4.566, 1.73); (50, 4.6525, 1.73); (50, 4.7395, 1.73);
    (50, 4.8265, 1.73); (50, 5.133, 1.73); (50, 5.239, 1.73);
    (0, 5.345, 1.73) ].

(** The staircase that the three converters build from the interface
    depths and the velocities of [n] layers: each velocity twice, each
    depth twice, shifted by one sample, the last depth replaced by [dmax]. *)
Definition step_plot (depths vel : list R) (n : nat) (dmax : R)
  : res (list R * list R) :=
  py ← set_slice 1 2 depths (zeros (2 * n));
  py ← set_slice 2 2 (drop_last depths) py;
  px ← set_slice 0 2 vel (zeros (2 * n));
  px ← set_slice 1 2 vel px;
  py ← setitem (-1) dmax py;
  Ok (px, py).

(** The staircase in closed form: every entry twice ... *)
Definition twice (l : list R) : list R := flat_map (fun c => [c; c]) l.

(** ... the velocities as they are, the depths shifted by one sample
    (the first sample is at depth 0) with [dmax] as last sample. *)
Definition stair_velocities (vel : list R) : list R := twice vel.

Definition stair_depths (depths : list R) (dmax : R) : list R :=
  take (2 * length depths - 1) (0 :: twice depths) ++ [dmax].

(** The quadratic form [r^T C r], written as the double sum. *)
Definition quadratic_form (C : matrix) (r : list R) : R :=
  rsum (map (fun i =>
          rsum (map (fun j => nth i r 0 * entry C i j * nth j r 0)
                    (seq 0 (length r))))
        (seq 0 (length r))).

(** The Gaussian-correlation matrix [Cd[i,j] = exp(-0.5 (i-j)^2 / width^2)]. *)
Definition cov_matrix (width : R) (ndata : nat) : matrix :=
  tabulate ndata ndata (fun k1 k2 =>
    exp (-0.5 * IZR ((Z.of_nat k1 - Z.of_nat k2) ^ 2) / width ^ 2)).

(** The positions, counted from [start], of the entries of [l] that
    satisfy [P]: the list a comprehension over [enumerate(l)] builds. *)
Definition positions_from (P : R -> Prop) `{!forall a, Decision (P a)}
    (start : nat) (l : list R) : list nat :=
  map fst (filter (fun na => P na.2) (zip (seq start (length l)) l)).

(** [p] is the first position of [l] whose entry satisfies [P]. *)
Definition first_at (P : R -> Prop) (l : list R) (p : nat) : Prop :=
  (exists a, l !! p = Some a /\ P a) /\
  (forall i a, (i < p)%nat -> l !! i = Some a -> ~ P a).

(** [q] is the last position of [l] whose entry satisfies [P]. *)
Definition last_at (P : R -> Prop) (l : list R) (q : nat) : Prop :=
  (exists a, l !! q = Some a /\ P a) /\
  (forall i a, (q < i)%nat -> l !! i = Some a -> ~ P a).

(** [p] is the position of the first singular value below the cutoff. *)
Definition first_below (s : list R) (p : nat) : Prop :=
  first_at (fun a => a < sv_threshold) s p.

(** [q] is the position of the last singular value above the cutoff. *)
Definition last_above (s : list R) (q : nat) : Prop :=
  last_at (fun a => a > sv_threshold) s q.

(** The pseudo-inverse rebuilt from the leading [p] singular triplets:
    entry [(i, j)] is the sum over [k < p] of [V[k][i] * (1 / s[k]) * U[j][k]]. *)
Definition pinv_entry (U : matrix) (s : list R) (V : matrix) (p i j : nat) : R :=
  rsum (map (fun k => entry V k i * (1 / nth k s 0) * entry U j k) (seq 0 p)).

(** What [np.linalg.svd] promises for a square [n]-by-[n] input [A]:
    [A = U diag(s) Vh] with orthonormal [U] and [Vh] and non-negative
    singular values. *)
Record is_svd (n : nat) (A U : matrix) (s : list R) (V : matrix) : Prop := {
  svd_U_shape : ncols U = n /\ nrows U = n;
  svd_V_shape : ncols V = n /\ nrows V = n;
  svd_s_shape : length s = n;
  svd_nonneg : Forall (fun a => 0 <= a) s;
  svd_product : forall i j, (i < n)%nat -> (j < n)%nat ->
    entry A i j =
    rsum (map (fun k => entry U i k * nth k s 0 * entry V k j) (seq 0 n));
  svd_U_orth : forall i j, (i < n)%nat -> (j < n)%nat ->
    rsum (map (fun k => entry U k i * entry U k j) (seq 0 n)) =
    if (i =? j)%nat then 1 else 0;
  svd_V_orth : forall i j, (i < n)%nat -> (j < n)%nat ->
    rsum (map (fun k => entry V i k * entry V j k) (seq 0 n)) =
    if (i =? j)%nat then 1 else 0
}.

(** The demo script's noise-free call [rfcalc(velmod, mtype=2)]: every
    other keyword argument keeps its default. *)
Definition demo_kwargs : rfcalc_kwargs :=
  {| sn := 0; mtype := 2; fs := 25; gauss_a := 2.5; water_c := 0.0001;
     angle := 35; time_shift := 5; ndatar := 626; v60 := 8.043; seed := 1;
     noise := None; qmodels := [QScalar 1450; QScalar 600] |}.

(** A two-layer model, and a call on it with two samples and a one-entry
    [qa] array. *)
Definition two_layers : layered_model := [(20, 3.46, 1.73); (0, 3.85, 1.73)].

Definition short_qa_kwargs : rfcalc_kwargs :=
  {| sn := 0; mtype := 1; fs := 25; gauss_a := 2.5; water_c := 0.0001;
     angle := 35; time_shift := 5; ndatar := 2; v60 := 8.043; seed := 1;
     noise := None; qmodels := [QArray [1450]; QScalar 600] |}.

(** A call on the two-layer model with two samples and squared-exponential
    noise in the time domain. *)
Definition noisy_kwargs (nz : gmap string pyval) : rfcalc_kwargs :=
  {| sn := 0; mtype := 1; fs := 25; gauss_a := 2.5; water_c := 0.0001;
     angle := 35; time_shift := 5; ndatar := 2; v60 := 8.043; seed := 1;
     noise := Some nz; qmodels := [QScalar 1450; QScalar 600] |}.

(** Noise dictionaries: a recognised kernel, an unrecognised one, and the
    periodic kernel with a [period] entry. *)
Definition noise_sqExp : gmap string pyval :=
  {[ "kernel"%string := PStr "sqExp"; "amp_sigma"%string := PNum 0.01;
     "corr_time"%string := PNum 2.5 ]}.

Definition noise_boxcar : gmap string pyval :=
  {[ "kernel"%string := PStr "boxcar"; "amp_sigma"%string := PNum 0.01;
     "corr_time"%string := PNum 2.5 ]}.

Definition noise_periodic : gmap string pyval :=
  {[ "kernel"%string := PStr "periodic"; "amp_sigma"%string := PNum 0.01;
     "corr_time"%string := PNum 2.5; "period"%string := PNum 10 ]}.

(** Stand-ins for the external routines, used to run the adapter on sample
    inputs: a generator without state whose draw is all ones, and a solver
    that writes [i / fs] and 0 at index [i]. *)
Definition draw_ones (g : unit) (mean : list R) (cov : matrix)
  : res (list R * unit) :=
  Ok (map (fun _ => 1) mean, g).

Definition flat_solver (args : solver_args) (i : nat) : R * R :=
  (INR i / a_fs args, 0).

Definition flat_noisy_solver (args : solver_args) (sn : R) (seed : Z) (i : nat)
  : R * R :=
  (INR i / a_fs args, 0).

(** The kernels the dispatcher of [add_time_domain_noise] can evaluate. *)
Definition kernel_of_name (name : string) : option (R -> R -> R -> R -> R) :=
  if String.eqb name "sqExp" then Some sqExp
  else if String.eqb name "matern0" then Some matern0
  else if String.eqb name "matern1" then Some matern1
  else if String.eqb name "matern2" then Some matern2
  else None.

(** The covariance matrix [K[i,j] = k(xx[i], xx[j])] of a kernel [k]. *)
Definition gram (k : R -> R -> R) (xx : list R) : matrix :=
  Matrix (length xx) (map (fun xi => map (fun xj => k xi xj) xx) xx).

(** A name that no branch of the dispatcher accepts. *)
Definition unknown_kernel (name : pyval) : Prop :=
  str_eq name "sqExp" = false /\ str_eq name "matern0" = false /\
  str_eq name "matern1" = false /\ str_eq name "matern2" = false /\
  str_eq name "periodic" = false.




(** ** Further sample inputs *)

(** The same call with another [seed]. *)
Definition with_seed (kw : rfcalc_kwargs) (s : Z) : rfcalc_kwargs :=
  {| sn := sn kw; mtype := mtype kw; fs := fs kw; gauss_a := gauss_a kw;
     water_c := water_c kw; angle := angle kw; time_shift := time_shift kw;
     ndatar := ndatar kw; v60 := v60 kw; seed := s; noise := noise kw;
     qmodels := qmodels kw |}.

(** A call whose [qmodels] holds a single entry. *)
Definition one_q_kwargs : rfcalc_kwargs :=
  {| sn := 0; mtype := 1; fs := 25; gauss_a := 2.5; water_c := 0.0001;
     angle := 35; time_shift := 5; ndatar := 2; v60 := 8.043; seed := 1;
     noise := None; qmodels := [QScalar 1450] |}.

(** A call with time-domain noise and no sample. *)
Definition no_sample_kwargs (nz : gmap string pyval) : rfcalc_kwargs :=
  {| sn := 0; mtype := 1; fs := 25; gauss_a := 2.5; water_c := 0.0001;
     angle := 35; time_shift := 5; ndatar := 0; v60 := 8.043; seed := 1;
     noise := Some nz; qmodels := [QScalar 1450; QScalar 600] |}.

(** [range(n)] as a list of indices. *)
Definition all_indices (n : nat) : list Z := map Z.of_nat (seq 0 n).

(** Singular values in descending order, as [np.linalg.svd] returns them. *)
Definition descending (s : list R) : Prop :=
  forall i j a b, (i <= j)%nat -> s !! i = Some a -> s !! j = Some b -> b <= a.

(** A two-sample covariance with a very wide correlation (width 1000):
    its off-diagonal entry, and its singular value decomposition. *)
Definition wide_corr : R := exp (-0.5 * 1 / 1000 ^ 2).
Definition half_sqrt : R := / sqrt 2.
Definition wide_U : matrix :=
  Matrix 2 [[half_sqrt; half_sqrt]; [half_sqrt; - half_sqrt]].
Definition wide_s : list R := [1 + wide_corr; 1 - wide_corr].

(** A depth axis that never goes back up. *)
Fixpoint nondecreasing (l : list R) : Prop :=
  match l with
  | a :: (b :: _) as t => a <= b /\ nondecreasing t
  | _ => True
  end.

(** [np.array([depth, beta, vpvs]).T]: the model whose three columns are
    the arrays that [v2mod] returns. *)
Definition model_of_columns (depth beta vpvs : list R) : layered_model :=
  zip (zip depth beta) vpvs.

(** A Voronoi routine that writes the same layer everywhere. *)
Definition uniform_voro2mod (model : layered_model) (npt i : nat) : R * R * R :=
  (10, 3.5, 1.73).

(** The noise dictionary as the docstring of [rfcalc] asks for it, naming
    the periodic kernel: the three keys and nothing else. *)
Definition noise_periodic_bare : gmap string pyval :=
  {[ "kernel"%string := PStr "periodic"; "amp_sigma"%string := PNum 0.01;
     "corr_time"%string := PNum 2.5 ]}.
(** ** Noise kernels: symmetry and zero lag *)

Lemma Rabs_zero_lag (x : R) : Rabs (x - x) = 0.
Proof. rewrite Rminus_diag. apply Rabs_R0. Qed.

Lemma sqExp_sym x xp s1 rho : sqExp x xp s1 rho = sqExp xp x s1 rho.
Proof. unfold sqExp. do 2 f_equal. f_equal. ring. Qed.

Lemma matern0_sym x xp s1 rho : matern0 x xp s1 rho = matern0 xp x s1 rho.
Proof. unfold matern0. now rewrite (Rabs_minus_sym x xp). Qed.

Lemma matern1_sym x xp s1 rho : matern1 x xp s1 rho = matern1 xp x s1 rho.
Proof. unfold matern1. now rewrite (Rabs_minus_sym x xp). Qed.

Lemma matern2_sym x xp s1 rho : matern2 x xp s1 rho = matern2 xp x s1 rho.
Proof.
  unfold matern2. rewrite (Rabs_minus_sym x xp).
  replace ((x - xp) ^ 2) with ((xp - x) ^ 2) by ring. reflexivity.
Qed.

Lemma periodic_sym x xp s1 rho period :
  periodic x xp s1 rho period = periodic xp x s1 rho period.
Proof. unfold periodic. now rewrite (Rabs_minus_sym x xp). Qed.

Lemma sqExp_zero_lag x s1 rho : rho <> 0 -> sqExp x x s1 rho = s1 ^ 2.
Proof.
  intros Hrho. unfold sqExp.
  replace ((- ((x - x) ^ 2)) / (2 * rho ^ 2)) with 0.
  - rewrite exp_0. ring.
  - field. exact Hrho.
Qed.

Lemma matern0_zero_lag x s1 rho : rho <> 0 -> matern0 x x s1 rho = s1 ^ 2.
Proof.
  intros Hrho. unfold matern0. rewrite Rabs_zero_lag.
  replace (- 0 / rho) with 0 by (field; exact Hrho).
  rewrite exp_0. ring.
Qed.

Lemma matern1_zero_lag x s1 rho : rho <> 0 -> matern1 x x s1 rho = s1 ^ 2.
Proof.
  intros Hrho. unfold matern1. rewrite Rabs_zero_lag.
  replace (- sqrt 3 * 0 / rho) with 0 by (field; exact Hrho).
  replace (sqrt 3 * 0 / rho) with 0 by (field; exact Hrho).
  rewrite exp_0. ring.
Qed.

Lemma matern2_zero_lag x s1 rho : rho <> 0 -> matern2 x x s1 rho = s1 ^ 2.
Proof.
  intros Hrho. unfold matern2. rewrite Rabs_zero_lag.
  replace (- sqrt 5 * 0 / rho) with 0 by (field; exact Hrho).
  replace (sqrt 5 * 0 / rho) with 0 by (field; exact Hrho).
  replace (5 * (x - x) ^ 2 / (3 * rho ^ 2)) with 0 by (field; exact Hrho).
  rewrite exp_0. ring.
Qed.

Lemma periodic_zero_lag x s1 rho period :
  rho <> 0 -> period <> 0 -> periodic x x s1 rho period = s1 ^ 2.
Proof.
  intros Hrho Hper. unfold periodic. rewrite Rabs_zero_lag.
  replace (0 * PI / period) with 0 by (field; exact Hper).
  rewrite sin_0.
  replace (- (2 * 0 ^ 2) / rho ^ 2) with 0 by (field; exact Hrho).
  rewrite exp_0. ring.
Qed.

(** C4. Each of the five noise kernels is symmetric in its two points,
    and at zero lag each evaluates to the variance [amp_sigma ^ 2], for
    every point and every non-zero correlation time and period. *)
Theorem kernels_symmetric_and_variance_at_zero_lag
    (x xp amp_sigma corr_time period : R) :
  corr_time <> 0 -> period <> 0 ->
  (sqExp x xp amp_sigma corr_time = sqExp xp x amp_sigma corr_time /\
   matern0 x xp amp_sigma corr_time = matern0 xp x amp_sigma corr_time /\
   matern1 x xp amp_sigma corr_time = matern1 xp x amp_sigma corr_time /\
   matern2 x xp amp_sigma corr_time = matern2 xp x amp_sigma corr_time /\
   periodic x xp amp_sigma corr_time period =
     periodic xp x amp_sigma corr_time period) /\
  (sqExp x x amp_sigma corr_time = amp_sigma ^ 2 /\
   matern0 x x amp_sigma corr_time = amp_sigma ^ 2 /\
   matern1 x x amp_sigma corr_time = amp_sigma ^ 2 /\
   matern2 x x amp_sigma corr_time = amp_sigma ^ 2 /\
   periodic x x amp_sigma corr_time period = amp_sigma ^ 2).
Proof.
  intros Hrho Hper. split.
  - repeat split;
      auto using sqExp_sym, matern0_sym, matern1_sym, matern2_sym, periodic_sym.
  - repeat split;
      auto using sqExp_zero_lag, matern0_zero_lag, matern1_zero_lag,
                 matern2_zero_lag, periodic_zero_lag.
Qed.

Lemma kernels_symmetric_and_variance_at_zero_lag_witness :
  (2.5 : R) <> 0 /\ (10 : R) <> 0 /\
  sqExp 0 1 0.01 2.5 = sqExp 1 0 0.01 2.5 /\
  periodic 3 3 0.01 2.5 10 = 0.01 ^ 2.
Proof.
  assert (H1 : (2.5 : R) <> 0) by lra.
  assert (H2 : (10 : R) <> 0) by lra.
  pose proof (kernels_symmetric_and_variance_at_zero_lag 0 1 0.01 2.5 10 H1 H2)
    as [[Hs _] _].
  pose proof (kernels_symmetric_and_variance_at_zero_lag 3 3 0.01 2.5 10 H1 H2)
    as [_ (_ & _ & _ & _ & Hp)].
  repeat split; assumption.
Defined.

(** ** Misfit *)

Lemma rsum_scale (c : R) (f : nat -> R) (l : list nat) :
  c * rsum (map f l) = rsum (map (fun k => c * f k) l).
Proof.
  induction l as [|k l IH]; simpl.
  - ring.
  - rewrite <- IH. ring.
Qed.

Lemma rsum_ext (f g : nat -> R) (l : list nat) :
  (forall k, f k = g k) -> rsum (map f l) = rsum (map g l).
Proof.
  intros Hfg. induction l as [|k l IH]; simpl; [reflexivity|].
  now rewrite Hfg, IH.
Qed.

Lemma rsum_zip_seq (r : list R) (f : nat -> R) :
  rsum (zip_with Rmult r (map f (seq 0 (length r)))) =
  rsum (map (fun i => nth i r 0 * f i) (seq 0 (length r))).
Proof.
  revert f. induction r as [|a r IH]; intros f; [reflexivity|].
  cbn [length seq map zip_with rsum foldr nth].
  rewrite <- seq_shift, !map_map.
  fold (rsum (zip_with Rmult r (map (fun x => f (S x)) (seq 0 (length r))))).
  fold (rsum (map (fun x => nth (S x) (a :: r) 0 * f (S x)) (seq 0 (length r)))).
  rewrite IH. f_equal.
Qed.

Lemma rsum_zip_seq_len (r : list R) (f : nat -> R) (n : nat) :
  length r = n ->
  rsum (zip_with Rmult r (map f (seq 0 n))) =
  rsum (map (fun i => nth i r 0 * f i) (seq 0 n)).
Proof. intros <-. apply rsum_zip_seq. Qed.

Lemma rsum_zip_zeros (n : nat) (v : list R) :
  rsum (zip_with Rmult (zeros n) v) = 0.
Proof.
  revert v. induction n as [|n IH]; intros [|b v]; simpl; try reflexivity.
  unfold zeros in IH. unfold rsum in IH. rewrite IH. ring.
Qed.

Lemma zip_with_minus_self (x : list R) :
  zip_with Rminus x x = zeros (length x).
Proof.
  induction x as [|a x IH]; [reflexivity|].
  cbn. unfold zeros in IH. rewrite IH. f_equal. ring.
Qed.

Lemma misfit_same_shape (RFo RFp : list R) (Cdinv : matrix) :
  length RFo = length RFp ->
  ncols Cdinv = length RFo -> nrows Cdinv = length RFo ->
  misfit RFo RFp Cdinv =
  Ok (rsum (zip_with Rmult (zip_with Rminus RFo RFp)
        (map (fun i => rsum (map (fun k => entry Cdinv i k
                                           * nth k (zip_with Rminus RFo RFp) 0)
                                 (seq 0 (length RFo))))
             (seq 0 (length RFo)))) / 2).
Proof.
  intros Hlen Hc Hr. unfold misfit, np_sub.
  apply Nat.eqb_eq in Hlen as Heq. rewrite Heq. cbn [mbind res_bind].
  assert (Hz : length (zip_with Rminus RFo RFp) = length RFo).
  { rewrite length_zip_with. lia. }
  unfold dot_mv. rewrite Hz, Hc, Nat.eqb_refl, Hr. cbn [mbind res_bind].
  unfold dot_vv. rewrite length_map, length_seq, Hz, Nat.eqb_refl.
  reflexivity.
Qed.

(** C3. For waveforms of equal length [n] and an [n]-by-[n] inverse
    covariance, the misfit evaluation returns [0.5 * r^T Cdinv r] with
    [r = observed - predicted]; the misfit of a waveform against itself
    is exactly 0. *)
Theorem misfit_is_half_quadratic_form
    (observed predicted : list R) (Cdinv : matrix) :
  length observed = length predicted ->
  ncols Cdinv = length observed -> nrows Cdinv = length observed ->
  misfit observed predicted Cdinv =
    Ok (0.5 * quadratic_form Cdinv (zip_with Rminus observed predicted)) /\
  misfit observed observed Cdinv = Ok 0.
Proof.
  intros Hlen Hc Hr. split.
  - rewrite misfit_same_shape by assumption. f_equal.
    assert (Hz : length (zip_with Rminus observed predicted) = length observed).
    { rewrite length_zip_with. lia. }
    unfold quadratic_form. rewrite Hz.
    set (r := zip_with Rminus observed predicted) in *.
    rewrite (rsum_zip_seq_len r _ _ Hz).
    replace (rsum (map (fun i => nth i r 0
               * rsum (map (fun k => entry Cdinv i k * nth k r 0)
                           (seq 0 (length observed))))
             (seq 0 (length observed))))
      with (rsum (map (fun i => rsum (map (fun j =>
                      nth i r 0 * entry Cdinv i j * nth j r 0)
                    (seq 0 (length observed))))
             (seq 0 (length observed)))).
    + lra.
    + apply rsum_ext. intros i. rewrite rsum_scale.
      apply rsum_ext. intros k. ring.
  - rewrite misfit_same_shape by (assumption || reflexivity).
    rewrite zip_with_minus_self, rsum_zip_zeros. f_equal. lra.
Qed.

Lemma misfit_is_half_quadratic_form_witness :
  length [1; 3] = length [0; 1] /\
  ncols (Matrix 2 [[2; 0]; [0; 1]]) = length [1; 3] /\
  nrows (Matrix 2 [[2; 0]; [0; 1]]) = length [1; 3] /\
  misfit [1; 3] [0; 1] (Matrix 2 [[2; 0]; [0; 1]]) =
    Ok (0.5 * quadratic_form (Matrix 2 [[2; 0]; [0; 1]])
                (zip_with Rminus [1; 3] [0; 1])) /\
  misfit [1; 3] [1; 3] (Matrix 2 [[2; 0]; [0; 1]]) = Ok 0.
Proof.
  split; [reflexivity|]. split; [reflexivity|]. split; [reflexivity|].
  apply (misfit_is_half_quadratic_form [1; 3] [0; 1] (Matrix 2 [[2; 0]; [0; 1]]));
    reflexivity.
Defined.

(** ** Model conversions *)

Lemma length_cumsum_from (acc : R) (l : list R) :
  length (cumsum_from acc l) = length l.
Proof. revert acc. induction l as [|x l IH]; intros acc; simpl; auto. Qed.

Lemma length_cumsum (l : list R) : length (cumsum l) = length l.
Proof. apply length_cumsum_from. Qed.

Lemma length_drop_last {A : Type} (l : list A) :
  length (drop_last l) = (length l - 1)%nat.
Proof. unfold drop_last. rewrite length_take. lia. Qed.

Lemma length_column0 (m : layered_model) : length (column0 m) = length m.
Proof. apply length_map. Qed.

Lemma length_column1 (m : layered_model) : length (column1 m) = length m.
Proof. apply length_map. Qed.

Lemma length_zeros (n : nat) : length (zeros n) = n.
Proof. apply length_replicate. Qed.

Lemma slice_len_odd (L : nat) : slice_len 1 2 (2 * L) = L.
Proof.
  unfold slice_len. destruct (Nat.ltb_spec 1 (2 * L)); [|lia].
  replace (2 * L - 1 + 2 - 1)%nat with (L * 2)%nat by lia.
  apply Nat.div_mul. lia.
Qed.

Lemma slice_len_even (L : nat) : slice_len 0 2 (2 * L) = L.
Proof.
  unfold slice_len. destruct (Nat.ltb_spec 0 (2 * L)); [|lia].
  replace (2 * L - 0 + 2 - 1)%nat with (1 + L * 2)%nat by lia.
  rewrite Nat.div_add by lia. reflexivity.
Qed.

Lemma slice_len_from_two (L : nat) : slice_len 2 2 (2 * L) = (L - 1)%nat.
Proof.
  unfold slice_len. destruct (Nat.ltb_spec 2 (2 * L)); [|lia].
  replace (2 * L - 2 + 2 - 1)%nat with (1 + (L - 1) * 2)%nat by lia.
  rewrite Nat.div_add by lia. reflexivity.
Qed.

Lemma length_slice_positions (start step len : nat) :
  length (slice_positions start step len) = slice_len start step len.
Proof. unfold slice_positions. now rewrite length_map, length_seq. Qed.

Lemma length_store_at (pos : list nat) (vals arr : list R) :
  length (store_at pos vals arr) = length arr.
Proof.
  revert vals arr. induction pos as [|p pos IH]; intros [|v vals] arr;
    simpl; try reflexivity.
  rewrite IH. apply length_insert.
Qed.

Lemma set_slice_fits (start step : nat) (vals arr : list R) :
  length vals = slice_len start step (length arr) ->
  set_slice start step vals arr =
  Ok (store_at (slice_positions start step (length arr)) vals arr).
Proof.
  intros H. unfold set_slice.
  rewrite length_slice_positions, H, Nat.eqb_refl. reflexivity.
Qed.

Lemma l2mod_step_plot (m : layered_model) (vmin vmax dmin dmax : R) :
  l2mod m vmin vmax dmin dmax =
  step_plot (cumsum (column0 m)) (column1 m) (length m) dmax.
Proof. reflexivity. Qed.

Lemma d2mod_step_plot (m : layered_model) (vmin vmax dmin dmax : R) :
  d2mod m vmin vmax dmin dmax =
  step_plot (column0 m) (column1 m) (length m) dmax.
Proof. reflexivity. Qed.

(** *** The staircase in closed form *)

Lemma lookup_store_at_notin (pos : list nat) (vals arr : list R) (i : nat) :
  i ∉ pos -> store_at pos vals arr !! i = arr !! i.
Proof.
  revert vals arr. induction pos as [|p pos IH]; intros [|v vals] arr Hi;
    cbn [store_at]; try reflexivity.
  apply not_elem_of_cons in Hi as [Hne Hi].
  rewrite IH by exact Hi. now apply list_lookup_insert_ne.
Qed.

Lemma lookup_store_at_in (pos : list nat) (vals arr : list R)
    (k p : nat) (v : R) :
  NoDup pos -> pos !! k = Some p -> vals !! k = Some v ->
  (p < length arr)%nat ->
  store_at pos vals arr !! p = Some v.
Proof.
  revert vals arr k. induction pos as [|p0 pos IH];
    intros [|v0 vals] arr k Hnd Hp Hv Hlt; try discriminate.
  apply NoDup_cons in Hnd as [Hnotin Hnd]. cbn [store_at].
  destruct k as [|k].
  - injection Hp as ->. injection Hv as ->.
    rewrite lookup_store_at_notin by exact Hnotin.
    now apply list_lookup_insert_eq.
  - apply (IH vals _ k Hnd Hp Hv). now rewrite length_insert.
Qed.

Lemma slice_positions_two (start len n : nat) :
  slice_len start 2 len = n ->
  slice_positions start 2 len = map (fun k => (start + k * 2)%nat) (seq 0 n).
Proof. intros <-. reflexivity. Qed.

Lemma NoDup_progression (start n : nat) :
  NoDup (map (fun k => (start + k * 2)%nat) (seq 0 n)).
Proof.
  apply NoDup_fmap_2; [|apply NoDup_seq]. intros a b Hab. lia.
Qed.

Lemma lookup_progression (start n k : nat) :
  (k < n)%nat ->
  map (fun k => (start + k * 2)%nat) (seq 0 n) !! k = Some (start + k * 2)%nat.
Proof. intros Hk. now rewrite list_lookup_fmap, lookup_seq_lt. Qed.

Lemma elem_of_progression (start n i : nat) :
  i ∈ map (fun k => (start + k * 2)%nat) (seq 0 n) ->
  exists k, (k < n)%nat /\ i = (start + k * 2)%nat.
Proof.
  intros H. apply list_elem_of_fmap in H as (k & -> & Hk).
  apply elem_of_seq in Hk. exists k. split; [lia|reflexivity].
Qed.

Lemma lookup_cons_succ (x : R) (l : list R) (i : nat) :
  (x :: l) !! S i = l !! i.
Proof. reflexivity. Qed.

Lemma lookup_twice (l : list R) (k : nat) :
  twice l !! (2 * k)%nat = l !! k /\ twice l !! (2 * k + 1)%nat = l !! k.
Proof.
  revert k. induction l as [|a l IH]; intros k.
  - split; reflexivity.
  - destruct k as [|k]; [split; reflexivity|].
    replace (2 * S k)%nat with (S (S (2 * k))) by lia.
    replace (S (S (2 * k)) + 1)%nat with (S (S (2 * k + 1))) by lia.
    cbn. apply IH.
Qed.

Lemma length_twice (l : list R) : length (twice l) = (2 * length l)%nat.
Proof.
  unfold twice. induction l as [|a l IH]; cbn; [reflexivity|].
  rewrite IH. lia.
Qed.

Lemma even_or_odd (i : nat) : exists k, i = (2 * k)%nat \/ i = (2 * k + 1)%nat.
Proof.
  induction i as [|i [k [->| ->]]].
  - exists 0%nat. now left.
  - exists k. right. lia.
  - exists (S k). left. lia.
Qed.

(** The velocity half of the plot. *)
Lemma stair_velocities_stored (vel : list R) (n : nat) :
  length vel = n ->
  store_at (slice_positions 1 2 (2 * n)) vel
    (store_at (slice_positions 0 2 (2 * n)) vel (zeros (2 * n)))
  = stair_velocities vel.
Proof.
  intros Hv.
  rewrite (slice_positions_two 1 _ n) by apply slice_len_odd.
  rewrite (slice_positions_two 0 _ n) by apply slice_len_even.
  apply list_eq. intros i.
  destruct (decide (i < 2 * n)%nat) as [Hi|Hi].
  2:{ rewrite !lookup_ge_None_2; [reflexivity| |].
      - unfold stair_velocities. rewrite length_twice. lia.
      - rewrite !length_store_at, length_zeros. lia. }
  destruct (even_or_odd i) as [k [->| ->]].
  - destruct (lookup_lt_is_Some_2 vel k) as [v Hk]; [lia|].
    rewrite lookup_store_at_notin.
    2:{ intros Hin. apply elem_of_progression in Hin as (j & _ & Hj). lia. }
    unfold stair_velocities. rewrite (proj1 (lookup_twice vel k)), Hk.
    replace (2 * k)%nat with (0 + k * 2)%nat by lia.
    apply (lookup_store_at_in _ _ _ k); try assumption.
    + apply NoDup_progression.
    + apply lookup_progression. lia.
    + rewrite length_zeros. lia.
  - destruct (lookup_lt_is_Some_2 vel k) as [v Hk]; [lia|].
    unfold stair_velocities. rewrite (proj2 (lookup_twice vel k)), Hk.
    replace (2 * k + 1)%nat with (1 + k * 2)%nat by lia.
    apply (lookup_store_at_in _ _ _ k); try assumption.
    + apply NoDup_progression.
    + apply lookup_progression. lia.
    + rewrite length_store_at, length_zeros. lia.
Qed.

(** The depth half of the plot. *)
Lemma stair_depths_stored (depths : list R) (n : nat) (dmax : R) :
  length depths = n -> (0 < n)%nat ->
  <[(2 * n - 1)%nat := dmax]>
    (store_at (slice_positions 2 2 (2 * n)) (drop_last depths)
       (store_at (slice_positions 1 2 (2 * n)) depths (zeros (2 * n))))
  = stair_depths depths dmax.
Proof.
  intros Hd Hn.
  rewrite (slice_positions_two 2 _ (n - 1)) by apply slice_len_from_two.
  rewrite (slice_positions_two 1 _ n) by apply slice_len_odd.
  assert (Hdl : length (drop_last depths) = (n - 1)%nat)
    by (rewrite length_drop_last; lia).
  assert (Htake : length (take (2 * n - 1) (0 :: twice depths))
                  = (2 * n - 1)%nat).
  { rewrite length_take. cbn [length]. rewrite length_twice. lia. }
  unfold stair_depths. rewrite Hd.
  apply list_eq. intros i.
  destruct (decide (i < 2 * n)%nat) as [Hi|Hi].
  2:{ rewrite !lookup_ge_None_2; [reflexivity| |].
      - rewrite length_app, Htake. cbn. lia.
      - rewrite length_insert, !length_store_at, length_zeros. lia. }
  destruct (decide (i = 2 * n - 1)%nat) as [->|Hlast].
  { rewrite list_lookup_insert_eq
      by (rewrite !length_store_at, length_zeros; lia).
    rewrite lookup_app_r by lia. rewrite Htake, Nat.sub_diag. reflexivity. }
  rewrite list_lookup_insert_ne by lia.
  rewrite lookup_app_l by lia. rewrite lookup_take_lt by lia.
  destruct (even_or_odd i) as [k [->| ->]].
  - destruct k as [|k].
    + rewrite !lookup_store_at_notin.
      * cbn. destruct n; [lia|reflexivity].
      * intros Hin. apply elem_of_progression in Hin as (j & _ & Hj). lia.
      * intros Hin. apply elem_of_progression in Hin as (j & _ & Hj). lia.
    + destruct (lookup_lt_is_Some_2 depths k) as [v Hk]; [lia|].
      replace (2 * S k)%nat with (S (2 * k + 1)) by lia.
      rewrite lookup_cons_succ.
      rewrite (proj2 (lookup_twice depths k)), Hk.
      replace (S (2 * k + 1)) with (2 + k * 2)%nat by lia.
      apply (lookup_store_at_in _ _ _ k).
      * apply NoDup_progression.
      * apply lookup_progression. lia.
      * unfold drop_last. rewrite lookup_take_lt by lia. exact Hk.
      * rewrite length_store_at, length_zeros. lia.
  - destruct (lookup_lt_is_Some_2 depths k) as [v Hk]; [lia|].
    rewrite lookup_store_at_notin.
    2:{ intros Hin. apply elem_of_progression in Hin as (j & _ & Hj). lia. }
    replace (2 * k + 1)%nat with (S (2 * k)) by lia.
    rewrite lookup_cons_succ.
    rewrite (proj1 (lookup_twice depths k)), Hk.
    replace (S (2 * k)) with (1 + k * 2)%nat by lia.
    apply (lookup_store_at_in _ _ _ k); try assumption.
    + apply NoDup_progression.
    + apply lookup_progression. lia.
    + rewrite length_zeros. lia.
Qed.

(** With as many depths and velocities as layers, and at least one layer,
    the converters return the staircase. *)
Lemma step_plot_closed_form (depths vel : list R) (n : nat) (dmax : R) :
  length depths = n -> length vel = n -> (0 < n)%nat ->
  step_plot depths vel n dmax
  = Ok (stair_velocities vel, stair_depths depths dmax).
Proof.
  intros Hd Hv Hn. unfold step_plot.
  rewrite (set_slice_fits 1 2 depths)
    by (rewrite length_zeros, slice_len_odd; exact Hd).
  cbn [mbind res_bind].
  rewrite (set_slice_fits 2 2 (drop_last depths))
    by (rewrite length_store_at, length_zeros, slice_len_from_two,
          length_drop_last, Hd; reflexivity).
  cbn [mbind res_bind].
  rewrite (set_slice_fits 0 2 vel)
    by (rewrite length_zeros, slice_len_even; exact Hv).
  cbn [mbind res_bind].
  rewrite (set_slice_fits 1 2 vel)
    by (rewrite length_store_at, length_zeros, slice_len_odd; exact Hv).
  cbn [mbind res_bind].
  unfold setitem, py_index.
  rewrite !length_store_at, !length_zeros.
  destruct (Z.leb_spec 0 (-1)); [lia|].
  destruct (Z.leb_spec (- Z.of_nat (2 * n)) (-1)); [|lia].
  cbn [mbind res_bind].
  replace (Z.to_nat (Z.of_nat (2 * n) + -1)) with (2 * n - 1)%nat by lia.
  rewrite (stair_velocities_stored vel n Hv).
  rewrite (stair_depths_stored depths n dmax Hd Hn). reflexivity.
Qed.

Lemma v2mod_step_plot (voro2mod : layered_model -> nat -> nat -> R * R * R)
    (vor : layered_model) (vmin vmax dmin dmax : R) :
  let npt := length vor in
  let h_f := map (fun i => (voro2mod vor npt i).1.1) (seq 0 npt) in
  let beta_f := map (fun i => (voro2mod vor npt i).1.2) (seq 0 npt) in
  let vpvs_f := map (fun i => (voro2mod vor npt i).2) (seq 0 npt) in
  v2mod voro2mod vor vmin vmax dmin dmax =
  match step_plot (cumsum h_f) beta_f npt dmax with
  | Ok (px, py) => Ok (cumsum h_f, beta_f, vpvs_f, px, py)
  | Raise e => Raise e
  end.
Proof.
  intros npt h_f beta_f vpvs_f. unfold v2mod, step_plot.
  fold npt. fold h_f. fold beta_f. fold vpvs_f.
  destruct (set_slice 1 2 (cumsum h_f) (zeros (2 * npt))) as [py1|e];
    cbn [mbind res_bind]; [|reflexivity].
  destruct (set_slice 2 2 (drop_last (cumsum h_f)) py1) as [py2|e];
    cbn [mbind res_bind]; [|reflexivity].
  destruct (set_slice 0 2 beta_f (zeros (2 * npt))) as [px1|e];
    cbn [mbind res_bind]; [|reflexivity].
  destruct (set_slice 1 2 beta_f px1) as [px2|e];
    cbn [mbind res_bind]; [|reflexivity].
  destruct (setitem (-1) dmax py2) as [py3|e];
    cbn [mbind res_bind]; reflexivity.
Qed.

(** C5. A layer-thickness model and the interface-depth model whose depth
    column is the cumulative sum of the thickness column, with the same
    velocity column, are converted alike: [l2mod] and [d2mod] give the same
    outcome; with at least one layer both return the staircase over the
    same cumulative depths and velocities; and when the Voronoi layering
    routine yields that thickness and velocity column, [v2mod] returns the
    same cumulative depths and the same plot pair. *)
Theorem conversions_of_same_column_agree
    (thick depth : layered_model) (vmin vmax dmin dmax : R) :
  column0 depth = cumsum (column0 thick) ->
  column1 depth = column1 thick ->
  l2mod thick vmin vmax dmin dmax = d2mod depth vmin vmax dmin dmax /\
  (thick <> [] ->
   l2mod thick vmin vmax dmin dmax
     = Ok (stair_velocities (column1 thick),
           stair_depths (cumsum (column0 thick)) dmax) /\
   d2mod depth vmin vmax dmin dmax
     = Ok (stair_velocities (column1 depth),
           stair_depths (column0 depth) dmax)) /\
  (forall (voro2mod : layered_model -> nat -> nat -> R * R * R)
          (vor : layered_model),
     length vor = length thick ->
     map (fun i => (voro2mod vor (length vor) i).1.1) (seq 0 (length vor))
       = column0 thick ->
     map (fun i => (voro2mod vor (length vor) i).1.2) (seq 0 (length vor))
       = column1 thick ->
     v2mod voro2mod vor vmin vmax dmin dmax =
     match l2mod thick vmin vmax dmin dmax with
     | Ok (px, py) =>
         Ok (column0 depth, column1 depth,
             map (fun i => (voro2mod vor (length vor) i).2)
                 (seq 0 (length vor)),
             px, py)
     | Raise e => Raise e
     end).
Proof.
  intros H0 H1.
  assert (Hlen : length depth = length thick).
  { rewrite <- (length_column0 depth), H0, length_cumsum.
    apply length_column0. }
  assert (Heq : l2mod thick vmin vmax dmin dmax
                = d2mod depth vmin vmax dmin dmax).
  { rewrite l2mod_step_plot, d2mod_step_plot, H0, H1, Hlen. reflexivity. }
  split; [exact Heq|]. split.
  - intros Hne.
    assert (Hl : l2mod thick vmin vmax dmin dmax
                 = Ok (stair_velocities (column1 thick),
                       stair_depths (cumsum (column0 thick)) dmax)).
    { rewrite l2mod_step_plot. apply step_plot_closed_form.
      - rewrite length_cumsum. apply length_column0.
      - apply length_column1.
      - destruct thick; [congruence|simpl; lia]. }
    split; [exact Hl|]. now rewrite <- Heq, H0, H1.
  - intros voro2mod vor Hvl Hh Hb.
    rewrite v2mod_step_plot, Hh, Hb, Hvl, l2mod_step_plot, H0, H1.
    reflexivity.
Qed.

Lemma velmod_depth_is_cumsum :
  column0 velmod_depth = cumsum (column0 velmod_thickness).
Proof.
  unfold velmod_depth, velmod_thickness, cumsum. cbn.
  repeat (f_equal; try lra).
Qed.

Lemma conversions_of_same_column_agree_witness :
  column0 velmod_depth = cumsum (column0 velmod_thickness) /\
  column1 velmod_depth = column1 velmod_thickness /\
  l2mod velmod_thickness default_vmin default_vmax default_dmin default_dmax
  = d2mod velmod_depth default_vmin default_vmax default_dmin default_dmax.
Proof.
  split; [exact velmod_depth_is_cumsum|]. split; [reflexivity|].
  apply (conversions_of_same_column_agree velmod_thickness velmod_depth
           default_vmin default_vmax default_dmin default_dmax
           velmod_depth_is_cumsum eq_refl).
Defined.

(** ** Positions selected by a comprehension over [enumerate] *)

Section Positions.

Variable P : R -> Prop.
Context {P_dec : forall a, Decision (P a)}.

Lemma positions_from_cons (start : nat) (a : R) (l : list R) :
  positions_from P start (a :: l) =
  if decide (P a) then start :: positions_from P (S start) l
  else positions_from P (S start) l.
Proof.
  unfold positions_from. cbn [length seq zip zip_with].
  rewrite filter_cons. cbn [snd]. destruct (decide (P a)); reflexivity.
Qed.

Lemma positions_from_none (start : nat) (l : list R) :
  Forall (fun a => ~ P a) l -> positions_from P start l = [].
Proof.
  intros H. revert start. induction H as [|a l Ha _ IH]; intros start.
  - reflexivity.
  - rewrite positions_from_cons. destruct (decide (P a)); [tauto|apply IH].
Qed.

Lemma positions_from_some (start : nat) (l : list R) (p : nat) :
  p ∈ positions_from P start l ->
  exists a, (start <= p)%nat /\ l !! (p - start)%nat = Some a /\ P a.
Proof.
  revert start. induction l as [|a l IH]; intros start.
  - unfold positions_from. cbn. intros H. inversion H.
  - rewrite positions_from_cons. intros H.
    assert (Hcase : (p = start /\ P a) \/ p ∈ positions_from P (S start) l).
    { destruct (decide (P a)); [|now right].
      apply elem_of_cons in H as [->|H]; [left|right]; auto. }
    destruct Hcase as [[-> Ha]|Hin].
    + exists a. rewrite Nat.sub_diag. auto.
    + destruct (IH _ Hin) as (b & Hle & Hb & HP). exists b.
      replace (p - start)%nat with (S (p - S start)) by lia.
      split; [lia|]. split; assumption.
Qed.

Lemma head_positions_from (start : nat) (l : list R) (p : nat) :
  first_at P l p -> head (positions_from P start l) = Some (start + p)%nat.
Proof.
  revert start p. induction l as [|a l IH]; intros start p [[b [Hb HP]] Hfirst].
  - discriminate.
  - rewrite positions_from_cons. destruct p as [|p].
    + injection Hb as ->. destruct (decide (P b)); [|tauto].
      cbn. f_equal. lia.
    + destruct (decide (P a)) as [Ha|_].
      * exfalso. apply (Hfirst 0%nat a); [lia|reflexivity|exact Ha].
      * rewrite (IH (S start) p).
        -- f_equal. lia.
        -- split; [exists b; auto|].
           intros i c Hi Hc. apply (Hfirst (S i) c); [lia|exact Hc].
Qed.

Lemma last_positions_from (start : nat) (l : list R) (q : nat) :
  last_at P l q -> last (positions_from P start l) = Some (start + q)%nat.
Proof.
  revert start q. induction l as [|a l IH]; intros start q [[b [Hb HP]] Hlast].
  - discriminate.
  - rewrite positions_from_cons. destruct q as [|q].
    + injection Hb as ->. destruct (decide (P b)); [|tauto].
      rewrite positions_from_none.
      * cbn. f_equal. lia.
      * apply Forall_lookup. intros i c Hc.
        apply (Hlast (S i) c); [lia|exact Hc].
    + assert (Hrest : last (positions_from P (S start) l)
                      = Some (S start + q)%nat).
      { apply IH. split; [exists b; auto|].
        intros i c Hi Hc. apply (Hlast (S i) c); [lia|exact Hc]. }
      replace (start + S q)%nat with (S start + q)%nat by lia.
      destruct (decide (P a)); [|exact Hrest].
      destruct (positions_from P (S start) l) as [|x xs]; [discriminate|].
      exact Hrest.
Qed.

End Positions.

Lemma getitem_first {A : Type} (l : list A) :
  getitem l 0 = match head l with Some x => Ok x | None => Raise IndexError end.
Proof. destruct l; reflexivity. Qed.

Lemma getitem_last {A : Type} (l : list A) :
  getitem l (-1) = match last l with Some x => Ok x | None => Raise IndexError end.
Proof.
  unfold getitem, py_index. rewrite last_lookup.
  destruct (Z.leb_spec 0 (-1)); [lia|].
  destruct l as [|x l]; [reflexivity|].
  destruct (Z.leb_spec (- Z.of_nat (length (x :: l))) (-1));
    [|cbn [length] in *; lia].
  cbn [mbind res_bind].
  replace (Z.to_nat (Z.of_nat (length (x :: l)) + -1))
    with (Nat.pred (length (x :: l))) by lia.
  reflexivity.
Qed.

Lemma indices_below_positions (s : list R) :
  indices_below s = positions_from (fun a => a < sv_threshold) 0 s.
Proof. reflexivity. Qed.

Lemma indices_above_positions (s : list R) :
  indices_above s = positions_from (fun a => a > sv_threshold) 0 s.
Proof. reflexivity. Qed.

Lemma pmax_first_below (s : list R) (p : nat) :
  first_below s p -> getitem (indices_below s) 0 = Ok p.
Proof.
  intros H. rewrite getitem_first, indices_below_positions.
  now rewrite (head_positions_from _ 0 s p H).
Qed.

Lemma pmax_last_above (s : list R) (q : nat) :
  last_above s q -> getitem (indices_above s) (-1) = Ok q.
Proof.
  intros H. rewrite getitem_last, indices_above_positions.
  now rewrite (last_positions_from _ 0 s q H).
Qed.

Lemma pmax_none_below (s : list R) :
  Forall (fun a => ~ a < sv_threshold) s ->
  getitem (indices_below s) 0 = Raise IndexError.
Proof.
  intros H. rewrite getitem_first, indices_below_positions.
  now rewrite positions_from_none.
Qed.

(** ** Matrices *)

Lemma for_each_ok {A B : Type} (f : A -> res B) (g : A -> B) (l : list A) :
  (forall x, x ∈ l -> f x = Ok (g x)) -> for_each f l = Ok (map g l).
Proof.
  induction l as [|x l IH]; intros H; [reflexivity|].
  cbn [for_each]. rewrite H by apply list_elem_of_here. cbn [mbind res_bind].
  rewrite IH; [reflexivity|].
  intros y Hy. apply H. now apply list_elem_of_further.
Qed.

Lemma rsum_ext_seq (f g : nat -> R) (n : nat) :
  (forall k, (k < n)%nat -> f k = g k) ->
  rsum (map f (seq 0 n)) = rsum (map g (seq 0 n)).
Proof.
  intros H. f_equal. apply map_ext_in. intros k Hk.
  apply in_seq in Hk. apply H. lia.
Qed.

Lemma nrows_tabulate nr nc f : nrows (tabulate nr nc f) = nr.
Proof. unfold nrows, tabulate. cbn. now rewrite length_map, length_seq. Qed.

Lemma entry_tabulate nr nc f i j :
  (i < nr)%nat -> (j < nc)%nat -> entry (tabulate nr nc f) i j = f i j.
Proof.
  intros Hi Hj. unfold entry, tabulate. cbn [rows].
  rewrite !nth_lookup, list_lookup_fmap, lookup_seq_lt by exact Hi.
  cbn. rewrite list_lookup_fmap, lookup_seq_lt by exact Hj. reflexivity.
Qed.

Lemma entry_cols_upto p m i j :
  (j < p)%nat -> entry (cols_upto p m) i j = entry m i j.
Proof.
  intros Hj. unfold entry, cols_upto. cbn [rows].
  rewrite !(nth_lookup _ i), list_lookup_fmap.
  destruct (rows m !! i) as [r|]; cbn; [|reflexivity].
  rewrite !nth_lookup, lookup_take_lt by exact Hj. reflexivity.
Qed.

Lemma entry_rows_upto p m i j :
  (i < p)%nat -> entry (rows_upto p m) i j = entry m i j.
Proof.
  intros Hi. unfold entry, rows_upto. cbn [rows].
  rewrite !(nth_lookup _ i), lookup_take_lt by exact Hi. reflexivity.
Qed.

Lemma entry_transpose m i j :
  (i < ncols m)%nat -> (j < nrows m)%nat -> entry (transpose m) i j = entry m j i.
Proof. intros Hi Hj. unfold transpose. now rewrite entry_tabulate. Qed.

Lemma entry_diag v i j :
  (i < length v)%nat -> (j < length v)%nat ->
  entry (diag v) i j = if (i =? j)%nat then nth i v 0 else 0.
Proof. intros Hi Hj. unfold diag. now rewrite entry_tabulate. Qed.

Lemma entry_scale_div m c i j : entry (scale_div m c) i j = entry m i j / c.
Proof.
  unfold entry, scale_div. cbn [rows].
  rewrite !(nth_lookup _ i), list_lookup_fmap.
  destruct (rows m !! i) as [r|]; cbn.
  - rewrite !nth_lookup, list_lookup_fmap.
    destruct (r !! j); cbn; [reflexivity|lra].
  - destruct j; cbn; lra.
Qed.

Lemma rsum_diag_collapse (k n : nat) (d : R) (X : nat -> R) :
  (k < n)%nat ->
  rsum (map (fun l => (if (k =? l)%nat then d else 0) * X l) (seq 0 n)) = d * X k.
Proof.
  intros Hk.
  assert (Hgen : forall len start, rsum (map (fun l =>
              (if (k =? l)%nat then d else 0) * X l) (seq start len)) =
            if decide (start <= k < start + len)%nat then d * X k else 0).
  { induction len as [|len IH]; intros start.
    - cbn. destruct (decide _); [lia|reflexivity].
    - cbn [seq map rsum foldr]. fold (rsum (map (fun l =>
        (if (k =? l)%nat then d else 0) * X l) (seq (S start) len))).
      rewrite IH. destruct (Nat.eqb_spec k start) as [->|Hne].
      + destruct (decide (S start <= start < S start + len)%nat); [lia|].
        destruct (decide (start <= start < start + S len)%nat); [lra|lia].
      + destruct (decide (S start <= k < S start + len)%nat);
          destruct (decide (start <= k < start + S len)%nat); try lia; lra. }
  rewrite Hgen. destruct (decide _); [reflexivity|lia].
Qed.

Lemma nth_reciprocals_take (s : list R) (p k : nat) :
  (k < p)%nat -> (p <= length s)%nat ->
  nth k (reciprocals (take p s)) 0 = 1 / nth k s 0.
Proof.
  intros Hk Hp. unfold reciprocals.
  rewrite !nth_lookup, list_lookup_fmap, lookup_take_lt by exact Hk.
  destruct (lookup_lt_is_Some_2 s k) as [a Ha]; [lia|].
  rewrite Ha. reflexivity.
Qed.

(** The product [V.T[:, :p] . diag(1/s[:p]) . U.T[:p, :]] is defined when
    [U] has as many columns and [V] as many rows as there are singular
    values, and its entries are the sums over the [p] retained triplets. *)
Lemma truncated_pinv_entries (U : matrix) (s : list R) (V : matrix) (p : nat) :
  ncols U = length s -> nrows V = length s -> (p <= length s)%nat ->
  exists M, truncated_pinv U s V p = Ok M /\
            nrows M = ncols V /\ ncols M = nrows U /\
            forall i j, (i < ncols V)%nat -> (j < nrows U)%nat ->
                        entry M i j = pinv_entry U s V p i j.
Proof.
  intros HU HV Hp. unfold truncated_pinv.
  set (Sinv := diag (reciprocals (take p s))).
  set (UT := rows_upto p (transpose U)).
  set (VT := cols_upto p (transpose V)).
  assert (Hlen : length (reciprocals (take p s)) = p).
  { unfold reciprocals. rewrite length_map, length_take. lia. }
  assert (HSc : ncols Sinv = p) by (unfold Sinv, diag; cbn; exact Hlen).
  assert (HSr : nrows Sinv = p)
    by (unfold Sinv, diag; rewrite nrows_tabulate; exact Hlen).
  assert (HUTr : nrows UT = p).
  { unfold UT, rows_upto, nrows. cbn [rows].
    rewrite length_take. fold (nrows (transpose U)).
    unfold transpose. rewrite nrows_tabulate. lia. }
  assert (HUTc : ncols UT = nrows U) by reflexivity.
  assert (HVTc : ncols VT = p).
  { unfold VT, cols_upto, transpose, tabulate. cbn [ncols]. lia. }
  assert (HVTr : nrows VT = ncols V).
  { unfold VT, cols_upto, nrows. cbn [rows]. rewrite length_map.
    fold (nrows (transpose V)). unfold transpose. now rewrite nrows_tabulate. }
  unfold dot_mm at 2. rewrite HSc, HUTr, Nat.eqb_refl. cbn [mbind res_bind].
  unfold dot_mm. rewrite HVTc, nrows_tabulate, HSr, Nat.eqb_refl.
  eexists. split; [reflexivity|].
  rewrite nrows_tabulate, HVTr. split; [reflexivity|].
  cbn [ncols tabulate]. rewrite HUTc. split; [reflexivity|].
  intros i j Hi Hj.
  change (Matrix (nrows U) ?r) with (tabulate (ncols V) (nrows U)
    (dot_entry VT (tabulate p (nrows U) (dot_entry Sinv UT)))).
  rewrite entry_tabulate by assumption.
  unfold dot_entry at 1, pinv_entry. rewrite HVTc.
  apply rsum_ext_seq. intros k Hk.
  rewrite entry_tabulate by assumption.
  unfold VT. rewrite entry_cols_upto by exact Hk.
  rewrite entry_transpose by lia.
  unfold dot_entry. rewrite HSc.
  rewrite (rsum_ext_seq _ (fun l =>
      (if (k =? l)%nat then nth k (reciprocals (take p s)) 0 else 0)
      * entry U j l)).
  - rewrite rsum_diag_collapse by exact Hk.
    rewrite nth_reciprocals_take by assumption. ring.
  - intros l Hl. unfold Sinv. rewrite entry_diag by lia.
    unfold UT. rewrite entry_rows_upto by exact Hl.
    rewrite entry_transpose by lia. reflexivity.
Qed.

(** ** Data covariance and its truncated inverse *)

Lemma data_cov_ok (width : R) (ndata : nat) :
  width <> 0 -> data_cov (width ^ 2) ndata = Ok (cov_matrix width ndata).
Proof.
  intros Hw. unfold data_cov.
  rewrite (for_each_ok _ (fun k1 : nat => map (fun k2 : nat =>
      exp (-0.5 * IZR ((Z.of_nat k1 - Z.of_nat k2) ^ 2) / width ^ 2))
      (seq 0 ndata))).
  - reflexivity.
  - intros k1 _. apply for_each_ok. intros k2 _.
    unfold py_truediv. destruct (Req_dec_T (width ^ 2) 0) as [H0|_].
    + exfalso. apply (pow_nonzero width 2 Hw). exact H0.
    + reflexivity.
Qed.

Lemma nrows_scale_div m c : nrows (scale_div m c) = nrows m.
Proof. unfold nrows, scale_div. cbn. apply length_map. Qed.

Lemma first_at_lt (P : R -> Prop) (l : list R) (p : nat) :
  first_at P l p -> (p < length l)%nat.
Proof. intros [[a [Ha _]] _]. eapply lookup_lt_Some, Ha. Qed.

Lemma last_at_lt (P : R -> Prop) (l : list R) (q : nat) :
  last_at P l q -> (q < length l)%nat.
Proof. intros [[a [Ha _]] _]. eapply lookup_lt_Some, Ha. Qed.

(** The common tail of both builders, once [pmax] is known. *)
Lemma scaled_pinv_entries (U : matrix) (s : list R) (V : matrix) (p : nat) (Ar : R) :
  ncols U = length s -> nrows V = length s -> (p <= length s)%nat ->
  exists Cdinv,
    (M ← truncated_pinv U s V p; Ok (scale_div M (Ar * Ar))) = Ok Cdinv /\
    nrows Cdinv = ncols V /\ ncols Cdinv = nrows U /\
    forall i j, (i < ncols V)%nat -> (j < nrows U)%nat ->
                entry Cdinv i j = pinv_entry U s V p i j / Ar ^ 2.
Proof.
  intros HU HV Hp.
  destruct (truncated_pinv_entries U s V p HU HV Hp)
    as (M & HM & Hr & Hc & Hent).
  exists (scale_div M (Ar * Ar)). rewrite HM. split; [reflexivity|].
  rewrite nrows_scale_div. split; [exact Hr|]. split; [exact Hc|].
  intros i j Hi Hj. rewrite entry_scale_div, Hent by assumption.
  f_equal. ring.
Qed.

(** C1. The two builders cut the singular values differently.  With
    [(U, s, V)] the decomposition numpy returns, [InvDataCov] keeps the
    singular values before the position [p] of the first one strictly below
    [1e-6]; [InvDataCovSub] keeps [q + 1] leading values, [q] being the
    position of the last one strictly above [1e-6].  Each returns the
    pseudo-inverse rebuilt from the retained triplets, divided by the
    square of the amplitude. *)
Theorem svd_truncation_rules
    (svd : matrix -> res (matrix * list R * matrix))
    (width Ar : R) (ndata : nat) :
  width <> 0 ->
  (forall U s V p,
     svd (cov_matrix width ndata) = Ok (U, s, V) ->
     ncols U = length s -> nrows V = length s ->
     first_below s p ->
     exists Cdinv,
       InvDataCov svd width Ar ndata = Ok Cdinv /\
       nrows Cdinv = ncols V /\ ncols Cdinv = nrows U /\
       forall i j, (i < ncols V)%nat -> (j < nrows U)%nat ->
                   entry Cdinv i j = pinv_entry U s V p i j / Ar ^ 2) /\
  (forall ind Cdused U s V q,
     sub_matrix ind (cov_matrix width ndata) = Ok Cdused ->
     svd Cdused = Ok (U, s, V) ->
     ncols U = length s -> nrows V = length s ->
     last_above s q ->
     exists Cdinv,
       InvDataCovSub svd width Ar ndata ind = Ok Cdinv /\
       nrows Cdinv = ncols V /\ ncols Cdinv = nrows U /\
       forall i j, (i < ncols V)%nat -> (j < nrows U)%nat ->
                   entry Cdinv i j = pinv_entry U s V (q + 1) i j / Ar ^ 2).
Proof.
  intros Hw. split.
  - intros U s V p Hsvd HU HV Hp. unfold InvDataCov.
    rewrite (data_cov_ok width ndata Hw). cbn [mbind res_bind].
    rewrite Hsvd. cbn [mbind res_bind].
    rewrite (pmax_first_below s p Hp). cbn [mbind res_bind].
    apply scaled_pinv_entries; try assumption.
    apply first_at_lt in Hp. lia.
  - intros ind Cdused U s V q Hsub Hsvd HU HV Hq. unfold InvDataCovSub.
    rewrite (data_cov_ok width ndata Hw). cbn [mbind res_bind].
    rewrite Hsub. cbn [mbind res_bind].
    rewrite Hsvd. cbn [mbind res_bind].
    rewrite (pmax_last_above s q Hq). cbn [mbind res_bind].
    apply scaled_pinv_entries; try assumption.
    apply last_at_lt in Hq. lia.
Qed.

Lemma first_below_example : first_below [1; 0.0000001] 1.
Proof.
  split.
  - exists 0.0000001. split; [reflexivity|]. unfold sv_threshold. lra.
  - intros [|i] a Hi Ha; [|lia]. injection Ha as <-. unfold sv_threshold. lra.
Qed.

Lemma last_above_example : last_above [1; 0.0000001] 0.
Proof.
  split.
  - exists 1. split; [reflexivity|]. unfold sv_threshold. lra.
  - intros [|[|i]] a Hi Ha; [lia| |discriminate].
    injection Ha as <-. unfold sv_threshold. lra.
Qed.

Lemma svd_truncation_rules_witness :
  let U := Matrix 2 [[1; 0]; [0; 1]] in
  let s := [1; 0.0000001] in
  let svd := fun _ : matrix => Ok (U, s, U) in
  (2.5 : R) <> 0 /\
  first_below s 1 /\
  last_above s 0 /\
  (exists Cdinv,
     InvDataCov svd 2.5 0.01 2 = Ok Cdinv /\
     nrows Cdinv = 2%nat /\ ncols Cdinv = 2%nat /\
     forall i j, (i < 2)%nat -> (j < 2)%nat ->
                 entry Cdinv i j = pinv_entry U s U 1 i j / 0.01 ^ 2) /\
  (exists Cdinv,
     InvDataCovSub svd 2.5 0.01 2 [0; 1]%Z = Ok Cdinv /\
     nrows Cdinv = 2%nat /\ ncols Cdinv = 2%nat /\
     forall i j, (i < 2)%nat -> (j < 2)%nat ->
                 entry Cdinv i j = pinv_entry U s U (0 + 1) i j / 0.01 ^ 2).
Proof.
  intros U s svd.
  assert (Hw : (2.5 : R) <> 0) by lra.
  destruct (svd_truncation_rules svd 2.5 0.01 2 Hw) as [Hfull Hsub].
  split; [exact Hw|]. split; [exact first_below_example|].
  split; [exact last_above_example|]. split.
  - exact (Hfull U s U 1%nat eq_refl eq_refl eq_refl first_below_example).
  - exact (Hsub [0; 1]%Z _ U s U 0%nat eq_refl eq_refl eq_refl eq_refl
             last_above_example).
Defined.

Lemma cov_matrix_one (width : R) :
  entry (cov_matrix width 1) 0 0 = 1.
Proof.
  unfold cov_matrix. rewrite entry_tabulate by lia.
  replace (-0.5 * IZR ((Z.of_nat 0 - Z.of_nat 0) ^ 2) / width ^ 2) with 0.
  - apply exp_0.
  - change (IZR ((Z.of_nat 0 - Z.of_nat 0) ^ 2)) with 0.
    unfold Rdiv. now rewrite Rmult_0_r, Rmult_0_l.
Qed.

(** The only singular value of a one-by-one matrix with entry 1 is 1. *)
Lemma svd_one_by_one (A U : matrix) (s : list R) (V : matrix) :
  entry A 0 0 = 1 -> is_svd 1 A U s V -> s = [1].
Proof.
  intros HA [_ _ Hs Hnn Hprod HUo HVo].
  destruct s as [|a [|b s]]; try discriminate. clear Hs.
  apply Forall_inv in Hnn.
  specialize (Hprod 0%nat 0%nat Nat.lt_0_1 Nat.lt_0_1).
  specialize (HUo 0%nat 0%nat Nat.lt_0_1 Nat.lt_0_1).
  specialize (HVo 0%nat 0%nat Nat.lt_0_1 Nat.lt_0_1).
  cbn in Hprod, HUo, HVo. rewrite HA in Hprod.
  set (u := entry U 0 0) in *. set (v := entry V 0 0) in *.
  assert (Hu : u * u = 1) by lra.
  assert (Hv : v * v = 1) by lra.
  assert (Huav : u * a * v = 1) by lra.
  assert (Ha2 : a * a = 1).
  { transitivity ((u * u) * (a * a) * (v * v)); [rewrite Hu, Hv; ring|].
    transitivity ((u * a * v) * (u * a * v)); [ring|].
    rewrite Huav. ring. }
  f_equal. nra.
Qed.

(** C10. [InvDataCov] returns only when some singular value is strictly
    below [1e-6]: whenever it returns, the decomposition had such a value;
    when every singular value is at least [1e-6] the first-position lookup
    is taken from an empty list and the call raises [IndexError]; this is
    the case for [ndata = 1], whose only singular value is 1. *)
Theorem InvDataCov_needs_singular_value_below_cutoff
    (svd : matrix -> res (matrix * list R * matrix))
    (width Ar : R) (ndata : nat) :
  (forall Cdinv,
     InvDataCov svd width Ar ndata = Ok Cdinv ->
     exists Cd U s V,
       data_cov (width ^ 2) ndata = Ok Cd /\ svd Cd = Ok (U, s, V) /\
       Exists (fun a => a < sv_threshold) s) /\
  (forall Cd U s V,
     data_cov (width ^ 2) ndata = Ok Cd -> svd Cd = Ok (U, s, V) ->
     Forall (fun a => sv_threshold <= a) s ->
     indices_below s = [] /\
     InvDataCov svd width Ar ndata = Raise IndexError) /\
  (forall U s V,
     width <> 0 -> ndata = 1%nat ->
     svd (cov_matrix width 1) = Ok (U, s, V) ->
     is_svd 1 (cov_matrix width 1) U s V ->
     s = [1] /\ InvDataCov svd width Ar ndata = Raise IndexError).
Proof.
  assert (Hfail : forall Cd U s V,
     data_cov (width ^ 2) ndata = Ok Cd -> svd Cd = Ok (U, s, V) ->
     Forall (fun a => sv_threshold <= a) s ->
     indices_below s = [] /\
     InvDataCov svd width Ar ndata = Raise IndexError).
  { intros Cd U s V HCd Hsvd Hall.
    assert (Hnone : Forall (fun a => ~ a < sv_threshold) s).
    { eapply Forall_impl; [exact Hall|]. cbn. intros a Ha. lra. }
    split.
    - rewrite indices_below_positions. now apply positions_from_none.
    - unfold InvDataCov. rewrite HCd. cbn [mbind res_bind].
      rewrite Hsvd. cbn [mbind res_bind].
      rewrite (pmax_none_below s Hnone). reflexivity. }
  split; [|split; [exact Hfail|]].
  - intros Cdinv. unfold InvDataCov.
    destruct (data_cov (width ^ 2) ndata) as [Cd|e] eqn:HCd; [|discriminate].
    cbn [mbind res_bind].
    destruct (svd Cd) as [[[U s] V]|e] eqn:Hsvd; [|discriminate].
    cbn [mbind res_bind]. intros H.
    exists Cd, U, s, V. split; [reflexivity|]. split; [exact Hsvd|].
    rewrite getitem_first, indices_below_positions in H.
    destruct (head (positions_from (fun a => a < sv_threshold) 0 s))
      as [p|] eqn:Hp; [|discriminate].
    apply head_Some_elem_of, positions_from_some in Hp
      as (a & _ & Ha & Hlt).
    apply Exists_exists. exists a. split; [|exact Hlt].
    eapply list_elem_of_lookup_2, Ha.
  - intros U s V Hw -> Hsvd Hspec.
    assert (Hs : s = [1]).
    { eapply svd_one_by_one; [apply cov_matrix_one|exact Hspec]. }
    split; [exact Hs|].
    apply (Hfail (cov_matrix width 1) U s V (data_cov_ok width 1 Hw) Hsvd).
    rewrite Hs. constructor; [unfold sv_threshold; lra|constructor].
Qed.

Lemma InvDataCov_needs_singular_value_below_cutoff_witness :
  let U := Matrix 1 [[1]] in
  let svd := fun _ : matrix => Ok (U, [1], U) in
  (2.5 : R) <> 0 /\
  is_svd 1 (cov_matrix 2.5 1) U [1] U /\
  InvDataCov svd 2.5 0.01 1 = Raise IndexError.
Proof.
  intros U svd.
  assert (Hw : (2.5 : R) <> 0) by lra.
  assert (Hspec : is_svd 1 (cov_matrix 2.5 1) U [1] U).
  { constructor.
    - split; reflexivity.
    - split; reflexivity.
    - reflexivity.
    - constructor; [lra|constructor].
    - intros [|i] [|j] Hi Hj; try lia. rewrite cov_matrix_one. cbn. lra.
    - intros [|i] [|j] Hi Hj; try lia. cbn. lra.
    - intros [|i] [|j] Hi Hj; try lia. cbn. lra. }
  split; [exact Hw|]. split; [exact Hspec|].
  destruct (InvDataCov_needs_singular_value_below_cutoff svd 2.5 0.01 1)
    as (_ & _ & Hone).
  exact (proj2 (Hone U [1] U Hw eq_refl eq_refl Hspec)).
Defined.

(** ** The store monad *)

Section AdapterFacts.

Variable RNG : Type.
Variable multivariate_normal : RNG -> list R -> matrix -> res (list R * RNG).
Variable rfcalc_nonoise : solver_args -> nat -> R * R.
Variable rfcalc_noise : solver_args -> R -> Z -> nat -> R * R.

(** What the injector does once the dictionary has its three keys and
    both arrays are allocated, the time array being non-empty. *)
Lemma add_time_domain_noise_unfold (w t : loc) (nz : gmap string pyval)
    (st : world RNG) (amp corr name : pyval) (wv tv : list R) (t0 tlast : R) :
  nz !! "amp_sigma"%string = Some amp ->
  nz !! "corr_time"%string = Some corr ->
  nz !! "kernel"%string = Some name ->
  heap st !! w = Some wv ->
  heap st !! t = Some tv ->
  head tv = Some t0 -> last tv = Some tlast ->
  add_time_domain_noise RNG multivariate_normal w t nz st =
  match kernel_matrix (bind_kernel name amp corr)
          (linspace t0 tlast (length wv)) with
  | Ok K =>
      match multivariate_normal (rng st) (zeros (length wv)) K with
      | Ok (z, g) =>
          match np_iadd wv z with
          | Ok wv' => Ok ((w, K), World (<[w := wv']> (heap st)) g)
          | Raise e => Raise e
          end
      | Raise e => Raise e
      end
  | Raise e => Raise e
  end.
Proof.
  intros Hamp Hcorr Hname Hw Ht Hhd Hlast.
  unfold add_time_domain_noise, mbind, M_bind, lift, dict_get, load.
  rewrite Hamp, Hcorr, Hname, Hw, Ht.
  rewrite getitem_first, getitem_last, Hhd, Hlast.
  destruct (kernel_matrix _ _) as [K|e]; [|reflexivity].
  unfold draw.
  destruct (multivariate_normal _ _ _) as [[z g]|e]; [|reflexivity].
  cbn [heap]. rewrite Hw.
  destruct (np_iadd wv z) as [wv'|e]; reflexivity.
Qed.

(** Whenever the injector returns, it returns the location it was given,
    and the store differs from the one it started in only at that
    location, which holds the old contents plus the draw. *)
Lemma add_time_domain_noise_inv (w t : loc) (nz : gmap string pyval)
    (st st' : world RNG) (r : loc) (K : matrix) :
  add_time_domain_noise RNG multivariate_normal w t nz st = Ok ((r, K), st') ->
  r = w /\
  exists wv z wv',
    heap st !! w = Some wv /\
    multivariate_normal (rng st) (zeros (length wv)) K = Ok (z, rng st') /\
    np_iadd wv z = Ok wv' /\
    heap st' = <[w := wv']> (heap st).
Proof.
  unfold add_time_domain_noise, mbind, M_bind, lift, dict_get, load.
  destruct (nz !! "amp_sigma"%string) as [amp|]; [|discriminate].
  destruct (nz !! "corr_time"%string) as [corr|]; [|discriminate].
  destruct (nz !! "kernel"%string) as [name|]; [|discriminate].
  destruct (heap st !! w) as [wv|] eqn:Hw; [|discriminate].
  destruct (heap st !! t) as [tv|]; [|discriminate].
  destruct (getitem tv 0) as [t0|]; [|discriminate].
  destruct (getitem tv (-1)) as [tlast|]; [|discriminate].
  destruct (kernel_matrix _ _) as [K0|]; [|discriminate].
  unfold draw.
  destruct (multivariate_normal _ _ _) as [[z g]|] eqn:Hdraw; [|discriminate].
  cbn [heap]. rewrite Hw.
  destruct (np_iadd wv z) as [wv'|] eqn:Hadd; [|discriminate].
  unfold store, mret, M_ret. cbn [heap rng]. intros H.
  injection H as <- <- <-. split; [reflexivity|].
  exists wv, z, wv'. cbn [heap rng]. auto.
Qed.

(** A kernel the dispatcher evaluates gives its Gram matrix. *)
Lemma kernel_matrix_known (name : string) (f : R -> R -> R -> R -> R)
    (s1 rho : R) (xx : list R) :
  kernel_of_name name = Some f ->
  kernel_matrix (bind_kernel (PStr name) (PNum s1) (PNum rho)) xx =
  Ok (gram (fun x xp => f x xp s1 rho) xx).
Proof.
  unfold kernel_of_name, bind_kernel, str_eq. intros Hf.
  assert (Hk : forall g : R -> R -> R -> R -> R,
    kernel_matrix (Some (kernel_closure g (PNum s1) (PNum rho))) xx =
    Ok (gram (fun x xp => g x xp s1 rho) xx)).
  { intros g. unfold kernel_matrix, gram.
    rewrite (for_each_ok _ (fun xi => map (fun xj => g xi xj s1 rho) xx));
      [reflexivity|].
    intros xi _. apply for_each_ok. intros xj _. reflexivity. }
  destruct (String.eqb name "sqExp"); [injection Hf as <-; apply Hk|].
  destruct (String.eqb name "matern0"); [injection Hf as <-; apply Hk|].
  destruct (String.eqb name "matern1"); [injection Hf as <-; apply Hk|].
  destruct (String.eqb name "matern2"); [injection Hf as <-; apply Hk|].
  discriminate.
Qed.

(** With at least one sample, the first kernel evaluation decides. *)
Lemma kernel_matrix_first_call (k : option kernel) (x : R) (xx : list R) (e : exn) :
  call_kernel k x x = Raise e -> kernel_matrix k (x :: xx) = Raise e.
Proof.
  intros H. unfold kernel_matrix. cbn [for_each]. rewrite H. reflexivity.
Qed.

Lemma bind_kernel_unknown (name amp corr : pyval) :
  unknown_kernel name -> bind_kernel name amp corr = None.
Proof.
  intros (H1 & H2 & H3 & H4 & H5). unfold bind_kernel.
  now rewrite H1, H2, H3, H4, H5.
Qed.

Lemma bind_kernel_periodic (name amp corr : pyval) :
  str_eq name "periodic" = true ->
  bind_kernel name amp corr = Some (fun _ _ => Raise TypeError).
Proof.
  destruct name as [s|r]; [|discriminate]. cbn [str_eq]. intros H.
  apply String.eqb_eq in H as ->. reflexivity.
Qed.

Lemma linspace_cons (t0 tlast : R) (n : nat) :
  (0 < n)%nat -> exists x xx, linspace t0 tlast n = x :: xx.
Proof.
  intros Hn. destruct n as [|[|n]]; [lia| |].
  - exists t0, []. reflexivity.
  - unfold linspace. cbn [seq map]. eauto.
Qed.

(** C7, as the code has it.  With a dictionary that holds the three keys
    [amp_sigma], [corr_time] and [kernel], on a waveform with at least one
    sample and a non-empty time array, a kernel name that no branch of the
    dispatcher accepts makes the call fail with [UnboundLocalError]: the
    local [k] was never bound, and the failure comes when the first kernel
    value is computed.  Nothing is drawn and the store is not touched. *)
Theorem unknown_kernel_fails_at_first_evaluation
    (w t : loc) (nz : gmap string pyval) (st : world RNG)
    (amp corr name : pyval) (wv tv : list R) :
  nz !! "amp_sigma"%string = Some amp ->
  nz !! "corr_time"%string = Some corr ->
  nz !! "kernel"%string = Some name ->
  unknown_kernel name ->
  heap st !! w = Some wv -> heap st !! t = Some tv ->
  wv <> [] -> tv <> [] ->
  add_time_domain_noise RNG multivariate_normal w t nz st
    = Raise UnboundLocalError.
Proof.
  intros Hamp Hcorr Hname Hk Hw Ht Hwv Htv.
  destruct tv as [|t0 tv']; [congruence|].
  destruct (last (t0 :: tv')) as [tlast|] eqn:Hlast;
    [|apply last_None in Hlast; discriminate].
  destruct (linspace_cons t0 tlast (length wv)) as (x & xx & Hxx).
  { destruct wv; [congruence|cbn; lia]. }
  rewrite (add_time_domain_noise_unfold w t nz st amp corr name
             wv (t0 :: tv') t0 tlast) by (assumption || reflexivity).
  rewrite Hxx, (bind_kernel_unknown name amp corr Hk).
  now rewrite (kernel_matrix_first_call None x xx UnboundLocalError).
Qed.

(** The successful run of the injector. *)
Lemma add_time_domain_noise_success
    (w t : loc) (nz : gmap string pyval) (st : world RNG)
    (kname : string) (k : R -> R -> R -> R -> R) (amp_sigma corr_time : R)
    (wv tv : list R) (t0 tlast : R) (z : list R) (g : RNG) :
  nz !! "amp_sigma"%string = Some (PNum amp_sigma) ->
  nz !! "corr_time"%string = Some (PNum corr_time) ->
  nz !! "kernel"%string = Some (PStr kname) ->
  kernel_of_name kname = Some k ->
  heap st !! w = Some wv -> heap st !! t = Some tv ->
  head tv = Some t0 -> last tv = Some tlast ->
  multivariate_normal (rng st) (zeros (length wv))
    (gram (fun x xp => k x xp amp_sigma corr_time)
          (linspace t0 tlast (length wv))) = Ok (z, g) ->
  length z = length wv ->
  add_time_domain_noise RNG multivariate_normal w t nz st
  = Ok ((w, gram (fun x xp => k x xp amp_sigma corr_time)
                 (linspace t0 tlast (length wv))),
        World (<[w := zip_with Rplus wv z]> (heap st)) g).
Proof.
  intros Hamp Hcorr Hname Hk Hw Ht Hhd Hlast Hdraw Hlen.
  rewrite (add_time_domain_noise_unfold w t nz st (PNum amp_sigma)
             (PNum corr_time) (PStr kname) wv tv t0 tlast) by assumption.
  rewrite (kernel_matrix_known kname k _ _ _ Hk), Hdraw.
  unfold np_iadd. now rewrite Hlen, Nat.eqb_refl.
Qed.

(** C9. The injector updates its argument in place.  Whenever it returns,
    the waveform it returns is the location [w] it was given, every other
    array of the store is as before, and [w] holds its former contents
    plus the noise drawn.  With a dictionary naming a kernel the injector
    evaluates and [z] the draw, it does return, and [w] holds the waveform
    plus [z]: if some entry of [z] is not zero, the clean waveform is gone. *)
Theorem add_time_domain_noise_overwrites_its_argument
    (w t : loc) (nz : gmap string pyval) (st : world RNG) :
  (forall r K st',
     add_time_domain_noise RNG multivariate_normal w t nz st
       = Ok ((r, K), st') ->
     r = w /\
     (forall l, l <> w -> heap st' !! l = heap st !! l) /\
     exists wv z wv',
       heap st !! w = Some wv /\
       multivariate_normal (rng st) (zeros (length wv)) K = Ok (z, rng st') /\
       np_iadd wv z = Ok wv' /\
       heap st' !! w = Some wv') /\
  (forall (kname : string) (k : R -> R -> R -> R -> R)
          (amp_sigma corr_time : R) (wv tv : list R) (t0 tlast : R)
          (z : list R) (g : RNG),
     nz !! "amp_sigma"%string = Some (PNum amp_sigma) ->
     nz !! "corr_time"%string = Some (PNum corr_time) ->
     nz !! "kernel"%string = Some (PStr kname) ->
     kernel_of_name kname = Some k ->
     heap st !! w = Some wv -> heap st !! t = Some tv ->
     head tv = Some t0 -> last tv = Some tlast ->
     multivariate_normal (rng st) (zeros (length wv))
       (gram (fun x xp => k x xp amp_sigma corr_time)
             (linspace t0 tlast (length wv))) = Ok (z, g) ->
     length z = length wv ->
     exists st',
       add_time_domain_noise RNG multivariate_normal w t nz st
         = Ok ((w, gram (fun x xp => k x xp amp_sigma corr_time)
                        (linspace t0 tlast (length wv))), st') /\
       heap st' = <[w := zip_with Rplus wv z]> (heap st) /\
       heap st' !! w = Some (zip_with Rplus wv z) /\
       ((exists i zi, z !! i = Some zi /\ zi <> 0) ->
        heap st' !! w <> Some wv)).
Proof.
  split.
  - intros r K st' Hrun.
    apply add_time_domain_noise_inv in Hrun
      as (-> & wv & z & wv' & Hw & Hdraw & Hadd & Hheap).
    split; [reflexivity|]. split.
    + intros l Hl. rewrite Hheap. now apply list_lookup_insert_ne.
    + exists wv, z, wv'. rewrite Hheap. repeat split; try assumption.
      apply list_lookup_insert_eq. eapply lookup_lt_Some, Hw.
  - intros kname k amp_sigma corr_time wv tv t0 tlast z g
           Hamp Hcorr Hname Hk Hw Ht Hhd Hlast Hdraw Hlen.
    rewrite (add_time_domain_noise_success w t nz st kname k amp_sigma
               corr_time wv tv t0 tlast z g) by assumption.
    eexists. split; [reflexivity|]. cbn [heap]. split; [reflexivity|].
    assert (Hnew : <[w := zip_with Rplus wv z]> (heap st) !! w
                   = Some (zip_with Rplus wv z)).
    { apply list_lookup_insert_eq. eapply lookup_lt_Some, Hw. }
    split; [exact Hnew|].
    intros (i & zi & Hzi & Hnz). rewrite Hnew. intros Heq.
    injection Heq as Heq.
    destruct (lookup_lt_is_Some_2 wv i) as [wi Hwi].
    { rewrite <- Hlen. eapply lookup_lt_Some, Hzi. }
    assert (Hsum : zip_with Rplus wv z !! i = Some (wi + zi)).
    { rewrite lookup_zip_with, Hwi, Hzi. reflexivity. }
    rewrite Heq, Hwi in Hsum. injection Hsum as Hsum. apply Hnz. lra.
Qed.

Lemma head_map_seq {A : Type} (f : nat -> A) (n : nat) :
  (0 < n)%nat -> head (map f (seq 0 n)) = Some (f 0%nat).
Proof. destruct n; [lia|reflexivity]. Qed.

Lemma last_map_seq {A : Type} (f : nat -> A) (n : nat) :
  (0 < n)%nat -> last (map f (seq 0 n)) = Some (f (n - 1)%nat).
Proof.
  intros Hn. rewrite last_lookup, length_map, length_seq.
  rewrite list_lookup_fmap, lookup_seq_lt by lia.
  cbn. do 2 f_equal. lia.
Qed.

(** The adapter up to the noise branch: two fresh buffers at the end of
    the store, filled by the solver. *)
Lemma rfcalc_unfold (model : layered_model) (kw : rfcalc_kwargs)
    (st : world RNG) (args : solver_args) :
  solver_arguments model kw = Ok args ->
  let out := solver_output rfcalc_nonoise rfcalc_noise kw args in
  let time := map (fun i => (out i).1) (seq 0 (ndatar kw)) in
  let clean := map (fun i => (out i).2) (seq 0 (ndatar kw)) in
  let time_f := length (heap st) in
  let wdata_f := S (length (heap st)) in
  let filled := World (heap st ++ [time; clean]) (rng st) in
  rfcalc RNG multivariate_normal rfcalc_nonoise rfcalc_noise model kw st =
  match noise kw with
  | Some nz =>
      match add_time_domain_noise RNG multivariate_normal
              wdata_f time_f nz filled with
      | Ok ((w, Cd), st') => Ok (RF_triple time_f w Cd, st')
      | Raise e => Raise e
      end
  | None => Ok (RF_pair time_f wdata_f, filled)
  end.
Proof.
  intros Hargs out time clean time_f wdata_f filled.
  unfold rfcalc, mbind, M_bind, alloc, lift, call_solver, store.
  cbn [heap rng]. rewrite Hargs. unfold mbind, M_bind. cbn [heap rng].
  fold out. fold time. fold clean.
  assert (Hheap : <[length (heap st ++ [zeros (ndatar kw)]) := clean]>
            (<[length (heap st) := time]>
               ((heap st ++ [zeros (ndatar kw)]) ++ [zeros (ndatar kw)]))
          = heap st ++ [time; clean]).
  { rewrite <- app_assoc. cbn [app].
    rewrite insert_app_r_alt by lia. rewrite Nat.sub_diag. cbn [insert].
    rewrite length_app. cbn [length].
    rewrite insert_app_r_alt by lia.
    replace (length (heap st) + 1 - length (heap st))%nat with 1%nat by lia.
    reflexivity. }
  rewrite Hheap. fold filled.
  replace (length (heap st ++ [zeros (ndatar kw)])) with wdata_f
    by (rewrite length_app; cbn; unfold wdata_f; lia).
  fold time_f.
  destruct (noise kw) as [nz|]; [|reflexivity].
  destruct (add_time_domain_noise _ _ _ _ _ _) as [[[w Cd] st']|e];
    reflexivity.
Qed.

Lemma per_layer_scalar (q : R) (npt : nat) :
  per_layer (QScalar q) npt = replicate npt q.
Proof.
  unfold per_layer, ones. induction npt as [|n IH]; [reflexivity|].
  cbn [replicate map]. rewrite IH. f_equal. ring.
Qed.

Lemma getitem_second {A : Type} (x y : A) (l : list A) :
  getitem (x :: y :: l) 1 = Ok y.
Proof.
  unfold getitem, py_index. cbn [Z.leb Z.compare].
  destruct (Z.ltb_spec 1 (Z.of_nat (length (x :: y :: l))));
    [reflexivity|cbn [length] in *; lia].
Qed.

Lemma solver_arguments_ok (model : layered_model) (kw : rfcalc_kwargs)
    (q0 q1 : qspec) (rest : list qspec) :
  qmodels kw = q0 :: q1 :: rest ->
  solver_arguments model kw =
  Ok {| a_model := model; a_mtype := mtype kw; a_fs := fs kw;
        a_gauss_a := gauss_a kw; a_water_c := water_c kw;
        a_angle := angle kw; a_time_shift := time_shift kw;
        a_ndatar := ndatar kw; a_v60 := v60 kw; a_npt := length model;
        a_qa := per_layer q0 (length model);
        a_qb := per_layer q1 (length model) |}.
Proof.
  intros H. unfold solver_arguments.
  rewrite H, getitem_first, getitem_second. reflexivity.
Qed.

(** X29. After the solver has filled the two fresh buffers, a call without
    noise dictionary returns the pair (time, waveform).  With a noise
    dictionary the injector is run on the solver's waveform and time
    buffers, and whatever [rfcalc] then returns is the triple (time,
    waveform, covariance) the injector produced.  It does return when the
    dictionary names one of the kernels the injector evaluates and there
    is at least one sample: the waveform buffer then holds the clean
    samples plus the noise drawn, and the covariance is the kernel's
    matrix over the time span. *)
Theorem rfcalc_returns_pair_or_triple
    (model : layered_model) (kw : rfcalc_kwargs) (st : world RNG)
    (args : solver_args) :
  solver_arguments model kw = Ok args ->
  let out := solver_output rfcalc_nonoise rfcalc_noise kw args in
  let time := map (fun i => (out i).1) (seq 0 (ndatar kw)) in
  let clean := map (fun i => (out i).2) (seq 0 (ndatar kw)) in
  let time_f := length (heap st) in
  let wdata_f := S (length (heap st)) in
  (noise kw = None ->
   rfcalc RNG multivariate_normal rfcalc_nonoise rfcalc_noise model kw st
   = Ok (RF_pair time_f wdata_f,
         World (heap st ++ [time; clean]) (rng st))) /\
  (forall nz r st',
     noise kw = Some nz ->
     rfcalc RNG multivariate_normal rfcalc_nonoise rfcalc_noise model kw st
     = Ok (r, st') ->
     exists Cd,
       r = RF_triple time_f wdata_f Cd /\
       add_time_domain_noise RNG multivariate_normal wdata_f time_f nz
         (World (heap st ++ [time; clean]) (rng st))
       = Ok ((wdata_f, Cd), st')) /\
  (forall nz kname k amp_sigma corr_time z g,
     noise kw = Some nz ->
     nz !! "amp_sigma"%string = Some (PNum amp_sigma) ->
     nz !! "corr_time"%string = Some (PNum corr_time) ->
     nz !! "kernel"%string = Some (PStr kname) ->
     kernel_of_name kname = Some k ->
     (0 < ndatar kw)%nat ->
     let Cd := gram (fun x xp => k x xp amp_sigma corr_time)
                 (linspace (out 0%nat).1 (out (ndatar kw - 1)%nat).1
                           (ndatar kw)) in
     multivariate_normal (rng st) (zeros (ndatar kw)) Cd = Ok (z, g) ->
     length z = ndatar kw ->
     rfcalc RNG multivariate_normal rfcalc_nonoise rfcalc_noise model kw st
     = Ok (RF_triple time_f wdata_f Cd,
           World (heap st ++ [time; zip_with Rplus clean z]) g)).
Proof.
  intros Hargs out time clean time_f wdata_f.
  pose proof (rfcalc_unfold model kw st args Hargs) as Hrun.
  cbv zeta in Hrun. fold out in Hrun. fold time in Hrun. fold clean in Hrun.
  fold time_f in Hrun. fold wdata_f in Hrun.
  split; [|split].
  - intros Hnone. rewrite Hrun, Hnone. reflexivity.
  - intros nz r st' Hsome. rewrite Hrun, Hsome.
    destruct (add_time_domain_noise _ _ _ _ _ _) as [[[w Cd] st'']|e] eqn:Hadd;
      [|discriminate].
    intros H. injection H as <- <-.
    apply add_time_domain_noise_inv in Hadd as Hinv. destruct Hinv as [-> _].
    exists Cd. split; reflexivity.
  - intros nz kname k amp_sigma corr_time z g Hsome Hamp Hcorr Hname Hk Hn
           Cd Hdraw Hlen.
    rewrite Hrun, Hsome.
    assert (Hclean : length clean = ndatar kw)
      by (unfold clean; now rewrite length_map, length_seq).
    rewrite (add_time_domain_noise_success wdata_f time_f nz _ kname k
               amp_sigma corr_time clean time
               (out 0%nat).1 (out (ndatar kw - 1)%nat).1 z g);
      try assumption.
    + cbn [heap]. unfold Cd. rewrite Hclean.
      assert (Hins : <[wdata_f := zip_with Rplus clean z]>
                       (heap st ++ [time; clean])
                     = heap st ++ [time; zip_with Rplus clean z]).
      { unfold wdata_f. rewrite insert_app_r_alt by lia.
        replace (S (length (heap st)) - length (heap st))%nat
          with 1%nat by lia.
        reflexivity. }
      rewrite Hins. reflexivity.
    + cbn [heap]. unfold wdata_f. rewrite lookup_app_r by lia.
      replace (S (length (heap st)) - length (heap st))%nat with 1%nat by lia.
      reflexivity.
    + cbn [heap]. unfold time_f. rewrite lookup_app_r by lia.
      rewrite Nat.sub_diag. reflexivity.
    + unfold time. now apply (head_map_seq (fun i => (out i).1)).
    + unfold time. now apply (last_map_seq (fun i => (out i).1)).
    + cbn [rng]. rewrite Hclean. exact Hdraw.
    + now rewrite Hclean.
Qed.

(** C6, as the code has it.  A scalar attenuation entry is broadcast to
    one value per layer (the defaults are 1450 and 600); a per-layer
    array is handed to the solver as it is, whatever its length, and a
    call without noise dictionary then returns its pair: no length is
    checked. *)
Theorem attenuation_broadcast_or_passed_unchecked
    (model : layered_model) (kw : rfcalc_kwargs) (st : world RNG)
    (q0 q1 : qspec) (rest : list qspec) :
  qmodels kw = q0 :: q1 :: rest ->
  qmodels default_kwargs = [QScalar 1450; QScalar 600] /\
  exists args,
    solver_arguments model kw = Ok args /\
    a_npt args = length model /\
    a_qa args = match q0 with
                | QScalar qa => replicate (length model) qa
                | QArray qa => qa
                end /\
    a_qb args = match q1 with
                | QScalar qb => replicate (length model) qb
                | QArray qb => qb
                end /\
    (noise kw = None ->
     exists st',
       rfcalc RNG multivariate_normal rfcalc_nonoise rfcalc_noise model kw st
       = Ok (RF_pair (length (heap st)) (S (length (heap st))), st')).
Proof.
  intros Hq. split; [reflexivity|].
  pose proof (solver_arguments_ok model kw q0 q1 rest Hq) as Hargs.
  eexists. split; [exact Hargs|]. cbn [a_npt a_qa a_qb].
  split; [reflexivity|].
  split; [destruct q0; [apply per_layer_scalar|reflexivity]|].
  split; [destruct q1; [apply per_layer_scalar|reflexivity]|].
  intros Hnone. eexists.
  rewrite (rfcalc_unfold model kw st _ Hargs), Hnone. reflexivity.
Qed.

End AdapterFacts.

(** ** The reference scenario *)









(** ** Sample runs *)

(** The staircase of a two-layer thickness model: each velocity twice, the
    interface depth twice, the last depth replaced by [dmax]. *)
Example l2mod_two_layers :
  l2mod two_layers default_vmin default_vmax default_dmin default_dmax
  = Ok ([3.46; 3.46; 3.85; 3.85], [0; 0 + 20; 0 + 20; default_dmax]).
Proof. reflexivity. Qed.

(** A model without layers has no last sample to set. *)
Example l2mod_no_layer :
  l2mod [] default_vmin default_vmax default_dmin default_dmax
  = Raise IndexError.
Proof. reflexivity. Qed.

(** On a single singular value 1 the two cutoff rules part: the
    first-below rule finds nothing and fails, the last-above rule keeps the
    value. *)
Example truncation_rules_differ :
  getitem (indices_below [1]) 0 = Raise IndexError /\
  getitem (indices_above [1]) (-1) = Ok 0%nat.
Proof.
  split.
  - apply pmax_none_below. constructor; [unfold sv_threshold; lra|constructor].
  - apply pmax_last_above. split.
    + exists 1. split; [reflexivity|]. unfold sv_threshold. lra.
    + intros [|i] a Hi Ha; [lia|discriminate].
Qed.

Lemma solver_output_flat (kw : rfcalc_kwargs) (args : solver_args) :
  solver_output flat_solver flat_noisy_solver kw args = flat_solver args.
Proof. unfold solver_output. destruct (Req_dec_T (sn kw) 0); reflexivity. Qed.

Lemma rfcalc_returns_pair_or_triple_witness :
  let args := {| a_model := two_layers; a_mtype := 1; a_fs := 25;
                 a_gauss_a := 2.5; a_water_c := 0.0001; a_angle := 35;
                 a_time_shift := 5; a_ndatar := 2; a_v60 := 8.043;
                 a_npt := 2; a_qa := per_layer (QScalar 1450) 2;
                 a_qb := per_layer (QScalar 600) 2 |} in
  let Cd := gram (fun x xp => sqExp x xp 0.01 2.5)
                 (linspace (INR 0 / 25) (INR 1 / 25) 2) in
  solver_arguments two_layers (noisy_kwargs noise_sqExp) = Ok args /\
  noise (noisy_kwargs noise_sqExp) = Some noise_sqExp /\
  noise_sqExp !! "amp_sigma"%string = Some (PNum 0.01) /\
  noise_sqExp !! "corr_time"%string = Some (PNum 2.5) /\
  noise_sqExp !! "kernel"%string = Some (PStr "sqExp") /\
  kernel_of_name "sqExp" = Some sqExp /\
  (0 < ndatar (noisy_kwargs noise_sqExp))%nat /\
  draw_ones tt (zeros 2) Cd = Ok ([1; 1], tt) /\
  rfcalc unit draw_ones flat_solver flat_noisy_solver two_layers
    (noisy_kwargs noise_sqExp) (World [] tt)
  = Ok (RF_triple 0%nat 1%nat Cd,
        World [[INR 0 / 25; INR 1 / 25]; [0 + 1; 0 + 1]] tt).
Proof.
  intros args Cd.
  do 6 (split; [reflexivity|]).
  split; [cbn; lia|]. split; [reflexivity|].
  pose proof (rfcalc_returns_pair_or_triple unit draw_ones flat_solver
                flat_noisy_solver two_layers (noisy_kwargs noise_sqExp)
                (World [] tt) args eq_refl) as (_ & _ & Htriple).
  cbv zeta in Htriple.
  rewrite (solver_output_flat (noisy_kwargs noise_sqExp) args) in Htriple.
  apply (Htriple noise_sqExp "sqExp"%string sqExp 0.01 2.5 [1; 1] tt);
    (reflexivity || (cbn; lia)).
Defined.

Lemma attenuation_broadcast_or_passed_unchecked_witness :
  qmodels short_qa_kwargs = [QArray [1450]; QScalar 600] /\
  exists args,
    solver_arguments two_layers short_qa_kwargs = Ok args /\
    a_npt args = 2%nat /\ a_qa args = [1450] /\ a_qb args = [600; 600] /\
    (noise short_qa_kwargs = None ->
     exists st',
       rfcalc unit draw_ones flat_solver flat_noisy_solver two_layers
         short_qa_kwargs (World [] tt)
       = Ok (RF_pair 0%nat 1%nat, st')).
Proof.
  split; [reflexivity|].
  exact (proj2 (attenuation_broadcast_or_passed_unchecked unit draw_ones
                  flat_solver flat_noisy_solver two_layers short_qa_kwargs
                  (World [] tt) (QArray [1450]) (QScalar 600) [] eq_refl)).
Defined.

(** The claim of C6 fails on the code: a [qa] array of one entry for a
    model of two layers is not rejected; the solver is called with it and
    [rfcalc] returns its pair. *)
Lemma attenuation_length_mismatch_is_not_rejected :
  length two_layers = 2%nat /\
  qmodels short_qa_kwargs = [QArray [1450]; QScalar 600] /\
  (exists args, solver_arguments two_layers short_qa_kwargs = Ok args /\
                a_npt args = 2%nat /\ length (a_qa args) = 1%nat) /\
  rfcalc unit draw_ones flat_solver flat_noisy_solver two_layers
    short_qa_kwargs (World [] tt)
  = Ok (RF_pair 0%nat 1%nat, World [[INR 0 / 25; INR 1 / 25]; [0; 0]] tt).
Proof.
  split; [reflexivity|]. split; [reflexivity|].
  split; [eexists; split; [reflexivity|split; reflexivity]|].
  rewrite (rfcalc_unfold unit draw_ones flat_solver flat_noisy_solver
             two_layers short_qa_kwargs (World [] tt) _ eq_refl).
  cbv zeta. rewrite solver_output_flat. reflexivity.
Qed.

Lemma unknown_kernel_fails_at_first_evaluation_witness :
  let st := World [[0; 0]; [0; 1]] tt in
  noise_boxcar !! "amp_sigma"%string = Some (PNum 0.01) /\
  noise_boxcar !! "corr_time"%string = Some (PNum 2.5) /\
  noise_boxcar !! "kernel"%string = Some (PStr "boxcar") /\
  unknown_kernel (PStr "boxcar") /\
  add_time_domain_noise unit draw_ones 0%nat 1%nat noise_boxcar st
    = Raise UnboundLocalError.
Proof.
  intros st.
  assert (Hunk : unknown_kernel (PStr "boxcar")) by (repeat split).
  assert (Hne : forall a b : R, [a; b] <> []) by discriminate.
  do 3 (split; [reflexivity|]). split; [exact Hunk|].
  exact (unknown_kernel_fails_at_first_evaluation
           unit draw_ones 0%nat 1%nat noise_boxcar st
           (PNum 0.01) (PNum 2.5) (PStr "boxcar") [0; 0] [0; 1]
           eq_refl eq_refl eq_refl Hunk eq_refl eq_refl
           (Hne 0 0) (Hne 0 1)).
Defined.

(** The claim of C7 fails on the code, which has no error of its own for
    a bad configuration.  On empty arrays the call with an unrecognised
    kernel name fails with the [IndexError] of reading [t[0]], the very
    failure a recognised kernel name meets there: the kernel name has not
    been looked at.  On arrays of two samples the failure is the
    [UnboundLocalError] of calling the unbound local [k], raised while the
    matrix is filled. *)
Lemma unknown_kernel_is_not_reported_as_such :
  unknown_kernel (PStr "boxcar") /\
  noise_boxcar !! "kernel"%string = Some (PStr "boxcar") /\
  add_time_domain_noise unit draw_ones 0%nat 1%nat noise_boxcar
    (World [[]; []] tt) = Raise IndexError /\
  add_time_domain_noise unit draw_ones 0%nat 1%nat noise_sqExp
    (World [[]; []] tt) = Raise IndexError /\
  add_time_domain_noise unit draw_ones 0%nat 1%nat noise_boxcar
    (World [[0; 0]; [0; 1]] tt) = Raise UnboundLocalError.
Proof. repeat split. Qed.

Lemma add_time_domain_noise_overwrites_its_argument_witness :
  let st := World [[0; 0]; [0; 1]] tt in
  let K := gram (fun x xp => sqExp x xp 0.01 2.5) (linspace 0 1 2) in
  heap st !! 0%nat = Some [0; 0] /\ heap st !! 1%nat = Some [0; 1] /\
  draw_ones (rng st) (zeros 2) K = Ok ([1; 1], tt) /\
  exists st',
    add_time_domain_noise unit draw_ones 0%nat 1%nat noise_sqExp st
      = Ok ((0%nat, K), st') /\
    heap st' = <[0%nat := zip_with Rplus [0; 0] [1; 1]]> (heap st) /\
    heap st' !! 0%nat = Some (zip_with Rplus [0; 0] [1; 1]) /\
    ((exists i zi, [1; 1] !! i = Some zi /\ zi <> 0) ->
     heap st' !! 0%nat <> Some [0; 0]).
Proof.
  intros st K. do 3 (split; [reflexivity|]).
  exact (proj2 (add_time_domain_noise_overwrites_its_argument unit draw_ones
                  0%nat 1%nat noise_sqExp st)
           "sqExp"%string sqExp 0.01 2.5 [0; 0] [0; 1] 0 1 [1; 1] tt
           eq_refl eq_refl eq_refl eq_refl eq_refl eq_refl eq_refl eq_refl
           eq_refl eq_refl).
Defined.

(** * Further properties of the code *)

(** ** Noise kernels: stationarity and bounds *)

Lemma lag_shift (x xp h : R) : x + h - (xp + h) = x - xp.
Proof. ring. Qed.

(** X1. Each of the five kernels depends on its two points only through
    their difference: shifting both points by the same amount changes
    nothing. *)
Theorem kernels_depend_on_lag_only (x xp h s1 rho period : R) :
  sqExp (x + h) (xp + h) s1 rho = sqExp x xp s1 rho /\
  matern0 (x + h) (xp + h) s1 rho = matern0 x xp s1 rho /\
  matern1 (x + h) (xp + h) s1 rho = matern1 x xp s1 rho /\
  matern2 (x + h) (xp + h) s1 rho = matern2 x xp s1 rho /\
  periodic (x + h) (xp + h) s1 rho period = periodic x xp s1 rho period.
Proof.
  unfold sqExp, matern0, matern1, matern2, periodic.
  rewrite !lag_shift. repeat split; reflexivity.
Qed.

Lemma exp_le_one (e : R) : e <= 0 -> exp e <= 1.
Proof.
  intros [Hlt| ->].
  - rewrite <- exp_0. left. now apply exp_increasing.
  - rewrite exp_0. lra.
Qed.

Lemma div_nonneg (a b : R) : 0 <= a -> 0 < b -> 0 <= a / b.
Proof.
  intros Ha Hb. unfold Rdiv. apply Rmult_le_pos; [exact Ha|].
  left. now apply Rinv_0_lt_compat.
Qed.

(** A weight in [[0, 1]] keeps the variance as bound. *)
Lemma scaled_variance_bound (s1 c : R) :
  0 <= c <= 1 -> 0 <= s1 ^ 2 * c <= s1 ^ 2.
Proof. intros [H0 H1]. pose proof (pow2_ge_0 s1). nra. Qed.

Lemma tail_weight_one (a : R) : 0 <= a -> 0 <= (1 + a) * exp (- a) <= 1.
Proof.
  intros Ha. pose proof (exp_pos (- a)) as Hpos.
  pose proof (exp_ineq1_le a) as Hle.
  assert (Hinv : exp a * exp (- a) = 1).
  { rewrite <- exp_plus. replace (a + - a) with 0 by ring. apply exp_0. }
  split; [nra|]. rewrite <- Hinv. nra.
Qed.

Lemma exp_cubic_bound (a : R) : 0 <= a -> 1 + a + a * a / 3 <= exp a.
Proof.
  intros Ha. pose proof (exp_ineq1_le (a / 3)) as Hb.
  assert (Hexp : exp a = exp (a / 3) * exp (a / 3) * exp (a / 3)).
  { rewrite <- !exp_plus. f_equal. lra. }
  set (b := exp (a / 3)) in *. set (c := a / 3) in *.
  assert (Hc : 0 <= c) by (unfold c; lra).
  assert (Ha3 : a = 3 * c) by (unfold c; lra).
  assert (Hbc : 1 + c <= b) by exact Hb.
  assert (Hsq : (1 + c) * (1 + c) <= b * b) by nra.
  assert (Hcu : (1 + c) * (1 + c) * (1 + c) <= b * b * b) by nra.
  rewrite Hexp, Ha3. nra.
Qed.

Lemma tail_weight_two (a : R) :
  0 <= a -> 0 <= (1 + a + a * a / 3) * exp (- a) <= 1.
Proof.
  intros Ha. pose proof (exp_pos (- a)) as Hpos.
  pose proof (exp_cubic_bound a Ha) as Hle.
  assert (Hinv : exp a * exp (- a) = 1).
  { rewrite <- exp_plus. replace (a + - a) with 0 by ring. apply exp_0. }
  split; [nra|]. rewrite <- Hinv. nra.
Qed.

Lemma sqExp_bounds x xp s1 rho :
  0 < rho -> 0 <= sqExp x xp s1 rho <= s1 ^ 2.
Proof.
  intros Hrho. unfold sqExp. apply scaled_variance_bound.
  split; [left; apply exp_pos|]. apply exp_le_one.
  assert (H : 0 <= (x - xp) ^ 2 / (2 * rho ^ 2)).
  { apply div_nonneg; [apply pow2_ge_0|]. nra. }
  unfold Rdiv in *. lra.
Qed.

Lemma matern0_bounds x xp s1 rho :
  0 < rho -> 0 <= matern0 x xp s1 rho <= s1 ^ 2.
Proof.
  intros Hrho. unfold matern0. apply scaled_variance_bound.
  split; [left; apply exp_pos|]. apply exp_le_one.
  assert (H : 0 <= Rabs (x - xp) / rho)
    by (apply div_nonneg; [apply Rabs_pos|exact Hrho]).
  unfold Rdiv in *. lra.
Qed.

Lemma matern1_bounds x xp s1 rho :
  0 < rho -> 0 <= matern1 x xp s1 rho <= s1 ^ 2.
Proof.
  intros Hrho. unfold matern1.
  set (a := sqrt 3 * Rabs (x - xp) / rho).
  assert (Ha : 0 <= a).
  { apply div_nonneg; [|exact Hrho].
    apply Rmult_le_pos; [apply sqrt_pos|apply Rabs_pos]. }
  replace (- sqrt 3 * Rabs (x - xp) / rho) with (- a)
    by (unfold a, Rdiv; ring).
  rewrite Rmult_assoc. apply scaled_variance_bound, tail_weight_one, Ha.
Qed.

Lemma matern2_bounds x xp s1 rho :
  0 < rho -> 0 <= matern2 x xp s1 rho <= s1 ^ 2.
Proof.
  intros Hrho. unfold matern2.
  set (a := sqrt 5 * Rabs (x - xp) / rho).
  assert (Ha : 0 <= a).
  { apply div_nonneg; [|exact Hrho].
    apply Rmult_le_pos; [apply sqrt_pos|apply Rabs_pos]. }
  replace (- sqrt 5 * Rabs (x - xp) / rho) with (- a)
    by (unfold a, Rdiv; ring).
  replace (5 * (x - xp) ^ 2 / (3 * rho ^ 2)) with (a * a / 3).
  - rewrite Rmult_assoc. apply scaled_variance_bound, tail_weight_two, Ha.
  - unfold a.
    replace (sqrt 5 * Rabs (x - xp) / rho * (sqrt 5 * Rabs (x - xp) / rho))
      with ((sqrt 5 * sqrt 5) * (Rabs (x - xp) ^ 2) / (rho * rho))
      by (field; lra).
    rewrite sqrt_sqrt by lra. rewrite pow2_abs. field. lra.
Qed.

Lemma periodic_bounds x xp s1 rho period :
  0 < rho -> 0 <= periodic x xp s1 rho period <= s1 ^ 2.
Proof.
  intros Hrho. unfold periodic. apply scaled_variance_bound.
  split; [left; apply exp_pos|]. apply exp_le_one.
  assert (H : 0 <= 2 * sin (Rabs (x - xp) * PI / period) ^ 2 / rho ^ 2).
  { apply div_nonneg; [|nra].
    pose proof (pow2_ge_0 (sin (Rabs (x - xp) * PI / period))). lra. }
  unfold Rdiv in *. lra.
Qed.

(** X2. For a positive correlation time every kernel value lies between
    0 and the variance [s1 ^ 2], the value at zero lag. *)
Theorem kernels_between_zero_and_variance (x xp s1 rho period : R) :
  0 < rho ->
  0 <= sqExp x xp s1 rho <= s1 ^ 2 /\
  0 <= matern0 x xp s1 rho <= s1 ^ 2 /\
  0 <= matern1 x xp s1 rho <= s1 ^ 2 /\
  0 <= matern2 x xp s1 rho <= s1 ^ 2 /\
  0 <= periodic x xp s1 rho period <= s1 ^ 2.
Proof.
  intros Hrho.
  split; [now apply sqExp_bounds|]. split; [now apply matern0_bounds|].
  split; [now apply matern1_bounds|]. split; [now apply matern2_bounds|].
  now apply periodic_bounds.
Qed.

Lemma kernels_between_zero_and_variance_witness :
  0 < 2.5 /\
  0 <= matern2 0 1 0.01 2.5 <= 0.01 ^ 2.
Proof.
  assert (H : 0 < 2.5) by lra. split; [exact H|].
  exact (proj1 (proj2 (proj2 (proj2
           (kernels_between_zero_and_variance 0 1 0.01 2.5 10 H))))).
Defined.

(** ** The time-domain noise injector *)

Lemma length_linspace (t0 tlast : R) (n : nat) :
  length (linspace t0 tlast n) = n.
Proof.
  destruct n as [|[|n]]; [reflexivity..|].
  unfold linspace. now rewrite length_map, length_seq.
Qed.

Lemma kernel_of_name_cases (name : string) (k : R -> R -> R -> R -> R) :
  kernel_of_name name = Some k ->
  k = sqExp \/ k = matern0 \/ k = matern1 \/ k = matern2.
Proof.
  unfold kernel_of_name.
  destruct (String.eqb name "sqExp"); [intros [= <-]; auto|].
  destruct (String.eqb name "matern0"); [intros [= <-]; auto|].
  destruct (String.eqb name "matern1"); [intros [= <-]; auto|].
  destruct (String.eqb name "matern2"); [intros [= <-]; auto|].
  discriminate.
Qed.

Lemma entry_gram (f : R -> R -> R) (xx : list R) (i j : nat) :
  (i < length xx)%nat -> (j < length xx)%nat ->
  entry (gram f xx) i j = f (nth i xx 0) (nth j xx 0).
Proof.
  intros Hi Hj. unfold entry, gram. cbn [rows].
  destruct (lookup_lt_is_Some_2 xx i Hi) as [xi Hxi].
  destruct (lookup_lt_is_Some_2 xx j Hj) as [xj Hxj].
  rewrite (nth_lookup _ i), list_lookup_fmap, Hxi. cbn.
  rewrite (nth_lookup _ j), list_lookup_fmap, Hxj. cbn.
  now rewrite (nth_lookup xx i), (nth_lookup xx j), Hxi, Hxj.
Qed.

Section InjectorFacts.

Variable RNG : Type.
Variable multivariate_normal : RNG -> list R -> matrix -> res (list R * RNG).

(** What a successful run has read on its way. *)
Lemma add_time_domain_noise_inv_kernel (w t : loc) (nz : gmap string pyval)
    (st st' : world RNG) (r : loc) (K : matrix) :
  add_time_domain_noise RNG multivariate_normal w t nz st = Ok ((r, K), st') ->
  exists amp corr name wv tv t0 tlast,
    nz !! "amp_sigma"%string = Some amp /\
    nz !! "corr_time"%string = Some corr /\
    nz !! "kernel"%string = Some name /\
    heap st !! w = Some wv /\ heap st !! t = Some tv /\
    head tv = Some t0 /\ last tv = Some tlast /\
    kernel_matrix (bind_kernel name amp corr)
      (linspace t0 tlast (length wv)) = Ok K.
Proof.
  unfold add_time_domain_noise, mbind, M_bind, lift, dict_get, load.
  destruct (nz !! "amp_sigma"%string) as [amp|]; [|discriminate].
  destruct (nz !! "corr_time"%string) as [corr|]; [|discriminate].
  destruct (nz !! "kernel"%string) as [name|]; [|discriminate].
  destruct (heap st !! w) as [wv|] eqn:Hw; [|discriminate].
  destruct (heap st !! t) as [tv|]; [|discriminate].
  rewrite getitem_first, getitem_last.
  destruct (head tv) as [t0|] eqn:Hhd; [|discriminate].
  destruct (last tv) as [tlast|] eqn:Hlast; [|discriminate].
  destruct (kernel_matrix _ _) as [K0|] eqn:HK; [|discriminate].
  unfold draw.
  destruct (multivariate_normal _ _ _) as [[z g]|]; [|discriminate].
  cbn [heap]. rewrite Hw.
  destruct (np_iadd wv z) as [wv'|]; [|discriminate].
  unfold store, mret, M_ret. intros H. injection H as <- <- <-.
  exists amp, corr, name, wv, tv, t0, tlast.
  repeat split; (reflexivity || assumption).
Qed.

(** X3. The covariance matrix the injector returns for one of the kernels
    it evaluates, with a positive correlation time, is square of the
    waveform's length, symmetric, has the variance [amp_sigma ^ 2] on its
    diagonal, and all its entries lie between 0 and that variance. *)
Theorem injector_covariance_is_symmetric_and_bounded
    (w t : loc) (nz : gmap string pyval) (st st' : world RNG)
    (kname : string) (k : R -> R -> R -> R -> R) (amp_sigma corr_time : R)
    (wv : list R) (r : loc) (K : matrix) :
  nz !! "amp_sigma"%string = Some (PNum amp_sigma) ->
  nz !! "corr_time"%string = Some (PNum corr_time) ->
  nz !! "kernel"%string = Some (PStr kname) ->
  kernel_of_name kname = Some k ->
  0 < corr_time ->
  heap st !! w = Some wv ->
  add_time_domain_noise RNG multivariate_normal w t nz st = Ok ((r, K), st') ->
  nrows K = length wv /\ ncols K = length wv /\
  forall i j, (i < length wv)%nat -> (j < length wv)%nat ->
    entry K i j = entry K j i /\
    entry K i i = amp_sigma ^ 2 /\
    0 <= entry K i j <= amp_sigma ^ 2.
Proof.
  intros Hamp Hcorr Hname Hk Hrho Hw Hrun.
  apply add_time_domain_noise_inv_kernel in Hrun
    as (amp & corr & name & wv0 & tv & t0 & tlast
        & Ha & Hc & Hn & Hw0 & _ & _ & _ & HK).
  rewrite Hamp in Ha. rewrite Hcorr in Hc. rewrite Hname in Hn.
  rewrite Hw in Hw0.
  injection Ha as <-. injection Hc as <-. injection Hn as <-.
  injection Hw0 as <-.
  rewrite (kernel_matrix_known kname k _ _ _ Hk) in HK. injection HK as <-.
  set (xx := linspace t0 tlast (length wv)).
  assert (Hxx : length xx = length wv) by apply length_linspace.
  split; [unfold nrows, gram; cbn; now rewrite length_map|].
  split; [exact Hxx|].
  intros i j Hi Hj. rewrite <- Hxx in Hi, Hj.
  rewrite !entry_gram by assumption.
  assert (Hne : corr_time <> 0) by lra.
  destruct (kernel_of_name_cases kname k Hk) as [->|[->|[->| ->]]].
  - auto using sqExp_sym, sqExp_zero_lag, sqExp_bounds.
  - auto using matern0_sym, matern0_zero_lag, matern0_bounds.
  - auto using matern1_sym, matern1_zero_lag, matern1_bounds.
  - auto using matern2_sym, matern2_zero_lag, matern2_bounds.
Qed.

(** X4. A dictionary that lacks one of the keys [amp_sigma], [corr_time]
    and [kernel] makes the injector fail with [KeyError], whatever the
    arrays are. *)
Theorem missing_noise_key_is_a_key_error
    (w t : loc) (nz : gmap string pyval) (st : world RNG) :
  nz !! "amp_sigma"%string = None \/ nz !! "corr_time"%string = None \/
  nz !! "kernel"%string = None ->
  add_time_domain_noise RNG multivariate_normal w t nz st = Raise KeyError.
Proof.
  intros H. unfold add_time_domain_noise, mbind, M_bind, lift, dict_get.
  destruct (nz !! "amp_sigma"%string); [|reflexivity].
  destruct (nz !! "corr_time"%string); [|reflexivity].
  destruct (nz !! "kernel"%string); [|reflexivity].
  destruct H as [H|[H|H]]; discriminate.
Qed.

(** X5. On an empty time array the injector fails with [IndexError] for
    every kernel name, recognised or not: [t[0]] is read before any kernel
    value is computed. *)
Theorem empty_time_array_is_an_index_error
    (w t : loc) (nz : gmap string pyval) (st : world RNG)
    (amp corr name : pyval) (wv : list R) :
  nz !! "amp_sigma"%string = Some amp ->
  nz !! "corr_time"%string = Some corr ->
  nz !! "kernel"%string = Some name ->
  heap st !! w = Some wv -> heap st !! t = Some [] ->
  add_time_domain_noise RNG multivariate_normal w t nz st = Raise IndexError.
Proof.
  intros Hamp Hcorr Hname Hw Ht.
  unfold add_time_domain_noise, mbind, M_bind, lift, dict_get, load.
  rewrite Hamp, Hcorr, Hname, Hw, Ht. reflexivity.
Qed.

(** X6. Of the time array the injector uses the first and the last entry
    only: two time arrays with the same end points give the same outcome,
    whatever lies between. *)
Theorem injector_reads_end_points_of_time_only
    (w t t' : loc) (nz : gmap string pyval) (st : world RNG)
    (tv tv' : list R) :
  heap st !! t = Some tv -> heap st !! t' = Some tv' ->
  head tv = head tv' -> last tv = last tv' ->
  add_time_domain_noise RNG multivariate_normal w t nz st
  = add_time_domain_noise RNG multivariate_normal w t' nz st.
Proof.
  intros Ht Ht' Hhd Hlast.
  unfold add_time_domain_noise, mbind, M_bind, lift, dict_get, load.
  destruct (nz !! "amp_sigma"%string); [|reflexivity].
  destruct (nz !! "corr_time"%string); [|reflexivity].
  destruct (nz !! "kernel"%string); [|reflexivity].
  destruct (heap st !! w); [|reflexivity].
  rewrite Ht, Ht', !getitem_first, !getitem_last, Hhd, Hlast.
  reflexivity.
Qed.

Lemma linspace_uniform (t0 dt : R) (n : nat) :
  linspace t0 (t0 + INR (n - 1) * dt) n
  = map (fun i => t0 + INR i * dt) (seq 0 n).
Proof.
  destruct n as [|[|m]].
  - reflexivity.
  - cbn. f_equal. ring.
  - unfold linspace. apply map_ext. intros i.
    replace (S (S m) - 1)%nat with (S m) by lia.
    assert (Hm : INR (S m) <> 0) by (apply not_0_INR; lia).
    field. exact Hm.
Qed.

(** X7. When the time array is uniformly spaced and as long as the
    waveform, the points the kernel is evaluated at are the sample times:
    the covariance returned is the kernel's matrix over the time array. *)
Theorem injector_on_uniform_time_axis
    (w t : loc) (nz : gmap string pyval) (st st' : world RNG)
    (kname : string) (k : R -> R -> R -> R -> R) (amp_sigma corr_time : R)
    (wv : list R) (t0 dt : R) (r : loc) (K : matrix) :
  nz !! "amp_sigma"%string = Some (PNum amp_sigma) ->
  nz !! "corr_time"%string = Some (PNum corr_time) ->
  nz !! "kernel"%string = Some (PStr kname) ->
  kernel_of_name kname = Some k ->
  heap st !! w = Some wv ->
  heap st !! t = Some (map (fun i => t0 + INR i * dt) (seq 0 (length wv))) ->
  add_time_domain_noise RNG multivariate_normal w t nz st = Ok ((r, K), st') ->
  K = gram (fun x xp => k x xp amp_sigma corr_time)
           (map (fun i => t0 + INR i * dt) (seq 0 (length wv))).
Proof.
  intros Hamp Hcorr Hname Hk Hw Ht Hrun.
  apply add_time_domain_noise_inv_kernel in Hrun
    as (amp & corr & name & wv0 & tv & a & b
        & Ha & Hc & Hn & Hw0 & Ht0 & Hhd & Hlast & HK).
  rewrite Hamp in Ha. rewrite Hcorr in Hc. rewrite Hname in Hn.
  rewrite Hw in Hw0. rewrite Ht in Ht0.
  injection Ha as <-. injection Hc as <-. injection Hn as <-.
  injection Hw0 as <-. injection Ht0 as <-.
  rewrite (kernel_matrix_known kname k _ _ _ Hk) in HK. injection HK as <-.
  destruct (length wv) as [|n] eqn:Hlen; [discriminate|].
  rewrite (head_map_seq (fun i => t0 + INR i * dt)) in Hhd by lia.
  rewrite (last_map_seq (fun i => t0 + INR i * dt)) in Hlast by lia.
  injection Hhd as <-. injection Hlast as <-.
  f_equal. rewrite <- (linspace_uniform t0 dt (S n)).
  f_equal; try ring.
Qed.

End InjectorFacts.

Lemma sample_injector_run :
  add_time_domain_noise unit draw_ones 0%nat 1%nat noise_sqExp
    (World [[0; 0]; [0; 1]] tt)
  = Ok ((0%nat, gram (fun x xp => sqExp x xp 0.01 2.5) (linspace 0 1 2)),
        World (<[0%nat := zip_with Rplus [0; 0] [1; 1]]> [[0; 0]; [0; 1]]) tt).
Proof.
  exact (add_time_domain_noise_success unit draw_ones 0%nat 1%nat
           noise_sqExp (World [[0; 0]; [0; 1]] tt) "sqExp"%string sqExp
           0.01 2.5 [0; 0] [0; 1] 0 1 [1; 1] tt
           eq_refl eq_refl eq_refl eq_refl eq_refl eq_refl eq_refl eq_refl
           eq_refl eq_refl).
Qed.

Lemma injector_covariance_is_symmetric_and_bounded_witness :
  let K := gram (fun x xp => sqExp x xp 0.01 2.5) (linspace 0 1 2) in
  0 < 2.5 /\
  nrows K = 2%nat /\ ncols K = 2%nat /\
  forall i j, (i < 2)%nat -> (j < 2)%nat ->
    entry K i j = entry K j i /\
    entry K i i = 0.01 ^ 2 /\
    0 <= entry K i j <= 0.01 ^ 2.
Proof.
  intros K. assert (H : 0 < 2.5) by lra. split; [exact H|].
  exact (injector_covariance_is_symmetric_and_bounded unit draw_ones
           0%nat 1%nat noise_sqExp (World [[0; 0]; [0; 1]] tt) _
           "sqExp"%string sqExp 0.01 2.5 [0; 0] 0%nat K
           eq_refl eq_refl eq_refl eq_refl H eq_refl sample_injector_run).
Defined.

Lemma missing_noise_key_is_a_key_error_witness :
  (∅ : gmap string pyval) !! "amp_sigma"%string = None /\
  add_time_domain_noise unit draw_ones 0%nat 1%nat ∅
    (World [[0; 0]; [0; 1]] tt) = Raise KeyError.
Proof.
  split; [reflexivity|].
  apply (missing_noise_key_is_a_key_error unit draw_ones). left. reflexivity.
Defined.

Lemma empty_time_array_is_an_index_error_witness :
  heap (World [[0; 0]; []] tt) !! 1%nat = Some [] /\
  add_time_domain_noise unit draw_ones 0%nat 1%nat noise_sqExp
    (World [[0; 0]; []] tt) = Raise IndexError.
Proof.
  split; [reflexivity|].
  exact (empty_time_array_is_an_index_error unit draw_ones 0%nat 1%nat
           noise_sqExp (World [[0; 0]; []] tt)
           (PNum 0.01) (PNum 2.5) (PStr "sqExp") [0; 0]
           eq_refl eq_refl eq_refl eq_refl eq_refl).
Defined.

Lemma injector_reads_end_points_of_time_only_witness :
  let st := World [[0; 0; 0]; [0; 0.3; 1]; [0; 0.9; 1]] tt in
  head [0; 0.3; 1] = head [0; 0.9; 1] /\
  last [0; 0.3; 1] = last [0; 0.9; 1] /\
  add_time_domain_noise unit draw_ones 0%nat 1%nat noise_sqExp st
  = add_time_domain_noise unit draw_ones 0%nat 2%nat noise_sqExp st.
Proof.
  intros st. split; [reflexivity|]. split; [reflexivity|].
  exact (injector_reads_end_points_of_time_only unit draw_ones
           0%nat 1%nat 2%nat noise_sqExp st [0; 0.3; 1] [0; 0.9; 1]
           eq_refl eq_refl eq_refl eq_refl).
Defined.

Lemma injector_on_uniform_time_axis_witness :
  let tv := map (fun i => 0 + INR i * 1) (seq 0 2) in
  let st := World [[0; 0]; tv] tt in
  let K := gram (fun x xp => sqExp x xp 0.01 2.5)
                (linspace (0 + INR 0 * 1) (0 + INR 1 * 1) 2) in
  heap st !! 1%nat = Some tv /\
  add_time_domain_noise unit draw_ones 0%nat 1%nat noise_sqExp st
    = Ok ((0%nat, K),
          World (<[0%nat := zip_with Rplus [0; 0] [1; 1]]> (heap st)) tt) /\
  K = gram (fun x xp => sqExp x xp 0.01 2.5) tv.
Proof.
  intros tv st K.
  assert (Hrun : add_time_domain_noise unit draw_ones 0%nat 1%nat noise_sqExp st
    = Ok ((0%nat, K),
          World (<[0%nat := zip_with Rplus [0; 0] [1; 1]]> (heap st)) tt)).
  { exact (add_time_domain_noise_success unit draw_ones 0%nat 1%nat
             noise_sqExp st "sqExp"%string sqExp 0.01 2.5 [0; 0] tv
             (0 + INR 0 * 1) (0 + INR 1 * 1) [1; 1] tt
             eq_refl eq_refl eq_refl eq_refl eq_refl eq_refl eq_refl eq_refl
             eq_refl eq_refl). }
  split; [reflexivity|]. split; [exact Hrun|].
  exact (injector_on_uniform_time_axis unit draw_ones 0%nat 1%nat
           noise_sqExp st _ "sqExp"%string sqExp 0.01 2.5 [0; 0] 0 1
           0%nat K eq_refl eq_refl eq_refl eq_refl eq_refl eq_refl Hrun).
Defined.

(** ** The adapter *)

Section RfcalcFacts.

Variable RNG : Type.
Variable multivariate_normal : RNG -> list R -> matrix -> res (list R * RNG).
Variable rfcalc_nonoise : solver_args -> nat -> R * R.
Variable rfcalc_noise : solver_args -> R -> Z -> nat -> R * R.

Lemma rfcalc_arguments_fail (model : layered_model) (kw : rfcalc_kwargs)
    (st : world RNG) (e : exn) :
  solver_arguments model kw = Raise e ->
  rfcalc RNG multivariate_normal rfcalc_nonoise rfcalc_noise model kw st
  = Raise e.
Proof.
  intros H. unfold rfcalc, mbind, M_bind, alloc, lift. now rewrite H.
Qed.

(** X8. [rfcalc] works on two buffers of its own: whenever it returns,
    the arrays that were in the store are all there unchanged, exactly
    two arrays have been added, and these two are the time and waveform
    it returns. *)
Theorem rfcalc_leaves_existing_arrays_alone
    (model : layered_model) (kw : rfcalc_kwargs) (st st' : world RNG)
    (r : rf_result) :
  rfcalc RNG multivariate_normal rfcalc_nonoise rfcalc_noise model kw st
    = Ok (r, st') ->
  take (length (heap st)) (heap st') = heap st /\
  length (heap st') = (length (heap st) + 2)%nat /\
  (r = RF_pair (length (heap st)) (S (length (heap st))) \/
   exists Cd, r = RF_triple (length (heap st)) (S (length (heap st))) Cd).
Proof.
  intros Hrun.
  destruct (solver_arguments model kw) as [args|e] eqn:Hargs.
  2:{ rewrite (rfcalc_arguments_fail model kw st e Hargs) in Hrun.
      discriminate. }
  rewrite (rfcalc_unfold RNG multivariate_normal rfcalc_nonoise rfcalc_noise
             model kw st args Hargs) in Hrun.
  cbv zeta in Hrun.
  destruct (noise kw) as [nz|].
  - destruct (add_time_domain_noise _ _ _ _ _ _) as [[[w Cd] st'']|e] eqn:Hadd;
      [|discriminate].
    injection Hrun as <- <-.
    apply add_time_domain_noise_inv in Hadd
      as (-> & wv & z & wv' & _ & _ & _ & Hheap).
    cbn [heap] in Hheap. rewrite Hheap.
    split; [|split; [|right; eauto]].
    + rewrite take_insert_ge by lia. apply take_app_length.
    + rewrite length_insert, length_app. reflexivity.
  - injection Hrun as <- <-. cbn [heap].
    split; [apply take_app_length|].
    split; [rewrite length_app; reflexivity|left; reflexivity].
Qed.

(** X9. A [qmodels] sequence with fewer than two entries makes the call
    fail with [IndexError]. *)
Theorem too_few_qmodels_is_an_index_error
    (model : layered_model) (kw : rfcalc_kwargs) (st : world RNG) :
  (length (qmodels kw) < 2)%nat ->
  rfcalc RNG multivariate_normal rfcalc_nonoise rfcalc_noise model kw st
  = Raise IndexError.
Proof.
  intros Hlen. apply rfcalc_arguments_fail. unfold solver_arguments.
  destruct (qmodels kw) as [|q0 [|q1 rest]]; [reflexivity..|].
  cbn in Hlen. lia.
Qed.

(** X10. With [sn = 0] the noiseless entry point of the solver is called
    and the seed plays no part: any two seeds give the same outcome. *)
Theorem seed_is_unused_without_frequency_noise
    (model : layered_model) (kw : rfcalc_kwargs) (s : Z) (st : world RNG) :
  sn kw = 0 ->
  rfcalc RNG multivariate_normal rfcalc_nonoise rfcalc_noise model kw st
  = rfcalc RNG multivariate_normal rfcalc_nonoise rfcalc_noise model
      (with_seed kw s) st.
Proof.
  intros Hsn.
  assert (Hargs : solver_arguments model (with_seed kw s)
                  = solver_arguments model kw) by reflexivity.
  destruct (solver_arguments model kw) as [args|e] eqn:Hk.
  - rewrite (rfcalc_unfold RNG multivariate_normal rfcalc_nonoise
               rfcalc_noise model kw st args Hk).
    rewrite (rfcalc_unfold RNG multivariate_normal rfcalc_nonoise
               rfcalc_noise model (with_seed kw s) st args Hargs).
    cbv zeta. cbn [with_seed noise ndatar].
    assert (Hout : solver_output rfcalc_nonoise rfcalc_noise (with_seed kw s) args
                   = solver_output rfcalc_nonoise rfcalc_noise kw args).
    { unfold solver_output. cbn [with_seed sn seed].
      destruct (Req_dec_T (sn kw) 0); [reflexivity|contradiction]. }
    rewrite Hout. reflexivity.
  - rewrite (rfcalc_arguments_fail model kw st e Hk).
    now rewrite (rfcalc_arguments_fail model (with_seed kw s) st e Hargs).
Qed.

(** The failures of the injector that depend on the dictionary and the
    array lengths alone. *)
Lemma injector_fails_on_empty_time
    (w t : loc) (nz : gmap string pyval) (st : world RNG)
    (amp corr name : pyval) (wv : list R) :
  nz !! "amp_sigma"%string = Some amp ->
  nz !! "corr_time"%string = Some corr ->
  nz !! "kernel"%string = Some name ->
  heap st !! w = Some wv -> heap st !! t = Some [] ->
  add_time_domain_noise RNG multivariate_normal w t nz st = Raise IndexError.
Proof.
  intros Hamp Hcorr Hname Hw Ht.
  unfold add_time_domain_noise, mbind, M_bind, lift, dict_get, load.
  rewrite Hamp, Hcorr, Hname, Hw, Ht. reflexivity.
Qed.

Lemma injector_fails_on_bad_kernel
    (w t : loc) (nz : gmap string pyval) (st : world RNG)
    (amp corr name : pyval) (wv tv : list R) :
  nz !! "amp_sigma"%string = Some amp ->
  nz !! "corr_time"%string = Some corr ->
  nz !! "kernel"%string = Some name ->
  heap st !! w = Some wv -> heap st !! t = Some tv ->
  wv <> [] -> tv <> [] ->
  (unknown_kernel name ->
   add_time_domain_noise RNG multivariate_normal w t nz st
     = Raise UnboundLocalError) /\
  (str_eq name "periodic" = true ->
   add_time_domain_noise RNG multivariate_normal w t nz st
     = Raise TypeError).
Proof.
  intros Hamp Hcorr Hname Hw Ht Hwv Htv.
  destruct tv as [|t0 tv']; [congruence|].
  destruct (last (t0 :: tv')) as [tlast|] eqn:Hlast;
    [|apply last_None in Hlast; discriminate].
  destruct (linspace_cons t0 tlast (length wv)) as (x & xx & Hxx).
  { destruct wv; [congruence|cbn; lia]. }
  split; intros Hk;
    rewrite (add_time_domain_noise_unfold RNG multivariate_normal w t nz st
               amp corr name wv (t0 :: tv') t0 tlast)
      by (assumption || reflexivity);
    rewrite Hxx.
  - rewrite (bind_kernel_unknown name amp corr Hk).
    now rewrite (kernel_matrix_first_call None x xx UnboundLocalError).
  - rewrite (bind_kernel_periodic name amp corr Hk).
    now rewrite (kernel_matrix_first_call _ x xx TypeError).
Qed.

Lemma rfcalc_with_noise (model : layered_model) (kw : rfcalc_kwargs)
    (st : world RNG) (q0 q1 : qspec) (rest : list qspec)
    (nz : gmap string pyval) :
  qmodels kw = q0 :: q1 :: rest -> noise kw = Some nz ->
  exists time clean,
    length time = ndatar kw /\ length clean = ndatar kw /\
    rfcalc RNG multivariate_normal rfcalc_nonoise rfcalc_noise model kw st =
    match add_time_domain_noise RNG multivariate_normal
            (S (length (heap st))) (length (heap st)) nz
            (World (heap st ++ [time; clean]) (rng st)) with
    | Ok ((w, Cd), st') => Ok (RF_triple (length (heap st)) w Cd, st')
    | Raise e => Raise e
    end.
Proof.
  intros Hq Hnz.
  pose proof (solver_arguments_ok model kw q0 q1 rest Hq) as Hargs.
  rewrite (rfcalc_unfold RNG multivariate_normal rfcalc_nonoise rfcalc_noise
             model kw st _ Hargs), Hnz.
  cbv zeta. eexists _, _. split; [|split; [|reflexivity]];
    now rewrite length_map, length_seq.
Qed.

Lemma lookup_two_appended {A : Type} (l : list A) (a b : A) :
  (l ++ [a; b]) !! length l = Some a /\ (l ++ [a; b]) !! S (length l) = Some b.
Proof.
  split.
  - rewrite lookup_app_r by lia. now rewrite Nat.sub_diag.
  - rewrite lookup_app_r by lia.
    now replace (S (length l) - length l)%nat with 1%nat by lia.
Qed.

(** X11. Asking for time-domain noise on a waveform of no sample
    ([ndatar = 0]) fails with [IndexError], for every kernel name. *)
Theorem noise_on_no_sample_is_an_index_error
    (model : layered_model) (kw : rfcalc_kwargs) (st : world RNG)
    (q0 q1 : qspec) (rest : list qspec)
    (nz : gmap string pyval) (amp corr name : pyval) :
  qmodels kw = q0 :: q1 :: rest -> noise kw = Some nz ->
  nz !! "amp_sigma"%string = Some amp ->
  nz !! "corr_time"%string = Some corr ->
  nz !! "kernel"%string = Some name ->
  ndatar kw = 0%nat ->
  rfcalc RNG multivariate_normal rfcalc_nonoise rfcalc_noise model kw st
  = Raise IndexError.
Proof.
  intros Hq Hnz Hamp Hcorr Hname Hn.
  destruct (rfcalc_with_noise model kw st q0 q1 rest nz Hq Hnz)
    as (time & clean & Htime & Hclean & ->).
  rewrite Hn in Htime. destruct time; [|discriminate].
  destruct (lookup_two_appended (heap st) [] clean) as [Ht Hw].
  now rewrite (injector_fails_on_empty_time (S (length (heap st)))
                 (length (heap st)) nz
                 (World (heap st ++ [[]; clean]) (rng st))
                 amp corr name clean Hamp Hcorr Hname Hw Ht).
Qed.

(** X12. With at least one sample, a noise dictionary whose kernel name is
    not recognised makes [rfcalc] fail with [UnboundLocalError], and the
    name [periodic] makes it fail with [TypeError]: nothing is returned. *)
Theorem noise_with_bad_kernel_fails_rfcalc
    (model : layered_model) (kw : rfcalc_kwargs) (st : world RNG)
    (q0 q1 : qspec) (rest : list qspec)
    (nz : gmap string pyval) (amp corr name : pyval) :
  qmodels kw = q0 :: q1 :: rest -> noise kw = Some nz ->
  nz !! "amp_sigma"%string = Some amp ->
  nz !! "corr_time"%string = Some corr ->
  nz !! "kernel"%string = Some name ->
  (0 < ndatar kw)%nat ->
  (unknown_kernel name ->
   rfcalc RNG multivariate_normal rfcalc_nonoise rfcalc_noise model kw st
   = Raise UnboundLocalError) /\
  (str_eq name "periodic" = true ->
   rfcalc RNG multivariate_normal rfcalc_nonoise rfcalc_noise model kw st
   = Raise TypeError).
Proof.
  intros Hq Hnz Hamp Hcorr Hname Hn.
  destruct (rfcalc_with_noise model kw st q0 q1 rest nz Hq Hnz)
    as (time & clean & Htime & Hclean & ->).
  destruct (lookup_two_appended (heap st) time clean) as [Ht Hw].
  assert (Hne : forall l : list R, length l = ndatar kw -> l <> []).
  { intros [|x l] Hl; [cbn in Hl; lia|discriminate]. }
  destruct (injector_fails_on_bad_kernel (S (length (heap st)))
              (length (heap st)) nz
              (World (heap st ++ [time; clean]) (rng st))
              amp corr name clean time
              Hamp Hcorr Hname Hw Ht (Hne _ Hclean) (Hne _ Htime))
    as [Hunk Hper].
  split; intros Hk; [rewrite (Hunk Hk)|rewrite (Hper Hk)]; reflexivity.
Qed.

End RfcalcFacts.

Lemma sample_rfcalc_run :
  rfcalc unit draw_ones flat_solver flat_noisy_solver two_layers
    short_qa_kwargs (World [[7; 8]] tt)
  = Ok (RF_pair 1%nat 2%nat,
        World [[7; 8]; [INR 0 / 25; INR 1 / 25]; [0; 0]] tt).
Proof.
  rewrite (rfcalc_unfold unit draw_ones flat_solver flat_noisy_solver
             two_layers short_qa_kwargs (World [[7; 8]] tt) _ eq_refl).
  cbv zeta. rewrite solver_output_flat. reflexivity.
Qed.

Lemma rfcalc_leaves_existing_arrays_alone_witness :
  let st := World [[7; 8]] tt in
  let st' := World [[7; 8]; [INR 0 / 25; INR 1 / 25]; [0; 0]] tt in
  rfcalc unit draw_ones flat_solver flat_noisy_solver two_layers
    short_qa_kwargs st = Ok (RF_pair 1%nat 2%nat, st') /\
  take (length (heap st)) (heap st') = heap st /\
  length (heap st') = (length (heap st) + 2)%nat /\
  (RF_pair 1%nat 2%nat = RF_pair (length (heap st)) (S (length (heap st))) \/
   exists Cd, RF_pair 1%nat 2%nat
              = RF_triple (length (heap st)) (S (length (heap st))) Cd).
Proof.
  intros st st'. split; [exact sample_rfcalc_run|].
  exact (rfcalc_leaves_existing_arrays_alone unit draw_ones flat_solver
           flat_noisy_solver two_layers short_qa_kwargs st st'
           (RF_pair 1%nat 2%nat) sample_rfcalc_run).
Defined.

Lemma too_few_qmodels_is_an_index_error_witness :
  (length (qmodels one_q_kwargs) < 2)%nat /\
  rfcalc unit draw_ones flat_solver flat_noisy_solver two_layers
    one_q_kwargs (World [] tt) = Raise IndexError.
Proof.
  assert (H : (length (qmodels one_q_kwargs) < 2)%nat) by (cbn; lia).
  split; [exact H|].
  exact (too_few_qmodels_is_an_index_error unit draw_ones flat_solver
           flat_noisy_solver two_layers one_q_kwargs (World [] tt) H).
Defined.

Lemma seed_is_unused_without_frequency_noise_witness :
  sn demo_kwargs = 0 /\
  rfcalc unit draw_ones flat_solver flat_noisy_solver velmod_depth
    demo_kwargs (World [] tt)
  = rfcalc unit draw_ones flat_solver flat_noisy_solver velmod_depth
      (with_seed demo_kwargs 61254557) (World [] tt).
Proof.
  split; [reflexivity|].
  exact (seed_is_unused_without_frequency_noise unit draw_ones flat_solver
           flat_noisy_solver velmod_depth demo_kwargs 61254557
           (World [] tt) eq_refl).
Defined.

Lemma noise_on_no_sample_is_an_index_error_witness :
  noise (no_sample_kwargs noise_sqExp) = Some noise_sqExp /\
  ndatar (no_sample_kwargs noise_sqExp) = 0%nat /\
  rfcalc unit draw_ones flat_solver flat_noisy_solver two_layers
    (no_sample_kwargs noise_sqExp) (World [] tt) = Raise IndexError.
Proof.
  split; [reflexivity|]. split; [reflexivity|].
  exact (noise_on_no_sample_is_an_index_error unit draw_ones flat_solver
           flat_noisy_solver two_layers (no_sample_kwargs noise_sqExp)
           (World [] tt) (QScalar 1450) (QScalar 600) [] noise_sqExp
           (PNum 0.01) (PNum 2.5) (PStr "sqExp")
           eq_refl eq_refl eq_refl eq_refl eq_refl eq_refl).
Defined.

Lemma noise_with_bad_kernel_fails_rfcalc_witness :
  unknown_kernel (PStr "boxcar") /\
  (0 < ndatar (noisy_kwargs noise_boxcar))%nat /\
  rfcalc unit draw_ones flat_solver flat_noisy_solver two_layers
    (noisy_kwargs noise_boxcar) (World [] tt) = Raise UnboundLocalError /\
  rfcalc unit draw_ones flat_solver flat_noisy_solver two_layers
    (noisy_kwargs noise_periodic) (World [] tt) = Raise TypeError.
Proof.
  assert (Hunk : unknown_kernel (PStr "boxcar")) by (repeat split).
  assert (Hn : (0 < 2)%nat) by lia.
  split; [exact Hunk|]. split; [exact Hn|]. split.
  - exact (proj1 (noise_with_bad_kernel_fails_rfcalc unit draw_ones
                    flat_solver flat_noisy_solver two_layers
                    (noisy_kwargs noise_boxcar) (World [] tt)
                    (QScalar 1450) (QScalar 600) [] noise_boxcar
                    (PNum 0.01) (PNum 2.5) (PStr "boxcar")
                    eq_refl eq_refl eq_refl eq_refl eq_refl Hn) Hunk).
  - exact (proj2 (noise_with_bad_kernel_fails_rfcalc unit draw_ones
                    flat_solver flat_noisy_solver two_layers
                    (noisy_kwargs noise_periodic) (World [] tt)
                    (QScalar 1450) (QScalar 600) [] noise_periodic
                    (PNum 0.01) (PNum 2.5) (PStr "periodic")
                    eq_refl eq_refl eq_refl eq_refl eq_refl Hn) eq_refl).
Defined.

(** ** The documented kernel that the adapter cannot run *)

(** The same call with the squared-exponential kernel returns its triple. *)
Lemma sample_sqExp_run :
  rfcalc unit draw_ones flat_solver flat_noisy_solver two_layers
    (noisy_kwargs noise_sqExp) (World [] tt)
  = Ok (RF_triple 0%nat 1%nat
          (gram (fun x xp => sqExp x xp 0.01 2.5)
                (linspace (INR 0 / 25) (INR 1 / 25) 2)),
        World [[INR 0 / 25; INR 1 / 25]; [0 + 1; 0 + 1]] tt).
Proof.
  rewrite (rfcalc_unfold unit draw_ones flat_solver flat_noisy_solver
             two_layers (noisy_kwargs noise_sqExp) (World [] tt) _ eq_refl).
  cbv zeta. rewrite solver_output_flat.
  change (noise (noisy_kwargs noise_sqExp)) with (Some noise_sqExp).
  cbv iota. cbn [heap rng length app ndatar noisy_kwargs seq map flat_solver
                 fst snd a_fs].
  rewrite (add_time_domain_noise_success unit draw_ones 1%nat 0%nat
             noise_sqExp _ "sqExp"%string sqExp 0.01 2.5
             [0; 0] [INR 0 / 25; INR 1 / 25] (INR 0 / 25) (INR 1 / 25)
             [1; 1] tt); reflexivity.
Qed.

(** C2. The claim fails on a kernel the docstring of [rfcalc] lists: with
    at least one sample and a noise dictionary that names the kernel
    [periodic], with or without a [period] entry, the call of [periodic]
    with four of its five arguments fails with [TypeError] when the first
    covariance entry is computed, and [rfcalc] returns nothing, whatever
    the model, the solver and the sampler are.  The same call with the
    kernel [sqExp] returns the triple. *)
Theorem rfcalc_fails_on_documented_periodic_kernel
    (RNG : Type)
    (multivariate_normal : RNG -> list R -> matrix -> res (list R * RNG))
    (rfcalc_nonoise : solver_args -> nat -> R * R)
    (rfcalc_noise : solver_args -> R -> Z -> nat -> R * R)
    (model : layered_model) (st : world RNG) :
  rfcalc RNG multivariate_normal rfcalc_nonoise rfcalc_noise model
    (noisy_kwargs noise_periodic_bare) st = Raise TypeError /\
  rfcalc RNG multivariate_normal rfcalc_nonoise rfcalc_noise model
    (noisy_kwargs noise_periodic) st = Raise TypeError /\
  exists Cd st',
    rfcalc unit draw_ones flat_solver flat_noisy_solver two_layers
      (noisy_kwargs noise_sqExp) (World [] tt)
    = Ok (RF_triple 0%nat 1%nat Cd, st').
Proof.
  assert (Hfail : forall nz,
            nz !! "amp_sigma"%string = Some (PNum 0.01) ->
            nz !! "corr_time"%string = Some (PNum 2.5) ->
            nz !! "kernel"%string = Some (PStr "periodic") ->
            rfcalc RNG multivariate_normal rfcalc_nonoise rfcalc_noise model
              (noisy_kwargs nz) st = Raise TypeError).
  { intros nz Hamp Hcorr Hname.
    destruct (rfcalc_with_noise RNG multivariate_normal rfcalc_nonoise
                rfcalc_noise model (noisy_kwargs nz) st
                (QScalar 1450) (QScalar 600) [] nz eq_refl eq_refl)
      as (time & clean & Htime & Hclean & ->).
    destruct (lookup_two_appended (heap st) time clean) as [Ht Hw].
    assert (Hne : forall l : list R, length l = 2%nat -> l <> []).
    { intros [|x l] Hl; [discriminate|discriminate]. }
    destruct (injector_fails_on_bad_kernel RNG multivariate_normal
                (S (length (heap st))) (length (heap st)) nz
                (World (heap st ++ [time; clean]) (rng st))
                (PNum 0.01) (PNum 2.5) (PStr "periodic") clean time
                Hamp Hcorr Hname Hw Ht (Hne _ Hclean) (Hne _ Htime))
      as [_ Hper].
    now rewrite (Hper eq_refl). }
  split; [now apply Hfail|]. split; [now apply Hfail|].
  eexists _, _. exact sample_sqExp_run.
Qed.

(** ** The data covariance matrix *)

Lemma cov_exponent_nonpos (width : R) (z : Z) :
  width <> 0 -> -0.5 * IZR (z ^ 2) / width ^ 2 <= 0.
Proof.
  intros Hw.
  assert (Hz : 0 <= IZR (z ^ 2)) by (apply IZR_le, Z.pow_even_nonneg; now exists 1%Z).
  assert (Hq : 0 <= IZR (z ^ 2) / width ^ 2).
  { apply div_nonneg; [exact Hz|]. pose proof (pow2_ge_0 width).
    assert (width ^ 2 <> 0) by (apply pow_nonzero; exact Hw). lra. }
  unfold Rdiv in *. lra.
Qed.

(** X13. For a non-zero width the loops of [InvDataCov] fill a square
    matrix that is symmetric, has ones on its diagonal, has all entries
    between 0 and 1, and is constant along each diagonal. *)
Theorem data_covariance_is_symmetric_with_unit_diagonal
    (width : R) (ndata : nat) :
  width <> 0 ->
  exists Cd,
    data_cov (width ^ 2) ndata = Ok Cd /\
    nrows Cd = ndata /\ ncols Cd = ndata /\
    (forall i j, (i < ndata)%nat -> (j < ndata)%nat ->
       entry Cd i j = entry Cd j i /\
       entry Cd i i = 1 /\
       0 <= entry Cd i j <= 1) /\
    (forall i j, (S i < ndata)%nat -> (S j < ndata)%nat ->
       entry Cd (S i) (S j) = entry Cd i j).
Proof.
  intros Hw. exists (cov_matrix width ndata).
  split; [now apply data_cov_ok|].
  split; [apply nrows_tabulate|]. split; [reflexivity|]. split.
  - intros i j Hi Hj. unfold cov_matrix.
    rewrite !entry_tabulate by assumption. split; [|split; [|split]].
    + do 4 f_equal. ring.
    + rewrite Z.sub_diag. change (IZR (0 ^ 2)) with 0.
      unfold Rdiv. rewrite Rmult_0_r, Rmult_0_l. apply exp_0.
    + left. apply exp_pos.
    + apply exp_le_one, cov_exponent_nonpos, Hw.
  - intros i j Hi Hj. unfold cov_matrix.
    rewrite !entry_tabulate by lia. do 4 f_equal. lia.
Qed.

Lemma data_covariance_is_symmetric_with_unit_diagonal_witness :
  (2.5 : R) <> 0 /\
  exists Cd,
    data_cov (2.5 ^ 2) 3 = Ok Cd /\ nrows Cd = 3%nat /\ ncols Cd = 3%nat /\
    (forall i j, (i < 3)%nat -> (j < 3)%nat ->
       entry Cd i j = entry Cd j i /\ entry Cd i i = 1 /\
       0 <= entry Cd i j <= 1) /\
    (forall i j, (S i < 3)%nat -> (S j < 3)%nat ->
       entry Cd (S i) (S j) = entry Cd i j).
Proof.
  assert (H : (2.5 : R) <> 0) by lra. split; [exact H|].
  exact (data_covariance_is_symmetric_with_unit_diagonal 2.5 3 H).
Defined.

Lemma data_cov_zero_width (ndata : nat) :
  (0 < ndata)%nat -> data_cov (0 ^ 2) ndata = Raise ZeroDivisionError.
Proof.
  intros Hn. destruct ndata as [|n]; [lia|].
  assert (Hdiv : forall a, py_truediv a (0 ^ 2) = Raise ZeroDivisionError).
  { intros a. unfold py_truediv.
    destruct (Req_dec_T (0 ^ 2) 0) as [_|Hne]; [reflexivity|].
    exfalso. apply Hne. ring. }
  unfold data_cov. cbn [seq for_each]. rewrite Hdiv. reflexivity.
Qed.

(** X14. A zero width on at least one sample makes both builders fail
    with [ZeroDivisionError] while the covariance matrix is filled, before
    any decomposition. *)
Theorem zero_width_is_a_zero_division_error
    (svd : matrix -> res (matrix * list R * matrix))
    (width Ar : R) (ndata : nat) (ind : list Z) :
  width = 0 -> (0 < ndata)%nat ->
  InvDataCov svd width Ar ndata = Raise ZeroDivisionError /\
  InvDataCovSub svd width Ar ndata ind = Raise ZeroDivisionError.
Proof.
  intros -> Hn. unfold InvDataCov, InvDataCovSub.
  rewrite (data_cov_zero_width ndata Hn). split; reflexivity.
Qed.

Lemma zero_width_is_a_zero_division_error_witness :
  (0 : R) = 0 /\ (0 < 626)%nat /\
  InvDataCov (fun _ => Raise LinAlgError) 0 0.01 626
    = Raise ZeroDivisionError /\
  InvDataCovSub (fun _ => Raise LinAlgError) 0 0.01 626 [0; 1]%Z
    = Raise ZeroDivisionError.
Proof.
  assert (Hn : (0 < 626)%nat) by lia.
  split; [reflexivity|]. split; [exact Hn|].
  exact (zero_width_is_a_zero_division_error (fun _ => Raise LinAlgError)
           0 0.01 626 [0; 1]%Z eq_refl Hn).
Defined.

(** ** Where the two cutoff rules end *)

Lemma pmax_none_above (s : list R) :
  Forall (fun a => ~ a > sv_threshold) s ->
  getitem (indices_above s) (-1) = Raise IndexError.
Proof.
  intros H. rewrite getitem_last, indices_above_positions.
  now rewrite positions_from_none.
Qed.

(** X16. [InvDataCovSub] needs a singular value strictly above the
    cutoff: when the decomposition of the selected sub-matrix has none
    (in particular when it has no singular value at all), the call fails
    with [IndexError]. *)
Theorem InvDataCovSub_needs_singular_value_above_cutoff
    (svd : matrix -> res (matrix * list R * matrix))
    (width Ar : R) (ndata : nat) (ind : list Z)
    (Cdused U V : matrix) (s : list R) :
  width <> 0 ->
  sub_matrix ind (cov_matrix width ndata) = Ok Cdused ->
  svd Cdused = Ok (U, s, V) ->
  Forall (fun a => a <= sv_threshold) s ->
  InvDataCovSub svd width Ar ndata ind = Raise IndexError.
Proof.
  intros Hw Hsub Hsvd Hall. unfold InvDataCovSub.
  rewrite (data_cov_ok width ndata Hw). cbn [mbind res_bind].
  rewrite Hsub. cbn [mbind res_bind]. rewrite Hsvd. cbn [mbind res_bind].
  rewrite pmax_none_above; [reflexivity|].
  eapply Forall_impl; [exact Hall|]. cbn. intros a Ha. lra.
Qed.

Lemma InvDataCovSub_needs_singular_value_above_cutoff_witness :
  let svd := fun _ : matrix => Ok (Matrix 0 [], [], Matrix 0 []) in
  (2.5 : R) <> 0 /\
  sub_matrix [] (cov_matrix 2.5 3) = Ok (Matrix 0 []) /\
  InvDataCovSub svd 2.5 0.01 3 [] = Raise IndexError.
Proof.
  intros svd. assert (Hw : (2.5 : R) <> 0) by lra.
  split; [exact Hw|]. split; [reflexivity|].
  exact (InvDataCovSub_needs_singular_value_above_cutoff svd 2.5 0.01 3 []
           (Matrix 0 []) (Matrix 0 []) (Matrix 0 []) [] Hw eq_refl eq_refl
           (Forall_nil_2 _)).
Defined.

Lemma py_index_out_of_range (len : nat) (i : Z) :
  (i < - Z.of_nat len \/ Z.of_nat len <= i)%Z ->
  py_index len i = Raise IndexError.
Proof.
  intros H. unfold py_index.
  destruct (Z.leb_spec 0 i).
  - destruct (Z.ltb_spec i (Z.of_nat len)); [lia|reflexivity].
  - destruct (Z.leb_spec (- Z.of_nat len) i); [lia|reflexivity].
Qed.

Lemma getitem_raises_index_error_only {A : Type} (l : list A) (i : Z) :
  (exists x, getitem l i = Ok x) \/ getitem l i = Raise IndexError.
Proof.
  unfold getitem. destruct (py_index (length l) i) as [n|e] eqn:Hn.
  - cbn [mbind res_bind]. destruct (l !! n); eauto.
  - right. unfold py_index in Hn.
    destruct (0 <=? i)%Z.
    + destruct (i <? Z.of_nat (length l))%Z; [discriminate|].
      now injection Hn as <-.
    + destruct (- Z.of_nat (length l) <=? i)%Z; [discriminate|].
      now injection Hn as <-.
Qed.

Lemma for_each_first_failure {A B : Type} (f : A -> res B) (l : list A)
    (e : exn) :
  (forall x, (exists y, f x = Ok y) \/ f x = Raise e) ->
  Exists (fun x => f x = Raise e) l ->
  for_each f l = Raise e.
Proof.
  intros Hf Hex. induction Hex as [x l Hx|x l _ IH]; cbn [for_each].
  - now rewrite Hx.
  - destruct (Hf x) as [[y Hy]|Hx]; [|now rewrite Hx].
    rewrite Hy. cbn [mbind res_bind]. now rewrite IH.
Qed.

(** X17. An index outside [-ndata, ndata) makes [InvDataCovSub] fail with
    [IndexError] when the rows are selected, before any decomposition. *)
Theorem InvDataCovSub_rejects_index_out_of_range
    (svd : matrix -> res (matrix * list R * matrix))
    (width Ar : R) (ndata : nat) (ind : list Z) :
  width <> 0 ->
  Exists (fun i => (i < - Z.of_nat ndata \/ Z.of_nat ndata <= i)%Z) ind ->
  InvDataCovSub svd width Ar ndata ind = Raise IndexError.
Proof.
  intros Hw Hex. unfold InvDataCovSub.
  rewrite (data_cov_ok width ndata Hw). cbn [mbind res_bind].
  unfold sub_matrix, take_rows.
  rewrite (for_each_first_failure _ ind IndexError); [reflexivity| |].
  - intros i. apply getitem_raises_index_error_only.
  - eapply Exists_impl; [exact Hex|]. intros i Hi. cbv beta in *.
    assert (Hrows : length (rows (cov_matrix width ndata)) = ndata)
      by apply nrows_tabulate.
    unfold getitem. rewrite Hrows.
    now rewrite (py_index_out_of_range ndata i Hi).
Qed.

Lemma InvDataCovSub_rejects_index_out_of_range_witness :
  (2.5 : R) <> 0 /\
  Exists (fun i => (i < - Z.of_nat 3 \/ Z.of_nat 3 <= i)%Z) [0; 3]%Z /\
  InvDataCovSub (fun _ => Raise LinAlgError) 2.5 0.01 3 [0; 3]%Z
    = Raise IndexError.
Proof.
  assert (Hw : (2.5 : R) <> 0) by lra.
  assert (Hex : Exists (fun i => (i < - Z.of_nat 3 \/ Z.of_nat 3 <= i)%Z)
                  [0; 3]%Z).
  { apply Exists_cons_tl, Exists_cons_hd. right. cbn. lia. }
  split; [exact Hw|]. split; [exact Hex|].
  exact (InvDataCovSub_rejects_index_out_of_range
           (fun _ => Raise LinAlgError) 2.5 0.01 3 [0; 3]%Z Hw Hex).
Defined.


Lemma py_index_of_nat (len i : nat) :
  (i < len)%nat -> py_index len (Z.of_nat i) = Ok i.
Proof.
  intros Hi. unfold py_index.
  destruct (Z.leb_spec 0 (Z.of_nat i)); [|lia].
  destruct (Z.ltb_spec (Z.of_nat i) (Z.of_nat len)); [|lia].
  now rewrite Nat2Z.id.
Qed.

(** Selecting every row and every column, in order, gives the matrix back. *)
Lemma sub_matrix_all_indices (n : nat) (f : nat -> nat -> R) :
  sub_matrix (all_indices n) (tabulate n n f) = Ok (tabulate n n f).
Proof.
  unfold sub_matrix, take_rows, take_cols, all_indices.
  set (rws := rows (tabulate n n f)).
  assert (Hlen : length rws = n)
    by (unfold rws, tabulate; cbn; now rewrite length_map, length_seq).
  rewrite (for_each_ok _ (fun z => nth (Z.to_nat z) rws [])).
  2:{ intros z Hz. apply list_elem_of_fmap in Hz as (i & -> & Hi).
      apply elem_of_seq in Hi. unfold getitem.
      rewrite py_index_of_nat by lia. cbn [mbind res_bind].
      rewrite Nat2Z.id.
      destruct (lookup_lt_is_Some_2 rws i) as [r Hr]; [lia|].
      now rewrite Hr, nth_lookup, Hr. }
  cbn [mbind res_bind ncols rows].
  rewrite (for_each_ok _ Z.to_nat).
  2:{ intros z Hz. apply list_elem_of_fmap in Hz as (i & -> & Hi).
      apply elem_of_seq in Hi. cbn [tabulate ncols].
      rewrite py_index_of_nat by lia. now rewrite Nat2Z.id. }
  cbn [mbind res_bind]. rewrite !map_map, length_map, length_seq.
  assert (Hid : map (fun x => Z.to_nat (Z.of_nat x)) (seq 0 n) = seq 0 n).
  { rewrite <- (map_id (seq 0 n)) at 2. apply map_ext. intros i.
    apply Nat2Z.id. }
  rewrite Hid.
  f_equal. unfold tabulate. f_equal.
  apply map_ext_in. intros i Hi. apply in_seq in Hi.
  rewrite Nat2Z.id. apply map_ext_in. intros j Hj. apply in_seq in Hj.
  change (nth j (nth i rws []) 0) with (entry (tabulate n n f) i j).
  apply entry_tabulate; lia.
Qed.

Lemma last_above_before_first_below (s : list R) (p : nat) :
  descending s -> Forall (fun a => a <> sv_threshold) s ->
  first_below s p -> (0 < p)%nat ->
  last_above s (p - 1).
Proof.
  intros Hdesc Hne [[b [Hb Hblt]] Hfirst] Hp.
  assert (Hlt : (p - 1 < length s)%nat).
  { apply lookup_lt_Some in Hb. lia. }
  destruct (lookup_lt_is_Some_2 s (p - 1) Hlt) as [a Ha].
  split.
  - exists a. split; [exact Ha|].
    assert (Hnot : ~ a < sv_threshold) by (apply (Hfirst (p - 1)%nat a); [lia|exact Ha]).
    assert (Hneq : a <> sv_threshold).
    { rewrite Forall_lookup in Hne. exact (Hne _ _ Ha). }
    lra.
  - intros i c Hi Hc.
    assert (Hcb : c <= b) by (apply (Hdesc p i b c); [lia|exact Hb|exact Hc]).
    lra.
Qed.

(** X18. Selecting all [ndata] samples in order, [InvDataCovSub] works on
    the full covariance matrix; when the singular values are in descending
    order, none equals the cutoff and the first one below it is not the
    largest, both cutoff rules keep the same values and [InvDataCovSub]
    returns exactly what [InvDataCov] returns. *)
Theorem InvDataCovSub_on_all_samples_agrees_with_InvDataCov
    (svd : matrix -> res (matrix * list R * matrix))
    (width Ar : R) (ndata : nat) (U V : matrix) (s : list R) (p : nat) :
  width <> 0 ->
  svd (cov_matrix width ndata) = Ok (U, s, V) ->
  descending s -> Forall (fun a => a <> sv_threshold) s ->
  first_below s p -> (0 < p)%nat ->
  InvDataCovSub svd width Ar ndata (all_indices ndata)
  = InvDataCov svd width Ar ndata.
Proof.
  intros Hw Hsvd Hdesc Hne Hp Hpos.
  pose proof (last_above_before_first_below s p Hdesc Hne Hp Hpos) as Hq.
  unfold InvDataCovSub, InvDataCov.
  rewrite (data_cov_ok width ndata Hw). cbn [mbind res_bind].
  unfold cov_matrix at 1. rewrite sub_matrix_all_indices.
  cbn [mbind res_bind]. fold (cov_matrix width ndata).
  rewrite Hsvd. cbn [mbind res_bind].
  rewrite (pmax_first_below s p Hp), (pmax_last_above s (p - 1) Hq).
  cbn [mbind res_bind].
  replace (p - 1 + 1)%nat with p by lia. reflexivity.
Qed.

Lemma descending_example : descending [1; 0.0000001].
Proof.
  intros [|[|i]] [|[|j]] a b Hij Ha Hb; try discriminate; try lia;
    injection Ha as <-; injection Hb as <-; lra.
Qed.

Lemma InvDataCovSub_on_all_samples_agrees_with_InvDataCov_witness :
  let U := Matrix 2 [[1; 0]; [0; 1]] in
  let s := [1; 0.0000001] in
  let svd := fun _ : matrix => Ok (U, s, U) in
  (2.5 : R) <> 0 /\ descending s /\
  Forall (fun a => a <> sv_threshold) s /\
  first_below s 1 /\ (0 < 1)%nat /\
  InvDataCovSub svd 2.5 0.01 2 [0; 1]%Z = InvDataCov svd 2.5 0.01 2.
Proof.
  intros U s svd.
  assert (Hw : (2.5 : R) <> 0) by lra.
  assert (Hne : Forall (fun a => a <> sv_threshold) s).
  { repeat constructor; unfold sv_threshold; lra. }
  assert (Hpos : (0 < 1)%nat) by lia.
  split; [exact Hw|]. split; [exact descending_example|].
  split; [exact Hne|]. split; [exact first_below_example|].
  split; [exact Hpos|].
  exact (InvDataCovSub_on_all_samples_agrees_with_InvDataCov svd 2.5 0.01 2
           U U s 1 Hw eq_refl descending_example Hne first_below_example Hpos).
Defined.

(** ** The truncated inverse times the covariance *)

Lemma rsum_times (c : R) (f : nat -> R) (l : list nat) :
  rsum (map f l) * c = rsum (map (fun k => f k * c) l).
Proof.
  induction l as [|k l IH]; simpl; [ring|]. rewrite <- IH. ring.
Qed.

Lemma rsum_plus (f g : nat -> R) (l : list nat) :
  rsum (map (fun k => f k + g k) l) = rsum (map f l) + rsum (map g l).
Proof.
  induction l as [|k l IH]; simpl; [ring|]. rewrite IH. ring.
Qed.

Lemma rsum_zero (l : list nat) : rsum (map (fun _ => 0) l) = 0.
Proof. induction l as [|k l IH]; simpl; [reflexivity|]. rewrite IH. ring. Qed.

Lemma rsum_swap (f : nat -> nat -> R) (l1 l2 : list nat) :
  rsum (map (fun a => rsum (map (fun b => f a b) l2)) l1)
  = rsum (map (fun b => rsum (map (fun a => f a b) l1)) l2).
Proof.
  induction l1 as [|a l1 IH]; cbn [map rsum foldr].
  - now rewrite rsum_zero.
  - fold (rsum (map (fun a0 => rsum (map (fun b => f a0 b) l2)) l1)).
    rewrite IH. rewrite <- rsum_plus. reflexivity.
Qed.

(** Orthonormal columns cancel: the heart of the pseudo-inverse identity. *)
Lemma orthonormal_columns_cancel (n p : nat) (a b : nat -> R)
    (u : nat -> nat -> R) :
  (p <= n)%nat ->
  (forall k l, (k < n)%nat -> (l < n)%nat ->
     rsum (map (fun m => u m k * u m l) (seq 0 n))
     = if (k =? l)%nat then 1 else 0) ->
  rsum (map (fun m =>
          rsum (map (fun k => a k * u m k) (seq 0 p))
          * rsum (map (fun l => u m l * b l) (seq 0 n)))
        (seq 0 n))
  = rsum (map (fun k => a k * b k) (seq 0 p)).
Proof.
  intros Hp Horth.
  transitivity (rsum (map (fun m => rsum (map (fun k =>
      a k * (u m k * rsum (map (fun l => u m l * b l) (seq 0 n))))
      (seq 0 p))) (seq 0 n))).
  { apply rsum_ext_seq. intros m _. rewrite rsum_times.
    apply rsum_ext_seq. intros k _. ring. }
  rewrite rsum_swap. apply rsum_ext_seq. intros k Hk.
  rewrite <- rsum_scale. f_equal.
  transitivity (rsum (map (fun m => rsum (map (fun l =>
      u m k * u m l * b l) (seq 0 n))) (seq 0 n))).
  { apply rsum_ext_seq. intros m _. rewrite rsum_scale.
    apply rsum_ext_seq. intros l _. ring. }
  rewrite rsum_swap.
  transitivity (rsum (map (fun l =>
      (if (k =? l)%nat then 1 else 0) * b l) (seq 0 n))).
  { apply rsum_ext_seq. intros l Hl.
    rewrite <- (Horth k l) by lia. rewrite rsum_times. reflexivity. }
  rewrite rsum_diag_collapse by lia. ring.
Qed.

(** X19. The regularised-inverse identity: with a decomposition that
    meets numpy's contract, the product of the matrix [InvDataCov] returns
    with the covariance matrix is, entry by entry, the projector on the
    retained right singular vectors divided by the squared amplitude. *)
Theorem InvDataCov_times_covariance_is_scaled_projector
    (svd : matrix -> res (matrix * list R * matrix))
    (width Ar : R) (ndata : nat) (U V : matrix) (s : list R) (p : nat) :
  width <> 0 ->
  svd (cov_matrix width ndata) = Ok (U, s, V) ->
  is_svd ndata (cov_matrix width ndata) U s V ->
  first_below s p ->
  exists Cdinv,
    InvDataCov svd width Ar ndata = Ok Cdinv /\
    ncols Cdinv = ndata /\
    forall i j, (i < ndata)%nat -> (j < ndata)%nat ->
      dot_entry Cdinv (cov_matrix width ndata) i j
      = rsum (map (fun k => entry V k i * entry V k j) (seq 0 p)) / Ar ^ 2.
Proof.
  intros Hw Hsvd [[HUc HUr] [HVc HVr] Hs _ Hprod HUo _] Hp.
  pose proof (first_at_lt _ _ _ Hp) as Hplt.
  assert (Hrun : InvDataCov svd width Ar ndata
                 = (M ← truncated_pinv U s V p; Ok (scale_div M (Ar * Ar)))).
  { unfold InvDataCov. rewrite (data_cov_ok width ndata Hw).
    cbn [mbind res_bind]. rewrite Hsvd. cbn [mbind res_bind].
    now rewrite (pmax_first_below s p Hp). }
  destruct (scaled_pinv_entries U s V p Ar) as (Cdinv & HC & _ & Hcols & Hent);
    [lia..|].
  exists Cdinv. rewrite Hrun. split; [exact HC|].
  split; [lia|].
  intros i j Hi Hj. unfold dot_entry. rewrite Hcols, HUr.
  transitivity (rsum (map (fun m =>
      rsum (map (fun k => (entry V k i * (1 / nth k s 0)) * entry U m k)
                (seq 0 p))
      * rsum (map (fun l => entry U m l * (nth l s 0 * entry V l j))
                  (seq 0 ndata)))
      (seq 0 ndata)) / Ar ^ 2).
  { unfold Rdiv. rewrite rsum_times. apply rsum_ext_seq. intros m Hm.
    rewrite Hent by lia. rewrite (Hprod m j) by lia.
    unfold pinv_entry, Rdiv.
    replace (rsum (map (fun k => entry U m k * nth k s 0 * entry V k j)
                       (seq 0 ndata)))
      with (rsum (map (fun l => entry U m l * (nth l s 0 * entry V l j))
                      (seq 0 ndata)))
      by (apply rsum_ext_seq; intros l _; ring).
    ring. }
  f_equal.
  rewrite (orthonormal_columns_cancel ndata p
             (fun k => entry V k i * (1 / nth k s 0))
             (fun l => nth l s 0 * entry V l j)
             (fun m k => entry U m k)) by (lia || exact HUo).
  apply rsum_ext_seq. intros k Hk.
  destruct (lookup_lt_is_Some_2 s k) as [sk Hsk]; [lia|].
  assert (Hpos : ~ sk < sv_threshold) by (apply (proj2 Hp k sk Hk Hsk)).
  rewrite (nth_lookup s k), Hsk. cbn [default from_option]. unfold Datatypes.id.
  unfold sv_threshold in Hpos. apply Rnot_lt_le in Hpos.
  field. lra.
Qed.

Lemma half_sqrt_squared : half_sqrt * half_sqrt = / 2.
Proof.
  unfold half_sqrt. rewrite <- Rinv_mult. now rewrite sqrt_sqrt by lra.
Qed.

Lemma wide_corr_bounds : 0 < wide_corr /\ 1 - wide_corr < sv_threshold.
Proof.
  unfold wide_corr, sv_threshold. split; [apply exp_pos|].
  pose proof (exp_ineq1_le (-0.5 * 1 / 1000 ^ 2)). lra.
Qed.

Lemma wide_corr_le_one : wide_corr <= 1.
Proof. unfold wide_corr. apply exp_le_one. lra. Qed.

Lemma wide_cov_entries :
  entry (cov_matrix 1000 2) 0 0 = 1 /\ entry (cov_matrix 1000 2) 0 1 = wide_corr /\
  entry (cov_matrix 1000 2) 1 0 = wide_corr /\ entry (cov_matrix 1000 2) 1 1 = 1.
Proof.
  unfold cov_matrix. rewrite !entry_tabulate by lia.
  change (IZR ((Z.of_nat 0 - Z.of_nat 0) ^ 2)) with 0.
  change (IZR ((Z.of_nat 1 - Z.of_nat 1) ^ 2)) with 0.
  change (IZR ((Z.of_nat 0 - Z.of_nat 1) ^ 2)) with 1.
  change (IZR ((Z.of_nat 1 - Z.of_nat 0) ^ 2)) with 1.
  replace (-0.5 * 0 / 1000 ^ 2) with 0 by lra. rewrite exp_0.
  repeat split; reflexivity.
Qed.

Lemma wide_is_svd : is_svd 2 (cov_matrix 1000 2) wide_U wide_s wide_U.
Proof.
  pose proof half_sqrt_squared as Hr.
  pose proof wide_corr_bounds as [He0 _].
  pose proof wide_corr_le_one as He1.
  destruct wide_cov_entries as (H00 & H01 & H10 & H11).
  constructor.
  - split; reflexivity.
  - split; reflexivity.
  - reflexivity.
  - unfold wide_s. repeat (apply Forall_cons; split; [lra|]). apply Forall_nil_2.
  - intros [|[|i]] [|[|j]] Hi Hj; try lia;
      rewrite ?H00, ?H01, ?H10, ?H11;
      unfold wide_U, wide_s, entry;
      cbn [rows nth seq map rsum foldr]; nra.
  - intros [|[|i]] [|[|j]] Hi Hj; try lia;
      unfold wide_U, entry;
      cbn [rows nth seq map rsum foldr Nat.eqb]; nra.
  - intros [|[|i]] [|[|j]] Hi Hj; try lia;
      unfold wide_U, entry;
      cbn [rows nth seq map rsum foldr Nat.eqb]; nra.
Qed.

Lemma wide_first_below : first_below wide_s 1.
Proof.
  pose proof wide_corr_bounds as [He0 Hlt]. split.
  - exists (1 - wide_corr). split; [reflexivity|exact Hlt].
  - intros [|i] a Hi Ha; [|lia]. injection Ha as <-.
    unfold sv_threshold. lra.
Qed.

Lemma InvDataCov_times_covariance_is_scaled_projector_witness :
  let svd := fun _ : matrix => Ok (wide_U, wide_s, wide_U) in
  (1000 : R) <> 0 /\
  is_svd 2 (cov_matrix 1000 2) wide_U wide_s wide_U /\
  first_below wide_s 1 /\
  exists Cdinv,
    InvDataCov svd 1000 0.01 2 = Ok Cdinv /\
    ncols Cdinv = 2%nat /\
    forall i j, (i < 2)%nat -> (j < 2)%nat ->
      dot_entry Cdinv (cov_matrix 1000 2) i j
      = rsum (map (fun k => entry wide_U k i * entry wide_U k j) (seq 0 1))
        / 0.01 ^ 2.
Proof.
  intros svd. assert (Hw : (1000 : R) <> 0) by lra.
  split; [exact Hw|]. split; [exact wide_is_svd|].
  split; [exact wide_first_below|].
  exact (InvDataCov_times_covariance_is_scaled_projector svd 1000 0.01 2
           wide_U wide_U wide_s 1 Hw eq_refl wide_is_svd wide_first_below).
Defined.

(** ** The misfit: exchange of the waveforms, broadcasting, shape errors *)

Lemma zip_with_minus_swap (a b : list R) :
  zip_with Rminus b a = map Ropp (zip_with Rminus a b).
Proof.
  revert b. induction a as [|x a IH]; intros [|y b]; simpl; try reflexivity.
  rewrite IH. f_equal. ring.
Qed.

Lemma np_sub_swap (a b : list R) :
  np_sub b a = (r ← np_sub a b; Ok (map Ropp r)).
Proof.
  unfold np_sub. rewrite (Nat.eqb_sym (length b) (length a)).
  destruct (length a =? length b)%nat eqn:E; cbn [mbind res_bind].
  - now rewrite zip_with_minus_swap.
  - destruct a as [|x [|x' a]], b as [|y [|y' b]];
      try discriminate E; cbn [mbind res_bind]; try reflexivity;
      f_equal; rewrite map_map; apply map_ext; intros z; ring.
Qed.

Lemma nth_opp (r : list R) (k : nat) : nth k (map Ropp r) 0 = - nth k r 0.
Proof.
  revert k. induction r as [|x r IH]; intros [|k]; simpl;
    try ring; try reflexivity. apply IH.
Qed.

Lemma dot_mv_opp (C : matrix) (r : list R) :
  dot_mv C (map Ropp r) = (v ← dot_mv C r; Ok (map Ropp v)).
Proof.
  unfold dot_mv. rewrite length_map.
  destruct (ncols C =? length r)%nat; cbn [mbind res_bind]; [|reflexivity].
  f_equal. rewrite map_map. apply map_ext. intros i.
  replace (- rsum (map (fun k => entry C i k * nth k r 0) (seq 0 (ncols C))))
    with (-1 * rsum (map (fun k => entry C i k * nth k r 0) (seq 0 (ncols C))))
    by ring.
  rewrite rsum_scale. apply rsum_ext. intros k. rewrite nth_opp. ring.
Qed.

Lemma rsum_zip_opp (u v : list R) :
  rsum (zip_with Rmult (map Ropp u) (map Ropp v)) = rsum (zip_with Rmult u v).
Proof.
  revert v. induction u as [|x u IH]; intros [|y v]; simpl; try reflexivity.
  rewrite IH. ring.
Qed.

Lemma dot_vv_opp (u v : list R) :
  dot_vv (map Ropp u) (map Ropp v) = dot_vv u v.
Proof.
  unfold dot_vv. rewrite !length_map.
  destruct (length u =? length v)%nat; [|reflexivity].
  now rewrite rsum_zip_opp.
Qed.

(** X20. The misfit does not change when the observed and the predicted
    waveform are exchanged, whatever their shapes: the same value, or the
    same error. *)
Theorem misfit_unchanged_by_exchanging_waveforms
    (observed predicted : list R) (Cdinv : matrix) :
  misfit predicted observed Cdinv = misfit observed predicted Cdinv.
Proof.
  unfold misfit. rewrite (np_sub_swap observed predicted).
  destruct (np_sub observed predicted) as [r|e]; cbn [mbind res_bind];
    [|reflexivity].
  rewrite dot_mv_opp.
  destruct (dot_mv Cdinv r) as [v|e]; cbn [mbind res_bind]; [|reflexivity].
  now rewrite dot_vv_opp.
Qed.

Lemma zip_with_minus_replicate (a : list R) (y : R) :
  zip_with Rminus a (replicate (length a) y) = map (fun x => x - y) a.
Proof. induction a as [|x a IH]; simpl; [reflexivity|]. now rewrite IH. Qed.

Lemma np_sub_one_sample (a : list R) (y : R) :
  np_sub a [y] = np_sub a (replicate (length a) y).
Proof.
  unfold np_sub. rewrite length_replicate, Nat.eqb_refl.
  rewrite zip_with_minus_replicate.
  destruct a as [|x [|x' a]]; reflexivity.
Qed.

(** X21. A waveform of a single sample is not rejected: numpy broadcasts
    it, and the misfit is the one against the constant waveform of that
    sample. *)
Theorem misfit_broadcasts_a_one_sample_waveform
    (w : list R) (y : R) (Cdinv : matrix) :
  misfit w [y] Cdinv = misfit w (replicate (length w) y) Cdinv /\
  misfit [y] w Cdinv = misfit (replicate (length w) y) w Cdinv.
Proof.
  assert (H : forall C, misfit w [y] C = misfit w (replicate (length w) y) C).
  { intros C. unfold misfit. now rewrite np_sub_one_sample. }
  split; [apply H|].
  unfold misfit.
  rewrite (np_sub_swap w [y]), (np_sub_swap w (replicate (length w) y)).
  now rewrite np_sub_one_sample.
Qed.

(** X22. Shapes that do not fit are a [ValueError]: waveforms of different
    lengths of which none has a single sample, or an inverse covariance
    whose number of columns or of rows is not the number of samples. *)
Theorem misfit_rejects_shapes_that_do_not_fit
    (observed predicted : list R) (Cdinv : matrix) :
  (length observed <> length predicted /\
   length observed <> 1%nat /\ length predicted <> 1%nat) \/
  (length observed = length predicted /\
   (ncols Cdinv <> length observed \/ nrows Cdinv <> length observed)) ->
  misfit observed predicted Cdinv = Raise ValueError.
Proof.
  intros [(Hne & Ho & Hp)|(Heq & Hshape)]; unfold misfit, np_sub.
  - apply Nat.eqb_neq in Hne. rewrite Hne.
    destruct observed as [|x [|x' o]], predicted as [|y [|y' p]];
      simpl in Ho, Hp; try lia; try discriminate Hne; reflexivity.
  - apply Nat.eqb_eq in Heq as Hb. rewrite Hb. cbn [mbind res_bind].
    assert (Hz : length (zip_with Rminus observed predicted) = length observed).
    { rewrite length_zip_with. lia. }
    unfold dot_mv. rewrite Hz.
    destruct (ncols Cdinv =? length observed)%nat eqn:Hc;
      cbn [mbind res_bind]; [|reflexivity].
    apply Nat.eqb_eq in Hc. destruct Hshape as [Hbad|Hbad]; [lia|].
    unfold dot_vv. rewrite length_map, length_seq, Hz.
    assert (Hr : (length observed =? nrows Cdinv)%nat = false)
      by (apply Nat.eqb_neq; lia).
    now rewrite Hr.
Qed.

Lemma misfit_rejects_shapes_that_do_not_fit_witness :
  (length [1; 2] <> length [1; 2; 3] /\
   length [1; 2] <> 1%nat /\ length [1; 2; 3] <> 1%nat) /\
  misfit [1; 2] [1; 2; 3] (Matrix 3 [[1; 0; 0]; [0; 1; 0]; [0; 0; 1]])
  = Raise ValueError.
Proof.
  assert (H : length [1; 2] <> length [1; 2; 3] /\
              length [1; 2] <> 1%nat /\ length [1; 2; 3] <> 1%nat)
    by (simpl; lia).
  split; [exact H|].
  exact (misfit_rejects_shapes_that_do_not_fit [1; 2] [1; 2; 3]
           (Matrix 3 [[1; 0; 0]; [0; 1; 0]; [0; 0; 1]]) (or_introl H)).
Defined.

(** ** The amplitude only scales the inverse *)

Lemma scale_div_rescaled (M : matrix) (Ar Ar' : R) (i j : nat) :
  Ar <> 0 -> Ar' <> 0 ->
  entry (scale_div M (Ar' * Ar')) i j
  = entry (scale_div M (Ar * Ar)) i j * (Ar / Ar') ^ 2.
Proof. intros H H'. rewrite !entry_scale_div. now field. Qed.

(** X23. The noise amplitude [Ar] takes no part in the decomposition or in
    the cutoff: with another non-zero amplitude both builders return a
    matrix of the same shape whose entries are those of the first one
    times the squared ratio of the amplitudes. *)
Theorem amplitude_only_scales_the_inverse
    (svd : matrix -> res (matrix * list R * matrix))
    (width Ar Ar' : R) (ndata : nat) :
  Ar <> 0 -> Ar' <> 0 ->
  (forall C, InvDataCov svd width Ar ndata = Ok C ->
     exists C', InvDataCov svd width Ar' ndata = Ok C' /\
       nrows C' = nrows C /\ ncols C' = ncols C /\
       forall i j, entry C' i j = entry C i j * (Ar / Ar') ^ 2) /\
  (forall ind C, InvDataCovSub svd width Ar ndata ind = Ok C ->
     exists C', InvDataCovSub svd width Ar' ndata ind = Ok C' /\
       nrows C' = nrows C /\ ncols C' = ncols C /\
       forall i j, entry C' i j = entry C i j * (Ar / Ar') ^ 2).
Proof.
  intros HAr HAr'. split.
  - intros C. unfold InvDataCov.
    destruct (data_cov (width ^ 2) ndata) as [Cd|e];
      cbn [mbind res_bind]; [|discriminate].
    destruct (svd Cd) as [[[U s] V]|e]; cbn [mbind res_bind]; [|discriminate].
    destruct (getitem (indices_below s) 0) as [p|e];
      cbn [mbind res_bind]; [|discriminate].
    destruct (truncated_pinv U s V p) as [M|e];
      cbn [mbind res_bind]; [|discriminate].
    intros [= <-]. exists (scale_div M (Ar' * Ar')).
    split; [reflexivity|]. rewrite !nrows_scale_div.
    split; [reflexivity|]. split; [reflexivity|].
    intros i j. now apply scale_div_rescaled.
  - intros ind C. unfold InvDataCovSub.
    destruct (data_cov (width ^ 2) ndata) as [Cd|e];
      cbn [mbind res_bind]; [|discriminate].
    destruct (sub_matrix ind Cd) as [Cdused|e];
      cbn [mbind res_bind]; [|discriminate].
    destruct (svd Cdused) as [[[U s] V]|e];
      cbn [mbind res_bind]; [|discriminate].
    destruct (getitem (indices_above s) (-1)) as [q|e];
      cbn [mbind res_bind]; [|discriminate].
    destruct (truncated_pinv U s V (q + 1)) as [M|e];
      cbn [mbind res_bind]; [|discriminate].
    intros [= <-]. exists (scale_div M (Ar' * Ar')).
    split; [reflexivity|]. rewrite !nrows_scale_div.
    split; [reflexivity|]. split; [reflexivity|].
    intros i j. now apply scale_div_rescaled.
Qed.

Lemma sample_inverse_runs :
  let U := Matrix 2 [[1; 0]; [0; 1]] in
  let svd := fun _ : matrix => Ok (U, [1; 0.0000001], U) in
  exists C, InvDataCov svd 2.5 0.01 2 = Ok C /\
            InvDataCovSub svd 2.5 0.01 2 [0; 1]%Z = Ok C.
Proof.
  intros U svd.
  assert (Hw : (2.5 : R) <> 0) by lra.
  destruct (scaled_pinv_entries U [1; 0.0000001] U 1 0.01)
    as (C & HC & _); [reflexivity|reflexivity|simpl; lia|].
  exists C.
  assert (Hfull : InvDataCov svd 2.5 0.01 2 = Ok C).
  { unfold InvDataCov. rewrite (data_cov_ok 2.5 2 Hw). cbn [mbind res_bind].
    unfold svd at 1. cbn [mbind res_bind].
    rewrite (pmax_first_below _ _ first_below_example). exact HC. }
  split; [exact Hfull|].
  unfold InvDataCovSub. rewrite (data_cov_ok 2.5 2 Hw). cbn [mbind res_bind].
  change [0; 1]%Z with (all_indices 2).
  unfold cov_matrix at 1. rewrite sub_matrix_all_indices.
  cbn [mbind res_bind]. unfold svd at 1. cbn [mbind res_bind].
  rewrite (pmax_last_above _ _ last_above_example). exact HC.
Qed.

Lemma amplitude_only_scales_the_inverse_witness :
  let U := Matrix 2 [[1; 0]; [0; 1]] in
  let svd := fun _ : matrix => Ok (U, [1; 0.0000001], U) in
  (0.01 : R) <> 0 /\ (0.02 : R) <> 0 /\
  exists C C' C'',
    InvDataCov svd 2.5 0.01 2 = Ok C /\
    InvDataCov svd 2.5 0.02 2 = Ok C' /\
    InvDataCovSub svd 2.5 0.02 2 [0; 1]%Z = Ok C'' /\
    (forall i j, entry C' i j = entry C i j * (0.01 / 0.02) ^ 2) /\
    (forall i j, entry C'' i j = entry C i j * (0.01 / 0.02) ^ 2).
Proof.
  intros U svd.
  assert (H1 : (0.01 : R) <> 0) by lra.
  assert (H2 : (0.02 : R) <> 0) by lra.
  split; [exact H1|]. split; [exact H2|].
  destruct sample_inverse_runs as (C & Hfull & Hsub).
  destruct (amplitude_only_scales_the_inverse svd 2.5 0.01 0.02 2 H1 H2)
    as [Hf Hs].
  destruct (Hf C Hfull) as (C' & HC' & _ & _ & Hent').
  destruct (Hs [0; 1]%Z C Hsub) as (C'' & HC'' & _ & _ & Hent'').
  exists C, C', C''. repeat split; assumption.
Defined.

(** ** The plot format: what it depends on, and its depth axis *)

Lemma drop_last_snoc {A : Type} (l : list A) (x : A) : drop_last (l ++ [x]) = l.
Proof.
  unfold drop_last. rewrite length_app. cbn [length].
  apply take_app_length'. lia.
Qed.

Lemma snoc_drop_last {A : Type} (l : list A) :
  l <> [] -> exists x, l = drop_last l ++ [x].
Proof.
  destruct l as [|a l] using rev_ind; [congruence|].
  intros _. exists a. now rewrite drop_last_snoc.
Qed.

Lemma cumsum_from_app (acc : R) (l1 l2 : list R) :
  cumsum_from acc (l1 ++ l2)
  = cumsum_from acc l1 ++ cumsum_from (acc + rsum l1) l2.
Proof.
  revert acc. induction l1 as [|x l1 IH]; intros acc; simpl.
  - now rewrite Rplus_0_r.
  - rewrite IH. do 3 f_equal. ring.
Qed.

Lemma drop_last_cumsum (l : list R) :
  drop_last (cumsum l) = cumsum (drop_last l).
Proof.
  destruct l as [|x l _] using rev_ind; [reflexivity|].
  unfold cumsum. rewrite cumsum_from_app. cbn [cumsum_from].
  now rewrite !drop_last_snoc.
Qed.

Lemma twice_snoc (l : list R) (x : R) : twice (l ++ [x]) = twice l ++ [x; x].
Proof. unfold twice. now rewrite flat_map_app. Qed.

(** The depth samples of the staircase: the depth of the last layer is
    not among them. *)
Lemma stair_depths_drop_last (d : list R) (dmax : R) :
  d <> [] -> stair_depths d dmax = 0 :: twice (drop_last d) ++ [dmax].
Proof.
  intros Hd. destruct (snoc_drop_last d Hd) as [x Hx].
  set (d0 := drop_last d) in *. rewrite Hx. unfold stair_depths.
  rewrite twice_snoc, length_app. cbn [length].
  replace (2 * (length d0 + 1) - 1)%nat with (S (2 * length d0)) by lia.
  cbn [take]. rewrite take_app_length' by (now rewrite length_twice).
  reflexivity.
Qed.

Lemma step_plot_all_but_last (depths depths' vel : list R) (n : nat) (dmax : R) :
  drop_last depths = drop_last depths' ->
  length depths = n -> length depths' = n -> length vel = n ->
  step_plot depths vel n dmax = step_plot depths' vel n dmax.
Proof.
  intros Hd Hl Hl' Hv. destruct n as [|n].
  - destruct depths, depths'; try discriminate. reflexivity.
  - rewrite !step_plot_closed_form by (assumption || lia).
    rewrite !stair_depths_drop_last by (intros ->; discriminate).
    now rewrite Hd.
Qed.

(** X24. The plot of a layered model does not show the first entry of its
    last row (the thickness, or the depth, of the half-space), nor the
    Vp/Vs column, nor [vmin], [vmax] and [dmin]: two models with the same
    velocities and the same first column up to the last row have the same
    plot. *)
Theorem plot_ignores_half_space_entry_and_limits
    (m m' : layered_model) (vmin vmax dmin vmin' vmax' dmin' dmax : R) :
  column1 m = column1 m' ->
  drop_last (column0 m) = drop_last (column0 m') ->
  l2mod m vmin vmax dmin dmax = l2mod m' vmin' vmax' dmin' dmax /\
  d2mod m vmin vmax dmin dmax = d2mod m' vmin' vmax' dmin' dmax.
Proof.
  intros Hv Hd.
  assert (Hlen : length m' = length m).
  { rewrite <- (length_column1 m), <- (length_column1 m'). now rewrite Hv. }
  rewrite !l2mod_step_plot, !d2mod_step_plot, Hlen, <- Hv. split.
  - apply step_plot_all_but_last.
    + now rewrite !drop_last_cumsum, Hd.
    + now rewrite length_cumsum, length_column0.
    + now rewrite length_cumsum, length_column0.
    + apply length_column1.
  - apply step_plot_all_but_last; [exact Hd|..].
    + apply length_column0.
    + now rewrite length_column0.
    + apply length_column1.
Qed.

Lemma plot_ignores_half_space_entry_and_limits_witness :
  let m := [(20, 3.46, 1.73); (0, 3.85, 1.73)] in
  let m' := [(20, 3.46, 1.8); (999, 3.85, 1.6)] in
  column1 m = column1 m' /\
  drop_last (column0 m) = drop_last (column0 m') /\
  l2mod m 2.4 4.7 0 60 = l2mod m' 1 9 5 60 /\
  d2mod m 2.4 4.7 0 60 = d2mod m' 1 9 5 60.
Proof.
  intros m m'. split; [reflexivity|]. split; [reflexivity|].
  exact (plot_ignores_half_space_entry_and_limits m m' 2.4 4.7 0 1 9 5 60
           eq_refl eq_refl).
Defined.

(** X25. The two converters fail exactly on a model without layers, and
    then with [IndexError]: there is no last depth sample to set. *)
Theorem converters_fail_exactly_without_layers
    (m : layered_model) (vmin vmax dmin dmax : R) (e : exn) :
  (l2mod m vmin vmax dmin dmax = Raise e <-> m = [] /\ e = IndexError) /\
  (d2mod m vmin vmax dmin dmax = Raise e <-> m = [] /\ e = IndexError).
Proof.
  rewrite l2mod_step_plot, d2mod_step_plot.
  destruct m as [|r m].
  - split; (split; [intros [= <-]; now split|intros [_ ->]; reflexivity]).
  - rewrite !step_plot_closed_form;
      rewrite ?length_cumsum, ?length_column0, ?length_column1;
      cbn [length]; try reflexivity; try lia.
    split; (split; [discriminate|intros [? _]; discriminate]).
Qed.

Lemma nondecreasing_cons (a b : R) (t : list R) :
  nondecreasing (a :: b :: t) <-> a <= b /\ nondecreasing (b :: t).
Proof. reflexivity. Qed.

Lemma nondecreasing_twice (a : R) (d : list R) (dmax : R) :
  nondecreasing (a :: d ++ [dmax]) -> nondecreasing (a :: twice d ++ [dmax]).
Proof.
  revert a. induction d as [|x d IH]; intros a H; [exact H|].
  change (twice (x :: d)) with (x :: x :: twice d).
  cbn [app] in *. apply nondecreasing_cons in H as [Hax H].
  apply nondecreasing_cons. split; [exact Hax|].
  apply nondecreasing_cons. split; [lra|]. now apply IH.
Qed.

Lemma nondecreasing_cumsum (t : list R) (acc dmax : R) :
  Forall (fun a => 0 <= a) t -> acc + rsum t <= dmax ->
  nondecreasing (acc :: cumsum_from acc t ++ [dmax]).
Proof.
  revert acc. induction t as [|x t IH]; intros acc Hpos Hsum.
  - simpl in *. split; [lra|exact I].
  - apply Forall_cons in Hpos as [Hx Hpos]. cbn [cumsum_from app].
    apply nondecreasing_cons. split; [lra|].
    apply IH; [exact Hpos|]. simpl in Hsum. lra.
Qed.

Lemma stair_depths_ends (d : list R) (dmax : R) :
  d <> [] ->
  length (stair_depths d dmax) = (2 * length d)%nat /\
  head (stair_depths d dmax) = Some 0 /\
  last (stair_depths d dmax) = Some dmax.
Proof.
  intros Hd. rewrite (stair_depths_drop_last d dmax Hd). split; [|split].
  - cbn [length]. rewrite length_app, length_twice, length_drop_last.
    destruct d; [congruence|]. cbn [length]. lia.
  - reflexivity.
  - apply (last_snoc dmax (0 :: twice (drop_last d))).
Qed.

(** X26. The depth axis of the plot starts at 0, ends at [dmax] and never
    goes back up: for [l2mod] when the thicknesses above the half-space
    are not negative and add up to at most [dmax], for [d2mod] when the
    interface depths above the half-space increase from 0 to at most
    [dmax]. *)
Theorem depth_axis_never_goes_back_up
    (m : layered_model) (vmin vmax dmin dmax : R) :
  m <> [] ->
  (Forall (fun a => 0 <= a) (drop_last (column0 m)) ->
   rsum (drop_last (column0 m)) <= dmax ->
   exists px py,
     l2mod m vmin vmax dmin dmax = Ok (px, py) /\
     length py = (2 * length m)%nat /\
     head py = Some 0 /\ last py = Some dmax /\ nondecreasing py) /\
  (nondecreasing (0 :: drop_last (column0 m) ++ [dmax]) ->
   exists px py,
     d2mod m vmin vmax dmin dmax = Ok (px, py) /\
     length py = (2 * length m)%nat /\
     head py = Some 0 /\ last py = Some dmax /\ nondecreasing py).
Proof.
  intros Hm.
  assert (Hlen : (0 < length m)%nat) by (destruct m; [congruence|cbn; lia]).
  assert (Hc : column0 m <> []).
  { intros H. apply (f_equal length) in H. rewrite length_column0 in H.
    cbn in H. lia. }
  assert (Hcs : cumsum (column0 m) <> []).
  { intros H. apply (f_equal length) in H.
    rewrite length_cumsum, length_column0 in H. cbn in H. lia. }
  split.
  - intros Hpos Hsum. eexists _, _.
    rewrite l2mod_step_plot, step_plot_closed_form;
      [|now rewrite length_cumsum, length_column0
       |apply length_column1|exact Hlen].
    split; [reflexivity|].
    destruct (stair_depths_ends (cumsum (column0 m)) dmax Hcs)
      as (Hl & Hh & Hla).
    rewrite length_cumsum, length_column0 in Hl.
    repeat split; try assumption.
    rewrite (stair_depths_drop_last _ dmax Hcs), drop_last_cumsum.
    apply nondecreasing_twice. apply nondecreasing_cumsum; [exact Hpos|lra].
  - intros Hinc. eexists _, _.
    rewrite d2mod_step_plot, step_plot_closed_form;
      [|apply length_column0|apply length_column1|exact Hlen].
    split; [reflexivity|].
    destruct (stair_depths_ends (column0 m) dmax Hc) as (Hl & Hh & Hla).
    rewrite length_column0 in Hl.
    repeat split; try assumption.
    rewrite (stair_depths_drop_last _ dmax Hc).
    now apply nondecreasing_twice.
Qed.

Lemma depth_axis_never_goes_back_up_witness :
  two_layers <> [] /\
  Forall (fun a => 0 <= a) (drop_last (column0 two_layers)) /\
  rsum (drop_last (column0 two_layers)) <= 60 /\
  nondecreasing (0 :: drop_last (column0 two_layers) ++ [60]) /\
  (exists px py,
     l2mod two_layers 2.4 4.7 0 60 = Ok (px, py) /\
     length py = (2 * length two_layers)%nat /\
     head py = Some 0 /\ last py = Some 60 /\ nondecreasing py) /\
  (exists px py,
     d2mod two_layers 2.4 4.7 0 60 = Ok (px, py) /\
     length py = (2 * length two_layers)%nat /\
     head py = Some 0 /\ last py = Some 60 /\ nondecreasing py).
Proof.
  assert (Hm : two_layers <> []) by discriminate.
  assert (Hpos : Forall (fun a => 0 <= a) (drop_last (column0 two_layers))).
  { change (Forall (fun a => 0 <= a) [20]).
    apply Forall_cons. split; [lra|apply Forall_nil_2]. }
  assert (Hsum : rsum (drop_last (column0 two_layers)) <= 60).
  { change (20 + 0 <= 60). lra. }
  assert (Hinc : nondecreasing (0 :: drop_last (column0 two_layers) ++ [60])).
  { change (0 <= 20 /\ 20 <= 60 /\ True). repeat split; lra. }
  split; [exact Hm|]. split; [exact Hpos|]. split; [exact Hsum|].
  split; [exact Hinc|].
  destruct (depth_axis_never_goes_back_up two_layers 2.4 4.7 0 60 Hm)
    as [Hl Hd].
  split; [exact (Hl Hpos Hsum)|exact (Hd Hinc)].
Defined.

Lemma columns_of_model (d b r : list R) :
  length b = length d -> length r = length d ->
  column0 (model_of_columns d b r) = d /\
  column1 (model_of_columns d b r) = b /\
  length (model_of_columns d b r) = length d.
Proof.
  unfold model_of_columns, column0, column1.
  revert b r. induction d as [|x d IH]; intros [|y b] [|z r] Hb Hr;
    try discriminate; [now repeat split|].
  cbn [zip zip_with map length fst snd].
  destruct (IH b r) as (H0 & H1 & H2); [cbn in Hb; lia|cbn in Hr; lia|].
  cbn [zip] in H0, H1, H2. rewrite H0, H1, H2. now repeat split.
Qed.

(** X27. What [v2mod] returns is consistent: the plot it returns is the
    plot [d2mod] draws of the interface-depth model made of the three
    arrays it returns beside it. *)
Theorem v2mod_plot_is_d2mod_of_returned_model
    (voro2mod : layered_model -> nat -> nat -> R * R * R)
    (model : layered_model) (vmin vmax dmin dmax : R)
    (depth beta vpvs px py : list R) :
  v2mod voro2mod model vmin vmax dmin dmax = Ok (depth, beta, vpvs, px, py) ->
  d2mod (model_of_columns depth beta vpvs) vmin vmax dmin dmax = Ok (px, py).
Proof.
  intros H. rewrite v2mod_step_plot in H.
  destruct (step_plot _ _ _ _) as [[px' py']|e] eqn:Hplot in H;
    [|discriminate].
  injection H as <- <- <- <- <-.
  destruct (columns_of_model
              (cumsum (map (fun i => (voro2mod model (length model) i).1.1)
                           (seq 0 (length model))))
              (map (fun i => (voro2mod model (length model) i).1.2)
                   (seq 0 (length model)))
              (map (fun i => (voro2mod model (length model) i).2)
                   (seq 0 (length model))))
    as (H0 & H1 & H2).
  { now rewrite length_cumsum, !length_map. }
  { now rewrite length_cumsum, !length_map. }
  rewrite d2mod_step_plot, H0, H1, H2.
  rewrite length_cumsum, length_map, length_seq. exact Hplot.
Qed.

Lemma v2mod_plot_is_d2mod_of_returned_model_witness :
  let model := [(5, 3.5, 1.73); (25, 3.5, 1.73)] in
  v2mod uniform_voro2mod model 2.4 4.7 0 60
    = Ok ([0 + 10; 0 + 10 + 10], [3.5; 3.5], [1.73; 1.73],
          [3.5; 3.5; 3.5; 3.5], [0; 0 + 10; 0 + 10; 60]) /\
  d2mod (model_of_columns [0 + 10; 0 + 10 + 10] [3.5; 3.5] [1.73; 1.73])
        2.4 4.7 0 60
    = Ok ([3.5; 3.5; 3.5; 3.5], [0; 0 + 10; 0 + 10; 60]).
Proof.
  intros model. split; [reflexivity|].
  exact (v2mod_plot_is_d2mod_of_returned_model uniform_voro2mod model
           2.4 4.7 0 60 _ _ _ _ _ eq_refl).
Defined.

(** ** The periodic kernel *)

Lemma sin_sqr_abs (u c : R) : sin (Rabs u * c) ^ 2 = sin (u * c) ^ 2.
Proof.
  unfold Rabs. destruct (Rcase_abs u); [|reflexivity].
  replace (- u * c) with (- (u * c)) by ring. rewrite sin_neg. ring.
Qed.

Lemma sin_sqr_half_turn (a : R) : sin (a + PI) ^ 2 = sin a ^ 2.
Proof. rewrite neg_sin. ring. Qed.

(** X28. The periodic kernel repeats: moving one point by [period] changes
    nothing, so two points one period apart are as correlated as a point
    with itself. *)
Theorem periodic_kernel_repeats_after_one_period (x xp s1 rho period : R) :
  rho <> 0 -> period <> 0 ->
  periodic (x + period) xp s1 rho period = periodic x xp s1 rho period /\
  periodic (x + period) x s1 rho period = s1 ^ 2.
Proof.
  intros Hrho Hp.
  assert (Hshift : forall a b,
            periodic (a + period) b s1 rho period = periodic a b s1 rho period).
  { intros a b. unfold periodic. do 4 f_equal.
    unfold Rdiv. rewrite !Rmult_assoc, !sin_sqr_abs.
    replace ((a + period - b) * (PI * / period))
      with ((a - b) * (PI * / period) + PI) by (now field).
    now rewrite sin_sqr_half_turn. }
  split; [apply Hshift|].
  rewrite Hshift. now apply periodic_zero_lag.
Qed.

Lemma periodic_kernel_repeats_after_one_period_witness :
  (2.5 : R) <> 0 /\ (1 : R) <> 0 /\
  periodic (0.25 + 1) 0 0.01 2.5 1 = periodic 0.25 0 0.01 2.5 1 /\
  periodic (0.25 + 1) 0.25 0.01 2.5 1 = 0.01 ^ 2.
Proof.
  assert (Hrho : (2.5 : R) <> 0) by lra.
  assert (H : (1 : R) <> 0) by lra.
  split; [exact Hrho|]. split; [exact H|].
  exact (periodic_kernel_repeats_after_one_period 0.25 0 0.01 2.5 1 Hrho H).
Defined.
